(** * GO-Tutorial: channels, worker pool, cancellation and nil interfaces

    A shallow embedding of the concurrency demonstrations of the repository
    (buffered channels, the worker pool, the single-worker pipeline, the
    producer/consumer pair, panic and recover, the nil-interface trap) and the
    properties the specification states about them.

    Conventions.
    - A Go channel is a record holding its buffer (oldest element first), its
      capacity and its closed flag.  An operation on a channel either
      completes, would block, or panics.
    - A goroutine is a program counter; a program is a state holding the
      channels and the program counters, and [step] lets one goroutine that is
      not blocked execute its next channel operation.  Schedules are arbitrary:
      every theorem about a program quantifies over all of them.
    - Go's [int] is taken as the 64-bit two's complement integer. *)

From Stdlib Require Import String DecimalString ZArith Lia Bool Arith PeanoNat List Permutation.
Import ListNotations.
Open Scope string_scope.
Open Scope nat_scope.

Set Implicit Arguments.

(* ================================================================== *)
(** * Outcomes of a blocking operation *)
(* ================================================================== *)

(** What happens when a goroutine attempts a channel operation:
    it completes with a value, it cannot proceed yet, or the runtime
    panics with a message. *)
Inductive outcome (R : Type) : Type :=
| Completed (r : R)
| Blocked
| Panics (msg : string).

Arguments Completed {R} r.
Arguments Blocked {R}.
Arguments Panics {R} msg.

(* ================================================================== *)
(** * Go channels *)
(* ================================================================== *)

Module Chan.

Section Ops.
Variable A : Type.

  (** [make(chan A, cap)]: [buf] holds the values sent and not yet received,
      oldest first. *)
Record chan : Type := mk {
    buf : list A;
    cap : nat;
    closed : bool
  }.

Definition make (c : nat) : chan := mk [] c false.

Definition len (ch : chan) : nat := length (buf ch).

  (** [ch <- x] on a buffered channel: panics on a closed channel, blocks
      while the buffer is full, appends at the tail otherwise. *)
Definition send (x : A) (ch : chan) : outcome chan :=
    if closed ch then Panics "send on closed channel"
    else if len ch <? cap ch
         then Completed (mk (buf ch ++ [x]) (cap ch) false)
         else Blocked.

  (** [v, ok := <-ch]: takes the head of the buffer; on an empty channel it
      blocks while the channel is open and yields [None] (the zero value with
      [ok = false]) once it is closed. *)
Definition recv (ch : chan) : outcome (option A * chan) :=
    match buf ch with
    | x :: rest => Completed (Some x, mk rest (cap ch) (closed ch))
    | [] => if closed ch then Completed (None, ch) else Blocked
    end.

  (** [close(ch)]: panics when the channel is already closed; the buffer is
      kept so that receivers can drain it. *)
Definition close (ch : chan) : outcome chan :=
    if closed ch then Panics "close of closed channel"
    else Completed (mk (buf ch) (cap ch) true).

  (** [select { case ch <- x: ...; default: ... }]: the non-blocking write of
      the select demonstration.  [true] when the send case ran, [false] when
      the default case ran (the job is dropped, "Queue full, dropping job"). *)
Definition try_send (x : A) (ch : chan) : outcome (bool * chan) :=
    match send x ch with
    | Completed ch' => Completed (true, ch')
    | Blocked => Completed (false, ch)
    | Panics m => Panics m
    end.

  (** ** Sequences of operations *)

Inductive op : Type :=
  | Enq (x : A)
  | Deq
  | Cls.

  (** The channel after one attempted operation.  An operation that blocks or
      panics has not completed and leaves the channel as it was. *)
Definition apply_op (o : op) (ch : chan) : chan :=
    match o with
    | Enq x => match send x ch with Completed ch' => ch' | _ => ch end
    | Deq => match recv ch with Completed (_, ch') => ch' | _ => ch end
    | Cls => match close ch with Completed ch' => ch' | _ => ch end
    end.

Definition run_ops (ops : list op) (ch : chan) : chan :=
    fold_left (fun c o => apply_op o c) ops ch.

  (** A trace keeps, besides the channel, the values whose send completed
      ([sent]) and the values handed to receivers ([rcvd]), both oldest
      first. *)
Record trace : Type := mkTrace {
    tr_chan : chan;
    sent : list A;
    rcvd : list A
  }.

Definition trace_op (o : op) (t : trace) : trace :=
    match o with
    | Enq x =>
        match send x (tr_chan t) with
        | Completed ch' => mkTrace ch' (sent t ++ [x]) (rcvd t)
        | _ => t
        end
    | Deq =>
        match recv (tr_chan t) with
        | Completed (Some x, ch') => mkTrace ch' (sent t) (rcvd t ++ [x])
        | Completed (None, ch') => mkTrace ch' (sent t) (rcvd t)
        | _ => t
        end
    | Cls =>
        match close (tr_chan t) with
        | Completed ch' => mkTrace ch' (sent t) (rcvd t)
        | _ => t
        end
    end.

Definition run_trace (ops : list op) (c : nat) : trace :=
    fold_left (fun t o => trace_op o t) ops (mkTrace (make c) [] []).

  (** [sends xs ch]: the sends of [xs] in order, none followed by a receive. *)
Definition sends (xs : list A) (ch : chan) : chan :=
    run_ops (map Enq xs) ch.

  (** [drain n ch]: the values of [n] successive receives (a receive that
      blocks or finds the channel closed and empty ends the drain). *)
Fixpoint drain (n : nat) (ch : chan) : list A :=
    match n with
    | O => []
    | S n' =>
        match recv ch with
        | Completed (Some x, ch') => x :: drain n' ch'
        | _ => []
        end
    end.

  (** [for v := range ch] on a channel whose sender is done: the values
      received until the channel is closed and empty.  [None] when the loop
      blocks forever (the channel is empty and was never closed). *)
Fixpoint range_loop (fuel : nat) (ch : chan) : option (list A) :=
    match fuel with
    | O => None
    | S fuel' =>
        match recv ch with
        | Completed (Some x, ch') => option_map (cons x) (range_loop fuel' ch')
        | Completed (None, _) => Some []
        | _ => None
        end
    end.

End Ops.

Arguments make {A} c.
Arguments Deq {A}.
Arguments Cls {A}.

End Chan.

(* ================================================================== *)
(** * Small list utilities *)
(* ================================================================== *)

(** [update k v l]: [l] with position [k] replaced by [v]; [l] itself when
    [k] is out of range (the programs below only update positions they have
    just read). *)
Fixpoint update {A : Type} (k : nat) (v : A) (l : list A) : list A :=
  match l, k with
  | [], _ => []
  | _ :: t, O => v :: t
  | h :: t, S k' => h :: update k' v t
  end.

(** Decimal rendering of a loop counter, as [%d] prints it. *)
Definition dec (n : nat) : string :=
  DecimalString.NilEmpty.string_of_uint (Nat.to_uint n).

(* ================================================================== *)
(** * The worker pool (worker-pool demonstration) *)
(* ================================================================== *)

Module Pool.

(** [type Job struct { ID int; Filename string }] *)
Record Job : Type := mkJob {
  ID : nat;
  Filename : string
}.

(** [type Result struct { JobID int; Status string; Duration time.Duration }].
    [Duration] is the wall-clock time of the simulated work; it plays no part
    in the flow of jobs and results and is left out. *)
Record Result : Type := mkResult {
  JobID : nat;
  Status : string
}.

(** What the program prints, in order. *)
Inductive event : Type :=
| EvStarted (w : nat) (j : Job)      (* "[Worker w] Started Job j.ID (j.Filename)" *)
| EvStopping (w : nat)               (* "[Worker w] Stopping (no more jobs)" *)
| EvResult (r : Result)              (* "[Main] Result for Job r.JobID: r.Status" *)
| EvAllDone.                         (* "--- All jobs completed ---" *)

(** Where [main] stands: in the loop that starts the workers (about to start
    worker [w]), in the loop that sends the jobs (about to send job [j], or to
    close the channel once [j] exceeds [numJobs]), in the loop that collects
    the results (about to receive the [i]-th), or returned. *)
Inductive main_pc : Type :=
| Spawning (w : nat)
| Producing (j : nat)
| Collecting (i : nat)
| Finished.

(** Where a worker stands: at the receive of [for job := range jobs], holding
    a job whose result it is about to send, or past the loop. *)
Inductive worker_pc : Type :=
| Waiting
| Working (job : Job)
| Stopped.

Record state : Type := mkState {
  main : main_pc;
  jobs : Chan.chan Job;
  results : Chan.chan Result;
  workers : list worker_pc;      (* position [k] is worker [k + 1] *)
  out : list event
}.

Inductive agent : Type :=
| Main
| Worker (k : nat).

Section Program.
  (** [const numWorkers = 3] and [const numJobs = 10] in the source. *)
Variables numWorkers numJobs : nat.

  (** The work a worker does on a job between taking it and sending its
      result: [None] when it returns normally, [Some msg] when it panics with
      [msg].  The source simulates the work by
      [time.Sleep(500 * time.Millisecond)], which returns normally: see
      [sleep] below. *)
Variable work : Job -> option string.

  (** [Job{ID: j, Filename: fmt.Sprintf("data_%d.csv", j)}] *)
Definition job_of (j : nat) : Job :=
    mkJob j ("data_" ++ dec j ++ ".csv").

  (** [Result{JobID: job.ID, Status: "Success", ...}] *)
Definition result_of (job : Job) : Result :=
    mkResult (ID job) "Success".

  (** [jobs := make(chan Job, numJobs)], [results := make(chan Result, numJobs)],
      [main] at the head of the loop that starts the workers. *)
Definition init : state :=
    mkState (Spawning 1) (Chan.make numJobs) (Chan.make numJobs) [] [].

  (** The next operation of [main]. *)
Definition step_main (s : state) : outcome state :=
    match main s with
    | Spawning w =>
        if w <=? numWorkers
        then (* go worker(w, jobs, results) *)
          Completed (mkState (Spawning (S w)) (jobs s) (results s)
                             (workers s ++ [Waiting]) (out s))
        else Completed (mkState (Producing 1) (jobs s) (results s)
                                (workers s) (out s))
    | Producing j =>
        if j <=? numJobs
        then (* jobs <- Job{...} *)
          match Chan.send (job_of j) (jobs s) with
          | Completed c =>
              Completed (mkState (Producing (S j)) c (results s)
                                 (workers s) (out s))
          | Blocked => Blocked
          | Panics m => Panics m
          end
        else (* close(jobs) *)
          match Chan.close (jobs s) with
          | Completed c =>
              Completed (mkState (Collecting 1) c (results s)
                                 (workers s) (out s))
          | Blocked => Blocked
          | Panics m => Panics m
          end
    | Collecting i =>
        if i <=? numJobs
        then (* res := <-results; fmt.Printf(...) *)
          match Chan.recv (results s) with
          | Completed (Some r, c) =>
              Completed (mkState (Collecting (S i)) (jobs s) c
                                 (workers s) (out s ++ [EvResult r]))
          | Completed (None, c) =>
              (* a closed and empty channel yields the zero Result *)
              Completed (mkState (Collecting (S i)) (jobs s) c
                                 (workers s) (out s ++ [EvResult (mkResult 0 "")]))
          | Blocked => Blocked
          | Panics m => Panics m
          end
        else Completed (mkState Finished (jobs s) (results s)
                                (workers s) (out s ++ [EvAllDone]))
    | Finished => Blocked
    end.

  (** The next operation of worker [k + 1]. *)
Definition step_worker (k : nat) (s : state) : outcome state :=
    match nth_error (workers s) k with
    | None => Blocked
    | Some Waiting =>
        (* for job := range jobs *)
        match Chan.recv (jobs s) with
        | Completed (Some job, c) =>
            Completed (mkState (main s) c (results s)
                               (update k (Working job) (workers s))
                               (out s ++ [EvStarted (S k) job]))
        | Completed (None, c) =>
            Completed (mkState (main s) c (results s)
                               (update k Stopped (workers s))
                               (out s ++ [EvStopping (S k)]))
        | Blocked => Blocked
        | Panics m => Panics m
        end
    | Some (Working job) =>
        (* the work on the job; results <- Result{...}.  The worker has no
           deferred recover: a panic of the work leaves the goroutine. *)
        match work job with
        | Some msg => Panics msg
        | None =>
            match Chan.send (result_of job) (results s) with
            | Completed c =>
                Completed (mkState (main s) (jobs s) c
                                   (update k Waiting (workers s)) (out s))
            | Blocked => Blocked
            | Panics m => Panics m
            end
        end
    | Some Stopped => Blocked
    end.

  (** One operation of one goroutine.  Once [main] has returned the process
      has exited and nothing runs any more. *)
Definition step_fn (a : agent) (s : state) : outcome state :=
    match main s with
    | Finished => Blocked
    | _ =>
        match a with
        | Main => step_main s
        | Worker k => step_worker k s
        end
    end.

Definition step (s s' : state) : Prop :=
    exists a, step_fn a s = Completed s'.

  (** The states of the executions of the program, under every schedule. *)
Inductive reachable : state -> Prop :=
  | reach_init : reachable init
  | reach_step : forall s s', reachable s -> step s s' -> reachable s'.

  (** [run sched s]: the goroutines named by [sched] take one step each, in
      that order; a goroutine that is blocked when its turn comes is passed
      over.  A panic that no goroutine recovers ends the process: the run
      stops there, with the state reached and the panic message. *)
Fixpoint run (sched : list agent) (s : state) : state * option string :=
    match sched with
    | [] => (s, None)
    | a :: rest =>
        match step_fn a s with
        | Completed s' => run rest s'
        | Blocked => run rest s
        | Panics m => (s, Some m)
        end
    end.

  (** ** Observations on a state *)

Definition started_of (e : event) : list Job :=
    match e with EvStarted _ j => [j] | _ => [] end.

Definition printed_of (e : event) : list Result :=
    match e with EvResult r => [r] | _ => [] end.

  (** The jobs the workers have taken from the queue, in the order taken. *)
Definition started (s : state) : list Job := flat_map started_of (out s).

  (** The results [main] has received, in the order received. *)
Definition printed (s : state) : list Result := flat_map printed_of (out s).

  (** The workers that started job [j]. *)
Definition starters (j : nat) (s : state) : list nat :=
    flat_map (fun e => match e with
                       | EvStarted w job => if ID job =? j then [w] else []
                       | _ => []
                       end) (out s).

Definition held_of (w : worker_pc) : list Job :=
    match w with Working j => [j] | _ => [] end.

  (** The jobs taken from the queue whose result is not sent yet. *)
Definition in_flight (s : state) : list Job := flat_map held_of (workers s).

Definition is_stopped (w : worker_pc) : bool :=
    match w with Stopped => true | _ => false end.

  (** The jobs [main] has sent so far. *)
Definition submitted (s : state) : list Job :=
    match main s with
    | Spawning _ => []
    | Producing j => map job_of (seq 1 (j - 1))
    | Collecting _ | Finished => map job_of (seq 1 numJobs)
    end.

  (** The number of steps the program can still take, at most. *)
Definition measure (s : state) : nat :=
    match main s with
    | Spawning w => 3 + 2 * (S numWorkers - w) + 4 * numJobs + S numJobs
    | Producing j => 2 + 4 * (S numJobs - j) + S numJobs
    | Collecting i => 1 + (S numJobs - i)
    | Finished => 0
    end
    + 3 * Chan.len (jobs s)
    + 2 * length (in_flight s)
    + Chan.len (results s)
    + length (filter (fun w => negb (is_stopped w)) (workers s)).

  (** ** The transitions, case by case

      [trans s s'] lists the steps of [step_fn] one by one, with the
      conditions under which each is taken. *)
Inductive trans : state -> state -> Prop :=
  | T_spawn : forall w jq rq ws o,
      w <= numWorkers ->
      trans (mkState (Spawning w) jq rq ws o)
            (mkState (Spawning (S w)) jq rq (ws ++ [Waiting]) o)
  | T_spawned : forall w jq rq ws o,
      numWorkers < w ->
      trans (mkState (Spawning w) jq rq ws o)
            (mkState (Producing 1) jq rq ws o)
  | T_send : forall j jq rq ws o,
      j <= numJobs ->
      Chan.closed jq = false -> Chan.len jq < Chan.cap jq ->
      trans (mkState (Producing j) jq rq ws o)
            (mkState (Producing (S j))
                     (Chan.mk (Chan.buf jq ++ [job_of j]) (Chan.cap jq) false)
                     rq ws o)
  | T_close : forall j jq rq ws o,
      numJobs < j ->
      Chan.closed jq = false ->
      trans (mkState (Producing j) jq rq ws o)
            (mkState (Collecting 1)
                     (Chan.mk (Chan.buf jq) (Chan.cap jq) true) rq ws o)
  | T_collect : forall i jq rq ws o r rest,
      i <= numJobs ->
      Chan.buf rq = r :: rest ->
      trans (mkState (Collecting i) jq rq ws o)
            (mkState (Collecting (S i)) jq
                     (Chan.mk rest (Chan.cap rq) (Chan.closed rq)) ws
                     (o ++ [EvResult r]))
  | T_collect_zero : forall i jq rq ws o,
      i <= numJobs ->
      Chan.buf rq = [] -> Chan.closed rq = true ->
      trans (mkState (Collecting i) jq rq ws o)
            (mkState (Collecting (S i)) jq rq ws
                     (o ++ [EvResult (mkResult 0 "")]))
  | T_finish : forall i jq rq ws o,
      numJobs < i ->
      trans (mkState (Collecting i) jq rq ws o)
            (mkState Finished jq rq ws (o ++ [EvAllDone]))
  | T_take : forall m jq rq ws o k job rest,
      m <> Finished ->
      nth_error ws k = Some Waiting ->
      Chan.buf jq = job :: rest ->
      trans (mkState m jq rq ws o)
            (mkState m (Chan.mk rest (Chan.cap jq) (Chan.closed jq)) rq
                     (update k (Working job) ws)
                     (o ++ [EvStarted (S k) job]))
  | T_stop : forall m jq rq ws o k,
      m <> Finished ->
      nth_error ws k = Some Waiting ->
      Chan.buf jq = [] -> Chan.closed jq = true ->
      trans (mkState m jq rq ws o)
            (mkState m jq rq (update k Stopped ws)
                     (o ++ [EvStopping (S k)]))
  | T_emit : forall m jq rq ws o k job,
      m <> Finished ->
      nth_error ws k = Some (Working job) ->
      work job = None ->
      Chan.closed rq = false -> Chan.len rq < Chan.cap rq ->
      trans (mkState m jq rq ws o)
            (mkState m jq
                     (Chan.mk (Chan.buf rq ++ [result_of job]) (Chan.cap rq) false)
                     (update k Waiting ws) o).

  (** ** The invariant of the program *)

  (** The number of workers started so far. *)
Definition spawned (m : main_pc) : nat :=
    match m with
    | Spawning w => w - 1
    | _ => numWorkers
    end.

  (** Whether [main] is past [close(jobs)]. *)
Definition past_close (m : main_pc) : bool :=
    match m with
    | Spawning _ | Producing _ => false
    | Collecting _ | Finished => true
    end.

  (** The number of results [main] has received. *)
Definition collected (m : main_pc) : nat :=
    match m with
    | Spawning _ | Producing _ => 0
    | Collecting i => i - 1
    | Finished => numJobs
    end.

Definition pc_in_range (m : main_pc) : Prop :=
    match m with
    | Spawning w => 1 <= w <= S numWorkers
    | Producing j => 1 <= j <= S numJobs
    | Collecting i => 1 <= i <= S numJobs
    | Finished => True
    end.

Record inv (s : state) : Prop := mkInv {
    inv_pc : pc_in_range (main s);
    inv_cap_jobs : Chan.cap (jobs s) = numJobs;
    inv_cap_results : Chan.cap (results s) = numJobs;
    inv_results_open : Chan.closed (results s) = false;
    inv_jobs_closed : Chan.closed (jobs s) = past_close (main s);
    inv_workers : length (workers s) = spawned (main s);
    inv_collected : length (printed s) = collected (main s);
    (* the queue is first in, first out: the jobs taken followed by the jobs
       waiting are the jobs sent, in the order sent *)
    inv_fifo : (started s ++ Chan.buf (jobs s))%list = submitted s;
    (* every job taken is held by a worker, or its result waits in [results],
       or its result was received by [main]; nothing else is there *)
    inv_flow :
      Permutation (printed s ++ Chan.buf (results s)
                   ++ map result_of (in_flight s))%list
                  (map result_of (started s));
    (* a worker leaves its loop only when the queue is closed and empty *)
    inv_stopped :
      forall k, nth_error (workers s) k = Some Stopped ->
                Chan.closed (jobs s) = true /\ Chan.buf (jobs s) = []
  }.

End Program.

(** [time.Sleep(500 * time.Millisecond)]: the simulated work of the source. *)
Definition sleep (_ : Job) : option string := None.

(** A round-robin schedule: [main] and the workers [1 .. n] take turns,
    [rounds] times. *)
Definition round_robin (n rounds : nat) : list agent :=
  concat (repeat (Main :: map Worker (seq 0 n)) rounds).

(** The program as the source configures it (3 workers, 10 jobs, sleeping
    work), run under the round-robin schedule. *)
Definition source_run : state * option string :=
  run 3 10 sleep (round_robin 3 40) (init 10).

End Pool.

(* ================================================================== *)
(** * Go's [int]: 64-bit two's complement *)
(* ================================================================== *)

Module Int64.

Definition min_int : Z := (- 2 ^ 63)%Z.
Definition max_int : Z := (2 ^ 63 - 1)%Z.

Definition in_range (z : Z) : Prop := (min_int <= z <= max_int)%Z.

(** The value a 64-bit register holds after an arithmetic result [z]. *)
Definition wrap (z : Z) : Z := ((z + 2 ^ 63) mod 2 ^ 64 - 2 ^ 63)%Z.

(** [a * b] on [int]. *)
Definition mul (a b : Z) : Z := wrap (a * b).

End Int64.

(* ================================================================== *)
(** * The single-worker pipeline (channel-pipeline test) *)
(* ================================================================== *)

Module Pipeline.

(** The goroutine that feeds [input]: about to send the head of [rest]
    (or, when [rest] is empty, to return and run its deferred
    [close(input)]), or returned. *)
Inductive feeder_pc : Type :=
| Feeding (rest : list Z)
| FeederDone.

(** [worker]: at the receive of [for v := range input], about to send
    [v * 2] on [output], or returned. *)
Inductive worker_pc : Type :=
| AtRecv
| AtSend (y : Z)
| Returned.

(** The test function: about to receive its [i]-th value from [output]
    (counting from 0), or past the loop. *)
Inductive main_pc : Type :=
| Reading (i : nat)
| Collected.

Record state : Type := mkState {
  feeder : feeder_pc;
  input_closed : bool;
  worker : worker_pc;
  main : main_pc;
  results : list Z               (* [results = append(results, <-output)] *)
}.

(** [input] and [output] are unbuffered: a send completes together with the
    matching receive.  The moves of the program are therefore the two
    hand-offs, the close of [input], the worker leaving its loop and the test
    leaving its loop. *)
Inductive action : Type :=
| FeedHandoff      (* input <- i   meets   v := range input *)
| FeederClose      (* defer close(input) *)
| WorkerExit       (* range input finds the channel closed *)
| OutHandoff       (* output <- v * 2   meets   <-output *)
| MainDone.        (* the collecting loop ends *)

Section Program.
  (** The values the feeder sends ([1 .. 5] in the test); the test reads as
      many values as were sent. *)
Variable xs : list Z.

Definition init : state :=
    mkState (Feeding xs) false AtRecv (Reading 0) [].

Definition step_fn (a : action) (s : state) : outcome state :=
    match main s with
    | Collected => Blocked
    | Reading i =>
        match a with
        | FeedHandoff =>
            match feeder s, worker s with
            | Feeding (x :: rest), AtRecv =>
                if input_closed s then Panics "send on closed channel"
                else Completed (mkState (Feeding rest) false
                                        (AtSend (Int64.mul x 2))
                                        (main s) (results s))
            | _, _ => Blocked
            end
        | FeederClose =>
            match feeder s with
            | Feeding [] =>
                if input_closed s then Panics "close of closed channel"
                else Completed (mkState FeederDone true (worker s)
                                        (main s) (results s))
            | _ => Blocked
            end
        | WorkerExit =>
            match worker s with
            | AtRecv =>
                if input_closed s
                then Completed (mkState (feeder s) true Returned
                                        (main s) (results s))
                else Blocked
            | _ => Blocked
            end
        | OutHandoff =>
            match worker s with
            | AtSend y =>
                if i <? length xs
                then Completed (mkState (feeder s) (input_closed s) AtRecv
                                        (Reading (S i)) (results s ++ [y]))
                else Blocked
            | _ => Blocked
            end
        | MainDone =>
            if i <? length xs then Blocked
            else Completed (mkState (feeder s) (input_closed s) (worker s)
                                    Collected (results s))
        end
    end.

Definition step (s s' : state) : Prop :=
    exists a, step_fn a s = Completed s'.

Inductive reachable : state -> Prop :=
  | reach_init : reachable init
  | reach_step : forall s s', reachable s -> step s s' -> reachable s'.

  (** The moves of [sched] in order; a move that is not enabled is passed
      over, a panic ends the run. *)
Fixpoint run (sched : list action) (s : state) : state * option string :=
    match sched with
    | [] => (s, None)
    | a :: rest =>
        match step_fn a s with
        | Completed s' => run rest s'
        | Blocked => run rest s
        | Panics m => (s, Some m)
        end
    end.

Definition unsent (s : state) : list Z :=
    match feeder s with Feeding rest => rest | FeederDone => [] end.

Definition held (s : state) : list Z :=
    match worker s with AtSend y => [y] | _ => [] end.

Definition measure (s : state) : nat :=
    3 * length (unsent s) + 2 * length (held s)
    + match feeder s with Feeding _ => 1 | FeederDone => 0 end
    + match worker s with Returned => 0 | _ => 1 end
    + match main s with Reading _ => 1 | Collected => 0 end.

  (** [v * 2] as the worker computes it. *)
Definition double (v : Z) : Z := Int64.mul v 2.

  (** The invariant of the program: the values doubled so far are, in order,
      the results collected, then the value the worker holds; [input] is
      closed exactly when the feeder has returned; the worker leaves its loop
      only after that; the test has read as many values as it has
      collected. *)
Definition inv (s : state) : Prop :=
    map double xs = (results s ++ held s ++ map double (unsent s))%list /\
    (input_closed s = true <-> feeder s = FeederDone) /\
    (worker s = Returned -> feeder s = FeederDone) /\
    match main s with
    | Reading i => i = length (results s)
    | Collected => length (results s) = length xs
    end.

End Program.

Definition all_moves : list action :=
  [FeedHandoff; FeederClose; WorkerExit; OutHandoff; MainDone].

Definition round_robin (rounds : nat) : list action :=
  concat (repeat all_moves rounds).

(** The test of the source: the feeder sends [1 .. 5]. *)
Definition test_input : list Z := [1; 2; 3; 4; 5]%Z.

Definition test_run : state * option string :=
  run test_input (round_robin 12) (init test_input).

(** The same pipeline fed with the single value [2 ^ 62]. *)
Definition large_input : list Z := [4611686018427387904]%Z.

Definition large_run : state * option string :=
  run large_input (round_robin 12) (init large_input).

End Pipeline.

(* ================================================================== *)
(** * Producer and consumer over a buffered channel (channels file) *)
(* ================================================================== *)

Module ProdCons.

(** [producer]: about to send [i] (or, once [i] exceeds the count, to return
    and run its deferred [close(ch)]), or returned. *)
Inductive producer_pc : Type :=
| Sending (i : nat)
| ProducerDone.

(** [consumer]: in [for num := range ch], or returned. *)
Inductive consumer_pc : Type :=
| Ranging
| ConsumerDone.

Record state : Type := mkState {
  producer : producer_pc;
  consumer : consumer_pc;
  ch : Chan.chan nat;
  processed : list nat           (* "[Consumer] Processed num", in order *)
}.

Inductive agent : Type :=
| Producer
| Consumer.

Section Program.
  (** [workStream := make(chan int, 5)] and [for i := 1; i <= 3; i++]. *)
Variables capacity count : nat.

Definition init : state :=
    mkState (Sending 1) Ranging (Chan.make capacity) [].

Definition step_fn (a : agent) (s : state) : outcome state :=
    match consumer s with
    | ConsumerDone => Blocked   (* [main] has returned *)
    | Ranging =>
        match a with
        | Producer =>
            match producer s with
            | Sending i =>
                if i <=? count
                then match Chan.send i (ch s) with
                     | Completed c =>
                         Completed (mkState (Sending (S i)) Ranging c
                                            (processed s))
                     | Blocked => Blocked
                     | Panics m => Panics m
                     end
                else match Chan.close (ch s) with
                     | Completed c =>
                         Completed (mkState ProducerDone Ranging c
                                            (processed s))
                     | Blocked => Blocked
                     | Panics m => Panics m
                     end
            | ProducerDone => Blocked
            end
        | Consumer =>
            match Chan.recv (ch s) with
            | Completed (Some v, c) =>
                Completed (mkState (producer s) Ranging c
                                   (processed s ++ [v]))
            | Completed (None, c) =>
                Completed (mkState (producer s) ConsumerDone c (processed s))
            | Blocked => Blocked
            | Panics m => Panics m
            end
        end
    end.

Definition step (s s' : state) : Prop :=
    exists a, step_fn a s = Completed s'.

Inductive reachable : state -> Prop :=
  | reach_init : reachable init
  | reach_step : forall s s', reachable s -> step s s' -> reachable s'.

Fixpoint run (sched : list agent) (s : state) : state * option string :=
    match sched with
    | [] => (s, None)
    | a :: rest =>
        match step_fn a s with
        | Completed s' => run rest s'
        | Blocked => run rest s
        | Panics m => (s, Some m)
        end
    end.

Definition measure (s : state) : nat :=
    match producer s with
    | Sending i => 1 + 2 * (S count - i)
    | ProducerDone => 0
    end
    + Chan.len (ch s)
    + match consumer s with Ranging => 1 | ConsumerDone => 0 end.

  (** The number of values the producer has sent. *)
Definition sent (s : state) : nat :=
    match producer s with
    | Sending i => i - 1
    | ProducerDone => count
    end.

  (** The invariant of the program: the values processed followed by the
      values in the channel are [1 .. sent]; the channel is closed exactly
      when the producer has returned; the consumer leaves its loop only on a
      closed and empty channel. *)
Definition inv (s : state) : Prop :=
    Chan.cap (ch s) = capacity /\
    (processed s ++ Chan.buf (ch s))%list = seq 1 (sent s) /\
    match producer s with
    | Sending i => 1 <= i <= S count /\ Chan.closed (ch s) = false
    | ProducerDone => Chan.closed (ch s) = true
    end /\
    (consumer s = ConsumerDone ->
     producer s = ProducerDone /\ Chan.buf (ch s) = []).

End Program.

(** The program of the source ([make(chan int, 5)], three values), the
    producer and the consumer taking turns. *)
Definition source_run : state * option string :=
  run 3 (concat (repeat [Producer; Consumer] 10)) (init 5).

End ProdCons.

(* ================================================================== *)
(** * Panic, defer and recover (defer/panic demonstration) *)
(* ================================================================== *)

Module GoPanic.

(** The value handed to [panic]. *)
Inductive pvalue : Type :=
| PString (s : string)
| PInt (z : Z).

Definition show (v : pvalue) : string :=
  match v with
  | PString s => s
  | PInt z => DecimalString.NilZero.string_of_int (Z.to_int z)
  end.

(** How a function call ends. *)
Inductive ending (A : Type) : Type :=
| Returns (a : A)
| Panicking (v : pvalue).

Arguments Returns {A} a.
Arguments Panicking {A} v.

(** A function body: it extends the lines printed so far and ends. *)
Definition Exec (A : Type) : Type := list string -> ending A * list string.

Definition ret {A : Type} (a : A) : Exec A := fun o => (Returns a, o).

Definition bind {A B : Type} (m : Exec A) (k : A -> Exec B) : Exec B :=
  fun o =>
    match m o with
    | (Returns a, o') => k a o'
    | (Panicking v, o') => (Panicking v, o')
    end.

Notation "m ;; k" := (bind m (fun _ => k))
  (at level 61, right associativity).

Definition println (s : string) : Exec unit :=
  fun o => (Returns tt, (o ++ [s])%list).

Definition panic {A : Type} (v : pvalue) : Exec A := fun o => (Panicking v, o).

(** [defer func() { if r := recover(); r != nil { handler r } }()] around
    [body]: the deferred function runs when [body] ends; [recover] stops a
    panic in progress and hands its value to [handler]; after a recovery the
    function returns normally, unless [handler] panics again. *)
Definition deferred_recover (handler : pvalue -> Exec unit) (body : Exec unit)
  : Exec unit :=
  fun o =>
    match body o with
    | (Returns a, o') => (Returns a, o')
    | (Panicking v, o') => handler v o'
    end.

(** [func safeExecute()] *)
Definition safeExecute : Exec unit :=
  deferred_recover
    (fun r => println ("   [RECOVERED] Caught a panic: " ++ show r))
    (println "   -> About to panic..." ;;
     panic (PString "Something went terribly wrong!")).

(** Section 3 of [main]: the call of [safeExecute] and the line after it. *)
Definition panic_protection : Exec unit :=
  println "--- Panic Protection ---" ;;
  safeExecute ;;
  println "4. Main function continues... Program did not crash!".

(** Section 8 of [main]: recover inside an anonymous function. *)
Definition recover_scope : Exec unit :=
  println "--- recover() Scope ---" ;;
  deferred_recover
    (fun r => println ("Recovered panic: " ++ show r))
    (panic (PString "panic inside anonymous function")).

(** Section 14 of [main]: the deferred function logs and panics again. *)
Definition re_panic : Exec unit :=
  println "--- Re-Panic Pattern ---" ;;
  deferred_recover
    (fun r => println ("Logging panic: " ++ show r) ;; panic r)
    (panic (PString "fatal error")).

End GoPanic.

(* ================================================================== *)
(** * Cancellation scopes (context demonstration) *)
(* ================================================================== *)

Module Ctx.

(** The two reasons [Err] reports: [context.Canceled] and
    [context.DeadlineExceeded]. *)
Inductive cause : Type :=
| Canceled
| DeadlineExceeded.

(** Modelled from the spec: the cancellation scope itself ([context.Context]
    and the functions that derive and cancel one) is library code that is not
    in the repository's sources.  After sections 3 and 4.4 of the
    specification: a scope has an optional absolute deadline and records the
    cause of its cancellation, absent before. *)
Record scope : Type := mkScope {
  deadline : option N;           (* absolute time, in milliseconds *)
  err : option cause
}.

(** Modelled from the spec: what happens to a scope.  [Cancel] is a call of
    its cancel function; [Clock t] is the clock reaching time [t]. *)
Inductive event : Type :=
| Cancel
| Clock (t : N).

(** Modelled from the spec: "Cancel(): idempotent, sets triggered";
    "Done(): ... becomes ready exactly once, when deadline passes or
    Cancel() is called, whichever first".  An event acts on a scope that is
    not done yet and is ignored by one that is. *)
Definition apply (e : event) (s : scope) : scope :=
  match err s with
  | Some _ => s
  | None =>
      match e with
      | Cancel => mkScope (deadline s) (Some Canceled)
      | Clock t =>
          match deadline s with
          | Some d => if (d <=? t)%N then mkScope (deadline s) (Some DeadlineExceeded)
                      else s
          | None => s
          end
      end
  end.

Definition run (evs : list event) (s : scope) : scope :=
  fold_left (fun c e => apply e c) evs s.

(** Modelled from the spec: "Err(): nil before cancellation;
    DeadlineExceeded or Cancelled after". *)
Definition Err (s : scope) : option cause := err s.

(** Modelled from the spec: whether the [Done()] signal is ready. *)
Definition Done (s : scope) : bool :=
  match err s with Some _ => true | None => false end.

(** Whether an event changes the scope it acts on. *)
Definition effective (e : event) (s : scope) : bool :=
  negb (Done s) && Done (apply e s).

(** The number of events of [evs] that changed the scope. *)
Fixpoint transitions (evs : list event) (s : scope) : nat :=
  match evs with
  | [] => 0
  | e :: rest =>
      (if effective e s then 1 else 0) + transitions rest (apply e s)
  end.

(** Modelled from the spec: [context.WithTimeout(context.Background(), d)]
    taken at time [now], and [context.WithCancel(context.Background())]. *)
Definition WithTimeout (now d : N) : scope := mkScope (Some (now + d)%N) None.
Definition WithCancel : scope := mkScope None None.

(** How [makeRequest] ends. *)
Inductive request_end : Type :=
| CompletedOK                    (* "Completed successfully" *)
| Aborted (reason : option cause)(* "ABORTED! Reason: ctx.Err()" *)
| EitherWay (reason : option cause) (* both cases ready: select picks one *)
| StillWaiting.                  (* neither case ready so far *)

(** The [select] of [makeRequest] while it waits: [fire] is the time at
    which [time.After(duration)] delivers, [timeline] lists what happens, in
    order.  After each event the case that has become ready runs; when the
    same event makes both ready, the [select] picks either. *)
Fixpoint wait (s : scope) (fire : N) (timeline : list event)
  : request_end * scope :=
  match timeline with
  | [] => (StillWaiting, s)
  | e :: rest =>
      let s' := apply e s in
      let timer := match e with
                   | Clock t => (fire <=? t)%N
                   | Cancel => false
                   end in
      match Done s', timer with
      | true, true => (EitherWay (Err s'), s')
      | true, false => (Aborted (Err s'), s')
      | false, true => (CompletedOK, s')
      | false, false => wait s' fire rest
      end
  end.

(** [func makeRequest(ctx, name, duration)], called when the clock reads
    [start]: the [select] waits for [time.After(duration)] or
    [ctx.Done()].  On entry the clock reading [start] decides which cases
    are ready already (the timer when [duration] is zero, [ctx.Done()] when
    the scope is done by then, either of the two when both are);
    [timeline] lists what happens after that, in order. *)
Definition makeRequest (s : scope) (start duration : N) (timeline : list event)
  : request_end * scope :=
  wait s (start + duration)%N (Clock start :: timeline).

(** Section 1 of [main]: a 2 s timeout around a request that needs 5 s; the
    deferred [cancel()] runs when [main] returns. *)
Definition timeout_demo : request_end * scope :=
  let ctx := WithTimeout 0%N 2000%N in
  let '(r, ctx') := makeRequest ctx 0%N 5000%N [Clock 1000%N; Clock 2000%N; Clock 5000%N] in
  (r, apply Cancel ctx').

(** Section 2 of [main]: [stop()] is called after 1 s while a request that
    needs 10 s is waiting. *)
Definition manual_cancel_demo : request_end * scope :=
  makeRequest WithCancel 0%N 10000%N [Clock 1000%N; Cancel; Clock 10000%N].

End Ctx.

(* ================================================================== *)
(** * The nil-interface trap (nil-interface demonstration) *)
(* ================================================================== *)

Module NilIface.

(** [type CustomError struct { Msg string }] *)
Record CustomError : Type := mkCustomError { Msg : string }.

(** A value of type [*CustomError]. *)
Inductive ptr : Type :=
| null
| addr (v : CustomError).

(** A value of the interface type [error]: no dynamic type and no value
    ([nil_error]), or the dynamic type [*CustomError] with a pointer, which
    may itself be the nil pointer. *)
Inductive error : Type :=
| nil_error
| dyn_CustomError (p : ptr).

(** [err == nil]: true only for the interface with no dynamic type. *)
Definition is_nil (e : error) : bool :=
  match e with
  | nil_error => true
  | dyn_CustomError _ => false
  end.

(** [func doWork(fail bool) error], "Broken version". *)
Definition doWork (fail : bool) : error :=
  if negb fail
  then let err : ptr := null in dyn_CustomError err
  else dyn_CustomError (addr (mkCustomError "work failed")).

(** [func doWorkFixed(fail bool) error], "Correct version". *)
Definition doWorkFixed (fail : bool) : error :=
  if negb fail
  then nil_error
  else dyn_CustomError (addr (mkCustomError "work failed")).

(** The lines [main] prints for a returned error:
    [if err != nil { "Error occurred" } else { "No error" }]. *)
Definition report (e : error) : string :=
  if negb (is_nil e) then "Error occurred" else "No error".

End NilIface.

(* ================================================================== *)
(** * Straight-line channel demonstrations *)
(* ================================================================== *)

Module Demo.

(** Section 2 of the channels file: [queue := make(chan string, 2)], two
    sends, two receives.  The result lists the values read. *)
Definition buffered_queue : outcome (list string) :=
  match Chan.send "Job 1" (Chan.make 2) with
  | Completed q1 =>
      match Chan.send "Job 2" q1 with
      | Completed q2 =>
          match Chan.recv q2 with
          | Completed (Some a, q3) =>
              match Chan.recv q3 with
              | Completed (Some b, _) => Completed [a; b]
              | Completed (None, _) => Completed [a; ""]
              | Blocked => Blocked
              | Panics m => Panics m
              end
          | Completed (None, _) => Completed [""]
          | Blocked => Blocked
          | Panics m => Panics m
          end
      | Blocked => Blocked
      | Panics m => Panics m
      end
  | Blocked => Blocked
  | Panics m => Panics m
  end.

(** The channel of that section after its two sends. *)
Definition full_queue : Chan.chan string :=
  Chan.sends ["Job 1"; "Job 2"] (Chan.make 2).

(** Section 4 of the select file: [queue := make(chan int, 1)] and two
    non-blocking writes.  The result is the lines printed and the channel. *)
Definition nonblocking_writes : outcome (list string * Chan.chan Z) :=
  let line (ok : bool) := if ok then "Enqueued job" else "Queue full, dropping job" in
  match Chan.try_send 1%Z (Chan.make 1) with
  | Completed (ok1, q1) =>
      match Chan.try_send 2%Z q1 with
      | Completed (ok2, q2) => Completed ([line ok1; line ok2], q2)
      | Blocked => Blocked
      | Panics m => Panics m
      end
  | Blocked => Blocked
  | Panics m => Panics m
  end.

End Demo.

(* ================================================================== *)
(** * Executions of a step relation *)
(* ================================================================== *)

Section Executions.
Variable state : Type.
Variable step : state -> state -> Prop.

(** [steps n s s']: an execution of [n] steps leads from [s] to [s']. *)
Inductive steps : nat -> state -> state -> Prop :=
| steps_O : forall s, steps 0 s s
| steps_S : forall n s s' s'', step s s' -> steps n s' s'' -> steps (S n) s s''.

End Executions.

(* ================================================================== *)
(** * Stub and fake stores (package fakesandstubs) *)
(* ================================================================== *)

Module Fakes.

(** A value of type [error]: [nil], or the error made by
    [errors.New(msg)]. *)
Definition error : Type := option string.

(** How a method call ends: it returns, or it panics with a message. *)
Inductive call (A : Type) : Type :=
| Returned (a : A)
| Panicked (msg : string).

Arguments Returned {A} a.
Arguments Panicked {A} msg.

(** [type Store interface { Get(key string) (string, error);
                            Set(key, value string) error }].
    The methods have pointer receivers: [Set_] also gives the store as the
    call leaves it ([Set] is a reserved word here). *)
Class Store (S : Type) : Type := {
  Get : S -> string -> string * error;
  Set_ : S -> string -> string -> call (S * error)
}.

(** [type StubStore struct { value string; err error }] *)
Record StubStore : Type := mkStubStore {
  value : string;
  err : error
}.

(** [func (s *StubStore) Get(key string) (string, error)] and
    [func (s *StubStore) Set(key, value string) error] *)
#[global] Instance StubStore_Store : Store StubStore := {|
  Get s key := (value s, err s);
  Set_ s key v := Returned (s, err s)
|}.

(** The entries of a [map[string]string]: at most one per key. *)
Definition smap : Type := list (string * string).

(** [val, ok := m[key]] *)
Fixpoint lookup (key : string) (m : smap) : option string :=
  match m with
  | [] => None
  | (k, v) :: rest => if String.eqb key k then Some v else lookup key rest
  end.

(** [m[key] = value]: replaces the entry of [key] when there is one. *)
Fixpoint insert (key val : string) (m : smap) : smap :=
  match m with
  | [] => [(key, val)]
  | (k, v) :: rest =>
      if String.eqb key k then (key, val) :: rest
      else (k, v) :: insert key val rest
  end.

(** [type FakeStore struct { data map[string]string }].  [None] is the nil
    map, which the field holds in [&FakeStore{}]; [Some m] is a map made by
    [make]. *)
Record FakeStore : Type := mkFakeStore {
  data : option smap
}.

(** [func NewFakeStore() *FakeStore]: [data: make(map[string]string)] *)
Definition NewFakeStore : FakeStore := mkFakeStore (Some []).

(** [func (f *FakeStore) Get(key string) (string, error)] and
    [func (f *FakeStore) Set(key, value string) error].  Reading the nil
    map finds no entry; assigning to an entry of the nil map panics. *)
#[global] Instance FakeStore_Store : Store FakeStore := {|
  Get f key :=
    match data f with
    | None => ("", Some "not found")
    | Some m =>
        match lookup key m with
        | None => ("", Some "not found")
        | Some val => (val, None)
        end
    end;
  Set_ f key v :=
    match data f with
    | None => Panicked "assignment to entry in nil map"
    | Some m => Returned (mkFakeStore (Some (insert key v m)), None)
    end
|}.

(** [type Service struct { store Store }] *)
Record Service (S : Type) : Type := mkService {
  store : S
}.

Arguments mkService {S} store.
Arguments store {S} s.

(** [func NewService(store Store) *Service] *)
Definition NewService {S : Type} (st : S) : Service S := mkService st.

(** [func (s *Service) SaveUser(id, name string) error] *)
Definition SaveUser {S : Type} `{Store S} (s : Service S) (id name : string)
  : call (Service S * error) :=
  if String.eqb id "" then Returned (s, Some "empty id")
  else
    match Set_ (store s) id name with
    | Returned (st, e) => Returned (mkService st, e)
    | Panicked msg => Panicked msg
    end.

(** [func (s *Service) LoadUser(id string) (string, error)] *)
Definition LoadUser {S : Type} `{Store S} (s : Service S) (id : string)
  : string * error :=
  Get (store s) id.

(** A sequence of [SaveUser] calls, given as (id, name) pairs in call
    order; the errors returned are discarded, a panic ends the sequence. *)
Fixpoint save_all {S : Type} `{Store S} (calls : list (string * string))
  (s : Service S) : call (Service S) :=
  match calls with
  | [] => Returned s
  | c :: rest =>
      match SaveUser s (fst c) (snd c) with
      | Returned (s', _) => save_all rest s'
      | Panicked msg => Panicked msg
      end
  end.

(** The name given by the last call of [calls] that has the identifier
    [id]. *)
Definition last_saved (id : string) (calls : list (string * string))
  : option string :=
  option_map snd (find (fun c => String.eqb id (fst c)) (rev calls)).

(** How a test function ends: it returns, [t.Fatalf(format, args...)]
    stops it, or it panics. *)
Inductive test_result : Type :=
| Pass
| Fatal (format : string) (args : list string)
| TestPanicked (msg : string).

(** [func TestService_WithStub(t *testing.T)] *)
Definition TestService_WithStub : test_result :=
  let stub := mkStubStore "" (Some "database down") in
  let service := NewService stub in
  match SaveUser service "1" "alice" with
  | Panicked msg => TestPanicked msg
  | Returned (_, None) => Fatal "expected error, got nil" []
  | Returned (_, Some _) => Pass
  end.

(** [func TestService_WithFake(t *testing.T)] *)
Definition TestService_WithFake : test_result :=
  let fake := NewFakeStore in
  let service := NewService fake in
  match SaveUser service "1" "alice" with
  | Panicked msg => TestPanicked msg
  | Returned (_, Some msg) => Fatal "unexpected error: %v" [msg]
  | Returned (service, None) =>
      let '(name, e) := LoadUser service "1" in
      match e with
      | Some msg => Fatal "unexpected error: %v" [msg]
      | None =>
          if String.eqb name "alice" then Pass
          else Fatal "LoadUser returned %q; want %q" [name; "alice"]
      end
  end.

End Fakes.

(* ================================================================== *)
(** * Non-blocking reads and the stop signal (select demonstration) *)
(* ================================================================== *)

Module Select.

(** What [select { case msg := <-ch: ...; default: ... }] finds: a value,
    the zero value of a closed and empty channel, or nothing ready (the
    default case runs). *)
Inductive polled (A : Type) : Type :=
| Got (x : A)
| GotZero
| NotReady.

Arguments Got {A} x.
Arguments GotZero {A}.
Arguments NotReady {A}.

(** The non-blocking read: the receive case runs when the receive can
    proceed, the default case otherwise. *)
Definition try_recv {A : Type} (ch : Chan.chan A) : polled A * Chan.chan A :=
  match Chan.recv ch with
  | Completed (Some x, ch') => (Got x, ch')
  | Completed (None, ch') => (GotZero, ch')
  | Blocked => (NotReady, ch)
  | Panics _ => (NotReady, ch)
  end.

(** [n] non-blocking reads in a row, with what each one finds. *)
Fixpoint polls {A : Type} (n : nat) (ch : Chan.chan A)
  : list (polled A) * Chan.chan A :=
  match n with
  | O => ([], ch)
  | S n' =>
      let '(p, ch') := try_recv ch in
      let '(ps, ch'') := polls n' ch' in
      (p :: ps, ch'')
  end.

(** The line each read of section 3 prints. *)
Definition read_line (p : polled string) : string :=
  match p with
  | Got msg => "Received: " ++ msg
  | GotZero => "Received: "
  | NotReady => "No messages available"
  end.

(** Section 3 of [main]: [messages := make(chan string, 1)], one send, two
    non-blocking reads.  The result is the lines printed. *)
Definition nonblocking_reads : outcome (list string) :=
  match Chan.send "Hello" (Chan.make 1) with
  | Completed messages =>
      let '(ps, _) := polls 2 messages in
      Completed (map read_line ps)
  | Blocked => Blocked
  | Panics m => Panics m
  end.

(** Section 5 of [main], the stop signal: a goroutine closes [stopCh];
    [main] polls it in a loop and counts its rounds of work in [work]. *)
Record state : Type := mkState {
  stopCh : Chan.chan unit;
  closer_done : bool;            (* the goroutine has run [close(stopCh)] *)
  work : nat;
  lines : list string;
  returned : bool                (* [main] has returned *)
}.

Inductive agent : Type :=
| Closer
| Loop.

Definition init : state := mkState (Chan.make 0) false 0 [] false.

Definition working (n : nat) : string := "Working... " ++ dec n.

Definition stop_line : string := "Stop signal received. Shutting down.".

Definition step_fn (a : agent) (s : state) : outcome state :=
  if returned s then Blocked
  else
    match a with
    | Closer =>
        if closer_done s then Blocked
        else
          match Chan.close (stopCh s) with
          | Completed c =>
              Completed (mkState c true (work s) (lines s) false)
          | Blocked => Blocked
          | Panics m => Panics m
          end
    | Loop =>
        match try_recv (stopCh s) with
        | (NotReady, _) =>
            (* default: work++; fmt.Println("Working...", work) *)
            Completed (mkState (stopCh s) (closer_done s) (S (work s))
                               (lines s ++ [working (S (work s))]) false)
        | (_, c) =>
            (* case <-stopCh: ...; return *)
            Completed (mkState c (closer_done s) (work s)
                               (lines s ++ [stop_line]) true)
        end
    end.

Definition step (s s' : state) : Prop :=
  exists a, step_fn a s = Completed s'.

Inductive reachable : state -> Prop :=
| reach_init : reachable init
| reach_step : forall s s', reachable s -> step s s' -> reachable s'.

End Select.

(* ================================================================== *)
(** * Method calls through a nil pointer (nil-interface demonstration) *)
(* ================================================================== *)

Module NilCalls.

(** [func (e *CustomError) Error() string { return e.Msg }]: reading
    [e.Msg] through the nil pointer panics. *)
Definition CustomError_Error (p : NilIface.ptr) : outcome string :=
  match p with
  | NilIface.null => Panics "invalid memory address or nil pointer dereference"
  | NilIface.addr v => Completed (NilIface.Msg v)
  end.

(** [err.Error()]: the method of the dynamic type; the nil interface has
    none and the call panics. *)
Definition Error (e : NilIface.error) : outcome string :=
  match e with
  | NilIface.nil_error => Panics "invalid memory address or nil pointer dereference"
  | NilIface.dyn_CustomError p => CustomError_Error p
  end.

(** The check of [checkNilInterface]: the type assertion of [err] to
    [*CustomError] succeeds and gives the nil pointer. *)
Definition holds_nil_CustomError (e : NilIface.error) : bool :=
  match e with
  | NilIface.dyn_CustomError NilIface.null => true
  | _ => false
  end.

(** [func checkNilInterface()]: the lines it prints. *)
Definition checkNilInterface : list string :=
  let ce : NilIface.ptr := NilIface.null in
  let err := NilIface.dyn_CustomError ce in
  (("err == nil: " ++ (if NilIface.is_nil err then "true" else "false"))%string)
  :: (if negb (NilIface.is_nil err)
      then if holds_nil_CustomError err
           then ["Interface holds nil *CustomError"]
           else []
      else []).

End NilCalls.

(* ================================================================== *)
(** * Deferred calls of a function (defer and panic demonstration) *)
(* ================================================================== *)

Module Defer.

Import GoPanic.

(** A deferred call. *)
Inductive deferred : Type :=
| DPrintln (line : string)
    (* defer fmt.Println(...): the arguments are evaluated at the defer
       statement *)
| DCall (f : Exec unit)
    (* defer f(...) *)
| DRecover (handler : pvalue -> Exec unit).
    (* defer func() { if r := recover(); r != nil { handler } }() *)

(** The statements of a function body. *)
Inductive stmt : Type :=
| Println (line : string)
| Defer (d : deferred)
| Call (f : Exec unit)
| Panic (v : pvalue).

(** The deferred calls of a function that ends with [e], the most recent
    first.  A deferred call runs whether the function returns or panics; a
    [recover] stops the panic in progress; a deferred call that panics
    replaces the ending. *)
Fixpoint unwind (ds : list deferred) (e : ending unit) (o : list string)
  : ending unit * list string :=
  match ds with
  | [] => (e, o)
  | DPrintln line :: rest => unwind rest e (o ++ [line])%list
  | DCall f :: rest =>
      match f o with
      | (Returns _, o') => unwind rest e o'
      | (Panicking v, o') => unwind rest (Panicking v) o'
      end
  | DRecover handler :: rest =>
      match e with
      | Returns _ => unwind rest e o
      | Panicking v =>
          match handler v o with
          | (Returns _, o') => unwind rest (Returns tt) o'
          | (Panicking v', o') => unwind rest (Panicking v') o'
          end
      end
  end.

(** The statements [body] of a function whose deferred calls so far are
    [ds], the most recent first. *)
Fixpoint exec (body : list stmt) (ds : list deferred) (o : list string)
  : ending unit * list string :=
  match body with
  | [] => unwind ds (Returns tt) o
  | Println line :: rest => exec rest ds (o ++ [line])%list
  | Defer d :: rest => exec rest (d :: ds) o
  | Call f :: rest =>
      match f o with
      | (Returns _, o') => exec rest ds o'
      | (Panicking v, o') => unwind ds (Panicking v) o'
      end
  | Panic v :: rest => unwind ds (Panicking v) o
  end.

(** A function with the body [body]. *)
Definition func (body : list stmt) : Exec unit := exec body [].

(** [func closeFile(f *os.File)]: the results of [f.Close()] and
    [os.Remove] are discarded. *)
Definition closeFile : Exec unit :=
  println "3. Defer Triggered: Closing file now.".

(** [func namedReturn() (result int)]: [return 5] stores 5 in [result], the
    deferred function then adds 10 to it, and the caller gets [result]. *)
Definition namedReturn : Z :=
  let result := 5%Z in
  let result := Int64.wrap (result + 10) in
  result.

(** [%T] of a panic value. *)
Definition type_of (v : pvalue) : string :=
  match v with
  | PString _ => "string"
  | PInt _ => "int"
  end.

(** The anonymous function of section 10: two deferred prints and a panic
    that nothing recovers. *)
Definition defers_during_panic : list stmt :=
  [Defer (DPrintln "Deferred 1");
   Defer (DPrintln "Deferred 2");
   Panic (PString "boom")].

(** [for i := 0; i < n; i++ { defer fmt.Println("Deferred loop value:", i) }]
    ([n] is 3 in the source). *)
Definition defer_loop (n : nat) : list stmt :=
  map (fun i => Defer (DPrintln ("Deferred loop value: " ++ dec i))) (seq 0 n).

(** [func main()].  [create_err] is the error of [os.Create("test.txt")],
    if any.  The line written to the file is not part of the output, and
    the empty line that starts a section title is left out. *)
Definition main (create_err : option string) : Exec unit :=
  func
    (Println "1. Opening a file..." ::
     match create_err with
     | Some e => [Panic (PString e)]
     | None =>
         [Defer (DCall closeFile);
          Println "2. Writing data...";
          Println "--- Stacked Defers ---";
          Defer (DPrintln "Cleanup Step 1 (Runs Last)");
          Defer (DPrintln "Cleanup Step 2 (Runs Second)");
          Defer (DPrintln "Cleanup Step 3 (Runs First)");
          Println "--- Panic Protection ---";
          Call safeExecute;
          Println "4. Main function continues... Program did not crash!";
          Println "--- Defer Argument Evaluation ---"]
         ++ (let x := 10%Z in
             Defer (DPrintln ("Deferred x = " ++ show (PInt x))) ::
             let x := 20%Z in
             [Println ("Current x = " ++ show (PInt x))])
         ++ [Println "--- Defer Inside Loop ---"]
         ++ defer_loop 3
         ++ [Println "--- recover() Scope ---";
             Call (func [Defer (DRecover (fun r =>
                                  println ("Recovered panic: " ++ show r)));
                         Panic (PString "panic inside anonymous function")]);
             Println "--- recover() and Goroutines ---";
             Println "Panics must be recovered in the SAME goroutine";
             Println "--- Defers During Panic ---";
             Call (func defers_during_panic);
             Println "--- Named Return + Defer ---";
             Println ("Result: " ++ show (PInt namedReturn));
             Println "--- Panic Value Types ---";
             Call (func [Defer (DRecover (fun r =>
                                  println ("Recovered type: " ++ type_of r
                                           ++ ", value: " ++ show r)));
                         Panic (PInt 404)]);
             Println "--- Re-Panic Pattern ---";
             Call (func [Defer (DRecover (fun r =>
                                  println ("Logging panic: " ++ show r) ;;
                                  panic r));
                         Panic (PString "fatal error")])]
     end)%list.

End Defer.

(* ================================================================== *)
(** * The counter under concurrent increments (concurrency tests) *)
(* ================================================================== *)

Module Counter.

(** Where a goroutine of the test stands: at the head of its loop with [j]
    increments done (about to call [Inc], whose first action is
    [c.mu.Lock()], or, past the loop, to run the deferred [wg.Done()]);
    inside [Inc] with the mutex held, about to read [c.value]; about to
    store the value read plus one; about to run the deferred
    [c.mu.Unlock()]; or returned. *)
Inductive g_pc : Type :=
| AtLoop (j : nat)
| Locked (j : nat)
| Loaded (j : nat) (r : Z)
| Stored (j : nat)
| Exited.

(** Where the test function stands: about to start goroutine [i]
    ([wg.Add(1); go func() {...}()]), at [wg.Wait()], at
    [counter.Value() != expected], returned, or stopped by [t.Fatalf]. *)
Inductive main_pc : Type :=
| Spawning (i : nat)
| AtWait
| AtValue
| Passed
| Failed (got : Z).

Record state : Type := mkState {
  main : main_pc;
  mu : bool;                     (* [c.mu] is locked *)
  value : Z;                     (* [c.value] *)
  wg : nat;                      (* the counter of the WaitGroup *)
  gs : list g_pc
}.

Inductive agent : Type :=
| Main
| G (k : nat).

Section Program.
  (** [numGoroutines := 100] and [incrementsPerG := 10] in the source. *)
Variables numGoroutines incrementsPerG : nat.

(** [expected := numGoroutines * incrementsPerG] *)
Definition expected : Z :=
  Int64.mul (Z.of_nat numGoroutines) (Z.of_nat incrementsPerG).

(** [counter := &Counter{}], [var wg sync.WaitGroup]. *)
Definition init : state := mkState (Spawning 0) false 0%Z 0 [].

Definition step_main (s : state) : outcome state :=
  match main s with
  | Spawning i =>
      if i <? numGoroutines
      then Completed (mkState (Spawning (S i)) (mu s) (value s) (S (wg s))
                              (gs s ++ [AtLoop 0]))
      else Completed (mkState AtWait (mu s) (value s) (wg s) (gs s))
  | AtWait =>
      if wg s =? 0
      then Completed (mkState AtValue (mu s) (value s) (wg s) (gs s))
      else Blocked
  | AtValue =>
      (* Value(): Lock, read, Unlock; then the comparison *)
      if mu s then Blocked
      else if (value s =? expected)%Z
           then Completed (mkState Passed false (value s) (wg s) (gs s))
           else Completed (mkState (Failed (value s)) false (value s) (wg s) (gs s))
  | Passed => Blocked
  | Failed _ => Blocked
  end.

Definition step_g (k : nat) (s : state) : outcome state :=
  match nth_error (gs s) k with
  | None => Blocked
  | Some (AtLoop j) =>
      if j <? incrementsPerG
      then (* c.mu.Lock() *)
        if mu s then Blocked
        else Completed (mkState (main s) true (value s) (wg s)
                                (update k (Locked j) (gs s)))
      else (* wg.Done() *)
        match wg s with
        | O => Panics "sync: negative WaitGroup counter"
        | S n => Completed (mkState (main s) (mu s) (value s) n
                                    (update k Exited (gs s)))
        end
  | Some (Locked j) =>
      Completed (mkState (main s) (mu s) (value s) (wg s)
                         (update k (Loaded j (value s)) (gs s)))
  | Some (Loaded j r) =>
      Completed (mkState (main s) (mu s) (Int64.wrap (r + 1)) (wg s)
                         (update k (Stored j) (gs s)))
  | Some (Stored j) =>
      (* c.mu.Unlock() *)
      if mu s
      then Completed (mkState (main s) false (value s) (wg s)
                              (update k (AtLoop (S j)) (gs s)))
      else Panics "sync: unlock of unlocked mutex"
  | Some Exited => Blocked
  end.

(** One operation of one goroutine; nothing runs once the test function
    has ended. *)
Definition step_fn (a : agent) (s : state) : outcome state :=
  match main s with
  | Passed => Blocked
  | Failed _ => Blocked
  | _ =>
      match a with
      | Main => step_main s
      | G k => step_g k s
      end
  end.

Definition step (s s' : state) : Prop :=
  exists a, step_fn a s = Completed s'.

Inductive reachable : state -> Prop :=
| reach_init : reachable init
| reach_step : forall s s', reachable s -> step s s' -> reachable s'.

Fixpoint run (sched : list agent) (s : state) : state * option string :=
  match sched with
  | [] => (s, None)
  | a :: rest =>
      match step_fn a s with
      | Completed s' => run rest s'
      | Blocked => run rest s
      | Panics m => (s, Some m)
      end
  end.

(** Whether a goroutine is between [Lock] and [Unlock]. *)
Definition in_critical (g : g_pc) : bool :=
  match g with
  | Locked _ | Loaded _ _ | Stored _ => true
  | _ => false
  end.

(** The increments a goroutine has stored so far. *)
Definition done_of (g : g_pc) : nat :=
  match g with
  | AtLoop j | Locked j | Loaded j _ => j
  | Stored j => S j
  | Exited => incrementsPerG
  end.

Definition live (g : g_pc) : bool :=
  match g with Exited => false | _ => true end.

(** The steps a goroutine can still take, at most. *)
Definition steps_left (g : g_pc) : nat :=
  match g with
  | AtLoop j => 4 * (incrementsPerG - j) + 1
  | Locked j => 4 * (incrementsPerG - S j) + 4
  | Loaded j _ => 4 * (incrementsPerG - S j) + 3
  | Stored j => 4 * (incrementsPerG - S j) + 2
  | Exited => 0
  end.

Definition measure (s : state) : nat :=
  match main s with
  | Spawning i => (numGoroutines - i) * (4 * incrementsPerG + 2) + 3
  | AtWait => 2
  | AtValue => 1
  | _ => 0
  end
  + list_sum (map steps_left (gs s)).

(** The invariant of the test: the mutex is locked exactly when one
    goroutine is between [Lock] and [Unlock], and there is never more than
    one; a goroutine that has read [c.value] holds the current value; the
    counter is the number of increments stored; the WaitGroup counts the
    goroutines that have not returned. *)
Record inv (s : state) : Prop := mkInv {
  inv_mutex :
    list_sum (map (fun g => if in_critical g then 1 else 0) (gs s))
    = if mu s then 1 else 0;
  inv_loaded :
    forall k j r, nth_error (gs s) k = Some (Loaded j r) -> r = value s;
  inv_value :
    value s = Int64.wrap (Z.of_nat (list_sum (map done_of (gs s))));
  inv_wg :
    wg s = list_sum (map (fun g => if live g then 1 else 0) (gs s));
  inv_bounds :
    forall k g, nth_error (gs s) k = Some g ->
                match g with
                | AtLoop j => j <= incrementsPerG
                | Locked j | Loaded j _ | Stored j => j < incrementsPerG
                | Exited => True
                end;
  inv_main :
    match main s with
    | Spawning i => length (gs s) = i /\ i <= numGoroutines
    | AtWait => length (gs s) = numGoroutines
    | AtValue | Passed =>
        length (gs s) = numGoroutines /\ wg s = 0
    | Failed _ => False
    end
}.

End Program.

(** A round-robin schedule for [n] goroutines. *)
Definition round_robin (n rounds : nat) : list agent :=
  concat (repeat (Main :: map G (seq 0 n)) rounds).

(** The test with 3 goroutines of 2 increments each. *)
Definition small_run : state * option string :=
  run 3 2 (round_robin 3 40) init.

End Counter.

(* ################################################################## *)
(** * Properties *)
(* ################################################################## *)

(* ================================================================== *)
(** ** Buffered channels *)
(* ================================================================== *)

Section ChanFacts.
Variable A : Type.
Implicit Types (ch : Chan.chan A) (x : A).

Lemma send_completed x ch ch' :
    Chan.send x ch = Completed ch' ->
    Chan.closed ch = false /\ Chan.len ch < Chan.cap ch /\
    ch' = Chan.mk (Chan.buf ch ++ [x]) (Chan.cap ch) false.
  Proof.
    unfold Chan.send. destruct (Chan.closed ch); [discriminate|].
    destruct (Nat.ltb_spec (Chan.len ch) (Chan.cap ch)); [|discriminate].
    intros [= <-]. auto.
  Qed.

Lemma send_open x ch :
    Chan.closed ch = false -> Chan.len ch < Chan.cap ch ->
    Chan.send x ch = Completed (Chan.mk (Chan.buf ch ++ [x]) (Chan.cap ch) false).
  Proof.
    intros Ho Hl. unfold Chan.send. rewrite Ho.
    apply Nat.ltb_lt in Hl. now rewrite Hl.
  Qed.

Lemma send_full x ch :
    Chan.closed ch = false -> Chan.cap ch <= Chan.len ch ->
    Chan.send x ch = Blocked.
  Proof.
    intros Ho Hl. unfold Chan.send. rewrite Ho.
    apply Nat.ltb_ge in Hl. now rewrite Hl.
  Qed.

Lemma send_closed x ch :
    Chan.closed ch = true -> Chan.send x ch = Panics "send on closed channel".
  Proof. intros Hc. unfold Chan.send. now rewrite Hc. Qed.

Lemma recv_some ch y ch' :
    Chan.recv ch = Completed (Some y, ch') ->
    Chan.buf ch = y :: Chan.buf ch' /\ Chan.cap ch' = Chan.cap ch /\
    Chan.closed ch' = Chan.closed ch.
  Proof.
    unfold Chan.recv. destruct ch as [b c cl]; simpl.
    destruct b as [|h t].
    - destruct cl; discriminate.
    - intros [= <- <-]. auto.
  Qed.

Lemma recv_none ch ch' :
    Chan.recv ch = Completed (None, ch') ->
    Chan.buf ch = [] /\ Chan.closed ch = true /\ ch' = ch.
  Proof.
    unfold Chan.recv. destruct ch as [b c cl]; simpl.
    destruct b as [|h t]; [|discriminate].
    destruct cl; [|discriminate]. intros [= <-]. auto.
  Qed.

Lemma recv_never_panics ch m : Chan.recv ch <> Panics m.
  Proof.
    unfold Chan.recv. destruct (Chan.buf ch); [|discriminate].
    destruct (Chan.closed ch); discriminate.
  Qed.

Lemma close_completed ch ch' :
    Chan.close ch = Completed ch' ->
    Chan.closed ch = false /\
    ch' = Chan.mk (Chan.buf ch) (Chan.cap ch) true.
  Proof.
    unfold Chan.close. destruct (Chan.closed ch); [discriminate|].
    intros [= <-]. auto.
  Qed.

  (** Every operation keeps the capacity and the bound on the buffer. *)
Lemma apply_op_bounded (o : Chan.op A) ch :
    Chan.len ch <= Chan.cap ch ->
    Chan.cap (Chan.apply_op o ch) = Chan.cap ch /\
    Chan.len (Chan.apply_op o ch) <= Chan.cap ch.
  Proof.
    intros Hb. destruct o as [x| |]; simpl.
    - destruct (Chan.send x ch) as [ch'| |m] eqn:E; auto.
      apply send_completed in E as (_ & Hlt & ->). unfold Chan.len in *; simpl.
      rewrite length_app; simpl. split; [reflexivity|lia].
    - destruct (Chan.recv ch) as [[[y|] ch']| |m] eqn:E; auto.
      + apply recv_some in E as (Hbuf & Hcap & _).
        unfold Chan.len in *. rewrite Hbuf in Hb; simpl in Hb. split; [assumption|lia].
      + apply recv_none in E as (_ & _ & ->). auto.
    - destruct (Chan.close ch) as [ch'| |m] eqn:E; auto.
      apply close_completed in E as (_ & ->). auto.
  Qed.

Lemma run_ops_bounded (ops : list (Chan.op A)) ch :
    Chan.len ch <= Chan.cap ch ->
    Chan.cap (Chan.run_ops ops ch) = Chan.cap ch /\
    Chan.len (Chan.run_ops ops ch) <= Chan.cap ch.
  Proof.
    revert ch. induction ops as [|o ops IH]; intros ch Hb; simpl; [auto|].
    destruct (apply_op_bounded o ch Hb) as [Hc Hl].
    unfold Chan.run_ops in *. simpl.
    destruct (IH (Chan.apply_op o ch)) as [Hc' Hl']; [lia|].
    rewrite Hc' , Hc in *. auto.
  Qed.

  (** The values sent are the values received followed by the buffer. *)
Lemma trace_op_fifo (o : Chan.op A) (t : Chan.trace A) :
    Chan.sent t = (Chan.rcvd t ++ Chan.buf (Chan.tr_chan t))%list ->
    Chan.sent (Chan.trace_op o t)
    = (Chan.rcvd (Chan.trace_op o t) ++ Chan.buf (Chan.tr_chan (Chan.trace_op o t)))%list.
  Proof.
    intros H. destruct o as [x| |]; simpl.
    - destruct (Chan.send x (Chan.tr_chan t)) as [ch'| |m] eqn:E; auto.
      apply send_completed in E as (_ & _ & ->). simpl.
      rewrite H. now rewrite app_assoc.
    - destruct (Chan.recv (Chan.tr_chan t)) as [[[y|] ch']| |m] eqn:E; auto.
      + apply recv_some in E as (Hbuf & _ & _). simpl.
        rewrite H, Hbuf. now rewrite <- app_assoc.
      + apply recv_none in E as (_ & _ & ->). simpl. assumption.
    - destruct (Chan.close (Chan.tr_chan t)) as [ch'| |m] eqn:E; auto.
      apply close_completed in E as (_ & ->). simpl. assumption.
  Qed.

Lemma fold_trace_fifo (ops : list (Chan.op A)) (t : Chan.trace A) :
    Chan.sent t = (Chan.rcvd t ++ Chan.buf (Chan.tr_chan t))%list ->
    let t' := fold_left (fun t o => Chan.trace_op o t) ops t in
    Chan.sent t' = (Chan.rcvd t' ++ Chan.buf (Chan.tr_chan t'))%list.
  Proof.
    revert t. induction ops as [|o ops IH]; intros t H; simpl; [assumption|].
    apply IH. now apply trace_op_fifo.
  Qed.

  (** Sends that fit in the free slots all complete, in order. *)
Lemma sends_fit (xs : list A) ch :
    Chan.closed ch = false ->
    Chan.len ch + length xs <= Chan.cap ch ->
    Chan.sends xs ch = Chan.mk (Chan.buf ch ++ xs) (Chan.cap ch) false.
  Proof.
    revert ch. induction xs as [|x xs IH]; intros ch Ho Hl.
    - unfold Chan.sends, Chan.run_ops; simpl. rewrite app_nil_r.
      destruct ch; simpl in *; subst; reflexivity.
    - unfold Chan.sends, Chan.run_ops in *. simpl in *.
      rewrite send_open by (assumption || lia).
      rewrite IH; simpl; try reflexivity.
      + now rewrite <- app_assoc.
      + unfold Chan.len in *; simpl. rewrite length_app; simpl. lia.
  Qed.

  (** Receives hand out the buffer from its head. *)
Lemma drain_buf (b : list A) (c : nat) (cl : bool) :
    Chan.drain (length b) (Chan.mk b c cl) = b.
  Proof.
    induction b as [|y b IH]; simpl; [reflexivity|].
    unfold Chan.recv; simpl. now rewrite IH.
  Qed.

Lemma range_loop_closed (b : list A) (c : nat) :
    Chan.range_loop (S (length b)) (Chan.mk b c true) = Some b.
  Proof.
    induction b as [|y b IH]; [reflexivity|].
    change (Chan.range_loop (S (length (y :: b))) (Chan.mk (y :: b) c true))
      with (option_map (cons y)
              (Chan.range_loop (S (length b)) (Chan.mk b c true))).
    now rewrite IH.
  Qed.

End ChanFacts.

(* ================================================================== *)
(** ** Lists updated in place *)
(* ================================================================== *)

Section UpdateFacts.
Variables A B : Type.

Lemma update_length (k : nat) (v : A) (l : list A) :
    length (update k v l) = length l.
  Proof.
    revert k. induction l as [|h t IH]; intros [|k]; simpl; auto.
  Qed.

Lemma nth_error_update_other (k k' : nat) (v : A) (l : list A) :
    k <> k' -> nth_error (update k v l) k' = nth_error l k'.
  Proof.
    revert k k'. induction l as [|h t IH]; intros [|k] [|k'] Hne; simpl; auto;
      congruence.
  Qed.

Lemma nth_error_update_same (k : nat) (v : A) (l : list A) :
    k < length l -> nth_error (update k v l) k = Some v.
  Proof.
    revert k. induction l as [|h t IH]; intros [|k] Hlt; simpl in *; try lia; auto.
    apply IH. lia.
  Qed.

  (** Replacing [old] by [v] moves their images in and out of a
      [flat_map]. *)
Lemma flat_map_update (f : A -> list B) (k : nat) (v old : A) (l : list A) :
    nth_error l k = Some old ->
    Permutation (f old ++ flat_map f (update k v l)) (f v ++ flat_map f l).
  Proof.
    revert k. induction l as [|h t IH]; intros [|k] Hk; simpl in *; try discriminate.
    - injection Hk as ->. apply Permutation_app_swap_app.
    - specialize (IH k Hk).
      rewrite (Permutation_app_swap_app (f old) (f h)).
      rewrite (Permutation_app_swap_app (f v) (f h)).
      now apply Permutation_app_head.
  Qed.

Lemma flat_map_update_same (f : A -> list B) (k : nat) (v old : A) (l : list A) :
    nth_error l k = Some old -> f v = f old ->
    flat_map f (update k v l) = flat_map f l.
  Proof.
    revert k. induction l as [|h t IH]; intros [|k] Hk Hf; simpl in *; try discriminate.
    - injection Hk as ->. now rewrite Hf.
    - f_equal. now apply IH.
  Qed.

Lemma filter_update (p : A -> bool) (k : nat) (v old : A) (l : list A) :
    nth_error l k = Some old ->
    length (filter p (update k v l)) + (if p old then 1 else 0)
    = length (filter p l) + (if p v then 1 else 0).
  Proof.
    revert k. induction l as [|h t IH]; intros [|k] Hk; simpl in *; try discriminate.
    - injection Hk as ->. destruct (p old), (p v); simpl; lia.
    - specialize (IH k Hk). destruct (p h); simpl; lia.
  Qed.

Lemma flat_map_nil_inv (f : A -> list B) (l : list A) (k : nat) (a : A) :
    flat_map f l = [] -> nth_error l k = Some a -> f a = [].
  Proof.
    revert k. induction l as [|h t IH]; intros [|k] Hn Hk; simpl in *; try discriminate.
    - injection Hk as ->. now apply app_eq_nil in Hn.
    - apply app_eq_nil in Hn as [_ Hn]. eauto.
  Qed.

Lemma flat_map_cons_inv (f : A -> list B) (l : list A) :
    flat_map f l <> [] -> exists k a, nth_error l k = Some a /\ f a <> [].
  Proof.
    induction l as [|h t IH]; simpl; intros Hn; [congruence|].
    destruct (f h) as [|b bs] eqn:E.
    - destruct (IH Hn) as (k & a & Hk & Ha). exists (S k), a. auto.
    - exists 0, h. split; [reflexivity|congruence].
  Qed.

End UpdateFacts.

(* ================================================================== *)
(** ** The worker pool *)
(* ================================================================== *)

Lemma recv_some_eq (A : Type) (ch ch' : Chan.chan A) (y : A) :
  Chan.recv ch = Completed (Some y, ch') ->
  exists rest, Chan.buf ch = y :: rest /\
               ch' = Chan.mk rest (Chan.cap ch) (Chan.closed ch).
Proof.
  unfold Chan.recv. destruct (Chan.buf ch) as [|h t] eqn:E.
  - destruct (Chan.closed ch); discriminate.
  - intros [= <- <-]. eauto.
Qed.

Section PoolFacts.
Variables nW nJ : nat.
Variable work : Pool.Job -> option string.

Local Abbreviation step_fn := (Pool.step_fn nW nJ work).
Local Abbreviation step := (Pool.step nW nJ work).
Local Abbreviation trans := (Pool.trans nW nJ work).
Local Abbreviation reachable := (Pool.reachable nW nJ work).
Local Abbreviation inv := (Pool.inv nW nJ).
Local Abbreviation init := (Pool.init nJ).

  (** [trans] is exactly the successful steps of [step_fn]. *)
Lemma step_trans a s s' : step_fn a s = Completed s' -> trans s s'.
  Proof.
    destruct s as [m jq rq ws o]. unfold Pool.step_fn; simpl.
    destruct a as [|k].
    - destruct m as [w|j|i|]; unfold Pool.step_main; simpl; try discriminate.
      + destruct (Nat.leb_spec w nW); intros [= <-]; now constructor.
      + destruct (Nat.leb_spec j nJ).
        * destruct (Chan.send (Pool.job_of j) jq) eqn:E; try discriminate.
          intros [= <-]. apply send_completed in E as (Ho & Hl & ->).
          now constructor.
        * destruct (Chan.close jq) eqn:E; try discriminate.
          intros [= <-]. apply close_completed in E as (Ho & ->).
          now constructor.
      + destruct (Nat.leb_spec i nJ).
        * destruct (Chan.recv rq) as [[[r|] c]| |] eqn:E; try discriminate;
            intros [= <-].
          -- apply recv_some_eq in E as (rest & Hb & ->). now constructor.
          -- apply recv_none in E as (Hb & Hc & ->). now constructor.
        * intros [= <-]. now constructor.
    - assert (Hm : m <> Pool.Finished ->
                   Pool.step_worker work k (Pool.mkState m jq rq ws o) = Completed s' ->
                   trans (Pool.mkState m jq rq ws o) s').
      { intros Hm. unfold Pool.step_worker; simpl.
        destruct (nth_error ws k) as [[|job|]|] eqn:Hk; try discriminate.
        - destruct (Chan.recv jq) as [[[job|] c]| |] eqn:E; try discriminate;
            intros [= <-].
          + apply recv_some_eq in E as (rest & Hb & ->). now constructor.
          + apply recv_none in E as (Hb & Hc & ->). now constructor.
        - destruct (work job) eqn:Hw; try discriminate.
          destruct (Chan.send (Pool.result_of job) rq) eqn:E; try discriminate.
          intros [= <-]. apply send_completed in E as (Ho & Hl & ->).
          now constructor. }
      destruct m; try discriminate; apply Hm; discriminate.
  Qed.

Lemma trans_step s s' : trans s s' -> step s s'.
  Proof.
    unfold Pool.step.
    intros H; inversion H; subst; clear H.
    - exists Pool.Main. unfold Pool.step_fn, Pool.step_main; simpl.
      apply Nat.leb_le in H0. now rewrite H0.
    - exists Pool.Main. unfold Pool.step_fn, Pool.step_main; simpl.
      apply Nat.leb_gt in H0. now rewrite H0.
    - exists Pool.Main. unfold Pool.step_fn, Pool.step_main; simpl.
      apply Nat.leb_le in H0. rewrite H0. now rewrite send_open.
    - exists Pool.Main. unfold Pool.step_fn, Pool.step_main; simpl.
      apply Nat.leb_gt in H0. rewrite H0. unfold Chan.close. now rewrite H1.
    - exists Pool.Main. unfold Pool.step_fn, Pool.step_main; simpl.
      apply Nat.leb_le in H0. rewrite H0. unfold Chan.recv. now rewrite H1.
    - exists Pool.Main. unfold Pool.step_fn, Pool.step_main; simpl.
      apply Nat.leb_le in H0. rewrite H0. unfold Chan.recv. rewrite H1, H2.
      reflexivity.
    - exists Pool.Main. unfold Pool.step_fn, Pool.step_main; simpl.
      apply Nat.leb_gt in H0. now rewrite H0.
    - exists (Pool.Worker k). unfold Pool.step_fn, Pool.step_worker; simpl.
      rewrite H1. unfold Chan.recv. rewrite H2. now destruct m.
    - exists (Pool.Worker k). unfold Pool.step_fn, Pool.step_worker; simpl.
      rewrite H1. unfold Chan.recv. rewrite H2, H3. now destruct m.
    - exists (Pool.Worker k). unfold Pool.step_fn, Pool.step_worker; simpl.
      rewrite H1, H2. rewrite send_open by assumption. now destruct m.
  Qed.

Lemma inv_init : inv init.
  Proof.
    constructor; simpl; auto; try lia.
    intros [|k]; discriminate.
  Qed.

Ltac observe :=
    unfold Pool.started, Pool.printed, Pool.in_flight, Pool.submitted in *;
    cbn [Pool.main Pool.jobs Pool.results Pool.workers Pool.out
         Chan.buf Chan.cap Chan.closed] in *;
    repeat rewrite flat_map_app in *;
    cbn [flat_map Pool.started_of Pool.printed_of Pool.held_of app
         Pool.pc_in_range Pool.spawned Pool.past_close Pool.collected] in *;
    repeat rewrite app_nil_r in *.

Lemma stopped_update k v (ws : list Pool.worker_pc) k0 :
    v <> Pool.Stopped ->
    nth_error (update k v ws) k0 = Some Pool.Stopped ->
    nth_error ws k0 = Some Pool.Stopped.
  Proof.
    intros Hv Hk. destruct (Nat.eq_dec k k0) as [->|Hne].
    - destruct (Nat.lt_ge_cases k0 (length ws)) as [Hlt|Hge].
      + rewrite nth_error_update_same in Hk by assumption. congruence.
      + assert (nth_error (update k0 v ws) k0 = None) as E
          by (apply nth_error_None; now rewrite update_length).
        congruence.
    - now rewrite nth_error_update_other in Hk.
  Qed.

Lemma stopped_spawn (ws : list Pool.worker_pc) k :
    nth_error (ws ++ [Pool.Waiting]) k = Some Pool.Stopped ->
    nth_error ws k = Some Pool.Stopped.
  Proof.
    intros Hk. destruct (Nat.lt_ge_cases k (length ws)) as [Hlt|Hge].
    - now rewrite nth_error_app1 in Hk.
    - rewrite nth_error_app2 in Hk by assumption.
      destruct (k - length ws) as [|[|n]]; discriminate.
  Qed.

  (** Every step keeps the invariant. *)
Lemma inv_trans s s' : trans s s' -> inv s -> inv s'.
  Proof.
    intros H [Hpc Hcj Hcr Hro Hjc Hw Hcol Hfifo Hflow Hstop].
    inversion H; subst; clear H; observe.
    - (* a worker is started *)
      constructor; observe; try assumption; try lia.
      + rewrite length_app; simpl; lia.
      + intros k0 Hk0. apply (Hstop k0). now apply stopped_spawn.
    - (* the last worker is started *)
      constructor; observe; try assumption; try lia.
    - (* a job is sent *)
      constructor; observe; try assumption; try reflexivity; try lia.
      + rewrite app_assoc, Hfifo.
        replace (S j - 1) with (S (j - 1)) by lia.
        rewrite seq_S, map_app. simpl.
        replace (S (j - 1)) with j by lia. reflexivity.
      + intros k0 Hk0. destruct (Hstop k0 Hk0). congruence.
    - (* the queue is closed *)
      constructor; observe; try assumption; try reflexivity; try lia.
      + rewrite Hfifo. replace (j - 1) with (Chan.cap jq) by lia. reflexivity.
      + intros k0 Hk0. destruct (Hstop k0 Hk0). congruence.
    - (* a result is collected *)
      match goal with E : Chan.buf rq = _ |- _ => rewrite E in * end.
      constructor; observe; try assumption; try reflexivity; try lia.
      + rewrite length_app; simpl; lia.
      + rewrite <- app_assoc. exact Hflow.
    - (* the results channel is never closed *)
      congruence.
    - (* main returns *)
      constructor; observe; try assumption; try reflexivity; try lia.
    - (* a worker takes a job *)
      match goal with E : Chan.buf jq = _ |- _ => rewrite E in * end.
      match goal with E : nth_error ws k = Some _ |- _ =>
        pose proof (flat_map_update Pool.held_of k (Pool.Working job) ws E) as P
      end.
      cbn [Pool.held_of app] in P.
      constructor; observe; try assumption; try reflexivity.
      + now rewrite update_length.
      + rewrite <- app_assoc. exact Hfifo.
      + rewrite P, map_app, <- Hflow. simpl.
        rewrite (app_assoc (flat_map Pool.printed_of o)).
        rewrite <- Permutation_middle.
        rewrite <- Permutation_cons_append.
        now rewrite <- app_assoc.
      + intros k0 Hk0. apply stopped_update in Hk0; [|discriminate].
        destruct (Hstop k0 Hk0). discriminate.
    - (* a worker leaves its loop *)
      constructor; observe; try assumption; try reflexivity.
      + now rewrite update_length.
      + match goal with E : nth_error ws k = Some _ |- _ =>
          rewrite (flat_map_update_same Pool.held_of k Pool.Stopped ws E)
            by reflexivity
        end.
        exact Hflow.
      + intros; split; assumption.
    - (* a worker sends a result *)
      match goal with E : nth_error ws k = Some _ |- _ =>
        pose proof (flat_map_update Pool.held_of k Pool.Waiting ws E) as P
      end.
      cbn [Pool.held_of app] in P.
      constructor; observe; try assumption; try reflexivity.
      + now rewrite update_length.
      + rewrite <- Hflow, <- P. simpl.
        rewrite <- app_assoc. reflexivity.
      + intros k0 Hk0. apply stopped_update in Hk0; [|discriminate].
        exact (Hstop k0 Hk0).
  Qed.

Lemma inv_reachable s : reachable s -> inv s.
  Proof.
    induction 1 as [|s s' _ IH [a Hs]].
    - apply inv_init.
    - apply inv_trans with s; [|assumption]. now apply step_trans with a.
  Qed.
  (** Every step uses up some of the measure: executions are finite. *)
Ltac msimp :=
    cbn [length app filter flat_map negb Pool.is_stopped Pool.held_of] in *.

Lemma measure_trans s s' :
    trans s s' -> Pool.measure nW nJ s' < Pool.measure nW nJ s.
  Proof.
    intros H; inversion H; subst; clear H;
      unfold Pool.measure, Pool.in_flight, Chan.len;
      cbn [Pool.main Pool.jobs Pool.results Pool.workers Pool.out
           Chan.buf Chan.cap Chan.closed].
    - rewrite flat_map_app, filter_app, !length_app. msimp. lia.
    - lia.
    - rewrite length_app. msimp. lia.
    - lia.
    - match goal with E : Chan.buf rq = _ |- _ => rewrite E end. msimp. lia.
    - lia.
    - lia.
    - match goal with E : Chan.buf jq = _ |- _ => rewrite E end.
      match goal with E : nth_error ws k = Some _ |- _ =>
        pose proof (Permutation_length
                      (flat_map_update Pool.held_of k (Pool.Working job) ws E)) as P;
        pose proof (filter_update (fun w => negb (Pool.is_stopped w)) k
                                  (Pool.Working job) ws E) as F
      end.
      msimp. destruct m; try contradiction; lia.
    - match goal with E : nth_error ws k = Some _ |- _ =>
        rewrite (flat_map_update_same Pool.held_of k Pool.Stopped ws E)
          by reflexivity;
        pose proof (filter_update (fun w => negb (Pool.is_stopped w)) k
                                  Pool.Stopped ws E) as F
      end.
      msimp. lia.
    - match goal with E : nth_error ws k = Some _ |- _ =>
        pose proof (Permutation_length
                      (flat_map_update Pool.held_of k Pool.Waiting ws E)) as P;
        pose proof (filter_update (fun w => negb (Pool.is_stopped w)) k
                                  Pool.Waiting ws E) as F
      end.
      msimp. rewrite length_app. msimp. lia.
  Qed.

Lemma measure_step s s' :
    step s s' -> Pool.measure nW nJ s' < Pool.measure nW nJ s.
  Proof. intros [a Hs]. apply measure_trans. now apply step_trans with a. Qed.

  (** The states reached by [run] are states of the program. *)
Lemma run_reachable sched s :
    reachable s -> reachable (fst (Pool.run nW nJ work sched s)).
  Proof.
    revert s. induction sched as [|a rest IH]; intros s Hs; simpl; [assumption|].
    destruct (step_fn a s) as [s'| |m] eqn:E; auto.
    apply IH. apply Pool.reach_step with s; [assumption|]. now exists a.
  Qed.

  (** What the invariant gives on the lengths of the queues. *)
Lemma inv_counts s :
    inv s ->
    length (Pool.started s) + Chan.len (Pool.jobs s) = length (Pool.submitted nJ s) /\
    length (Pool.printed s) + Chan.len (Pool.results s) + length (Pool.in_flight s)
    = length (Pool.started s).
  Proof.
    intros [Hpc Hcj Hcr Hro Hjc Hw Hcol Hfifo Hflow Hstop]. split.
    - rewrite <- Hfifo, length_app. reflexivity.
    - apply Permutation_length in Hflow.
      rewrite !length_app, !length_map in Hflow. unfold Chan.len. lia.
  Qed.

Lemma submitted_length s :
    length (Pool.submitted nJ s)
    = match Pool.main s with
      | Pool.Spawning _ => 0
      | Pool.Producing j => j - 1
      | _ => nJ
      end.
  Proof.
    unfold Pool.submitted. destruct (Pool.main s); simpl;
      now rewrite ?length_map, ?length_seq.
  Qed.

  (** When [main] has returned every job has been taken, worked on and its
      result received. *)
Lemma inv_finished s :
    inv s -> Pool.main s = Pool.Finished ->
    Chan.buf (Pool.jobs s) = [] /\ Chan.buf (Pool.results s) = [] /\
    Pool.in_flight s = [] /\
    Pool.started s = map Pool.job_of (seq 1 nJ) /\
    Permutation (Pool.printed s)
                (map Pool.result_of (map Pool.job_of (seq 1 nJ))).
  Proof.
    intros Hinv Hm. destruct (inv_counts Hinv) as [C1 C2].
    rewrite submitted_length, Hm in C1.
    destruct Hinv as [Hpc Hcj Hcr Hro Hjc Hw Hcol Hfifo Hflow Hstop].
    rewrite Hm in Hcol. simpl in Hcol. unfold Chan.len in *.
    assert (Chan.buf (Pool.jobs s) = []) as Ej by (apply length_zero_iff_nil; lia).
    assert (Chan.buf (Pool.results s) = []) as Er by (apply length_zero_iff_nil; lia).
    assert (Pool.in_flight s = []) as Ef by (apply length_zero_iff_nil; lia).
    rewrite Ej, app_nil_r in Hfifo. rewrite Er, Ef in Hflow.
    simpl in Hflow. rewrite app_nil_r in Hflow.
    unfold Pool.submitted in Hfifo. rewrite Hm in Hfifo.
    repeat split; try assumption. now rewrite <- Hfifo.
  Qed.
  (** No job identifier is taken twice, and none is reported twice. *)
Lemma ids_of_jobs (l : list nat) : map Pool.ID (map Pool.job_of l) = l.
  Proof. rewrite map_map. simpl. apply map_id. Qed.

Lemma ids_of_results (l : list Pool.Job) :
    map Pool.JobID (map Pool.result_of l) = map Pool.ID l.
  Proof. rewrite map_map. reflexivity. Qed.

Lemma submitted_ids s : exists n, map Pool.ID (Pool.submitted nJ s) = seq 1 n.
  Proof.
    unfold Pool.submitted. destruct (Pool.main s).
    - now exists 0.
    - exists (j - 1). apply ids_of_jobs.
    - exists nJ. apply ids_of_jobs.
    - exists nJ. apply ids_of_jobs.
  Qed.

Lemma inv_started_nodup s : inv s -> NoDup (map Pool.ID (Pool.started s)).
  Proof.
    intros Hinv. destruct (submitted_ids s) as [n Hn].
    rewrite <- (Pool.inv_fifo Hinv), map_app in Hn.
    apply NoDup_app_remove_r with (map Pool.ID (Chan.buf (Pool.jobs s))).
    rewrite Hn. apply seq_NoDup.
  Qed.

Lemma inv_results_nodup s :
    inv s ->
    NoDup (map Pool.JobID (Pool.printed s ++ Chan.buf (Pool.results s))).
  Proof.
    intros Hinv. pose proof (inv_started_nodup Hinv) as Hnd.
    pose proof (Pool.inv_flow Hinv) as Hflow.
    apply (Permutation_map Pool.JobID) in Hflow.
    rewrite ids_of_results in Hflow.
    apply Permutation_sym in Hflow.
    apply (Permutation_NoDup Hflow) in Hnd.
    rewrite app_assoc, map_app in Hnd.
    now apply NoDup_app_remove_r in Hnd.
  Qed.

  (** Every result there is was made from a job that was taken. *)
Lemma inv_results_from_jobs s r :
    inv s -> In r (Pool.printed s ++ Chan.buf (Pool.results s)) ->
    exists job, In job (Pool.started s) /\ r = Pool.result_of job.
  Proof.
    intros Hinv Hr. pose proof (Pool.inv_flow Hinv) as Hflow.
    assert (In r (map Pool.result_of (Pool.started s))) as Hin.
    { apply (Permutation_in r Hflow). rewrite app_assoc.
      apply in_or_app. now left. }
    apply in_map_iff in Hin as (job & <- & Hjob). eauto.
  Qed.

  (** The workers that started job [j] are as many as the occurrences of [j]
      among the jobs taken. *)
Lemma starters_count j s :
    length (Pool.starters j s)
    = count_occ Nat.eq_dec (map Pool.ID (Pool.started s)) j.
  Proof.
    unfold Pool.starters, Pool.started.
    induction (Pool.out s) as [|e o IH]; [reflexivity|].
    cbn [flat_map]. rewrite map_app, count_occ_app, length_app, IH.
    f_equal. destruct e as [w job| | |]; try reflexivity.
    cbn [Pool.started_of map count_occ].
    destruct (Nat.eqb_spec (Pool.ID job) j) as [->|Hne].
    - destruct (Nat.eq_dec j j); [reflexivity|contradiction].
    - destruct (Nat.eq_dec (Pool.ID job) j); [contradiction|reflexivity].
  Qed.

Section ReturningWork.
    (** The work of the source: it returns normally on every job. *)
Hypothesis work_returns : forall job, work job = None.

    (** No deadlock: as long as [main] has not returned, some goroutine can
        take a step. *)
Lemma inv_progress s :
      1 <= nW -> inv s -> Pool.main s <> Pool.Finished ->
      exists s', trans s s'.
    Proof.
      intros HnW Hinv Hm. destruct (inv_counts Hinv) as [C1 C2].
      rewrite submitted_length in C1.
      destruct Hinv as [Hpc Hcj Hcr Hro Hjc Hw Hcol Hfifo Hflow Hstop].
      destruct s as [m jq rq ws o]. unfold Chan.len in *.
      cbn [Pool.main Pool.jobs Pool.results Pool.workers Pool.out] in *.
      destruct m as [w|j|i|]; [| | |contradiction];
        cbn [Pool.pc_in_range Pool.spawned Pool.past_close Pool.collected] in *.
      - destruct (le_gt_dec w nW).
        + eexists. now apply Pool.T_spawn.
        + eexists. now apply Pool.T_spawned.
      - destruct (le_gt_dec j nJ).
        + eexists. apply Pool.T_send; try assumption. unfold Chan.len. lia.
        + eexists. now apply Pool.T_close.
      - destruct (le_gt_dec i nJ); [|eexists; now apply Pool.T_finish].
        destruct (Chan.buf rq) as [|r rest] eqn:Er;
          [|eexists; now apply Pool.T_collect with (r := r) (rest := rest)].
        destruct (Pool.in_flight (Pool.mkState (Pool.Collecting i) jq rq ws o))
          as [|job0 held] eqn:Ef.
        + (* nothing in flight: a job waits in the queue *)
          simpl in C2.
          destruct (Chan.buf jq) as [|job rest] eqn:Ej; [simpl in C1; lia|].
          destruct ws as [|w0 ws']; [simpl in Hw; lia|].
          destruct w0 as [|job'|].
          * eexists. apply Pool.T_take with (k := 0) (job := job) (rest := rest);
              [discriminate|reflexivity|assumption].
          * discriminate Ef.
          * destruct (Hstop 0 eq_refl) as [_ E]. rewrite ?Ej in E. discriminate.
        + (* a worker holds a job and [results] has room *)
          unfold Pool.in_flight in Ef. cbn [Pool.workers] in Ef.
          destruct (@flat_map_cons_inv _ _ Pool.held_of ws) as (k & a & Hk & Ha);
            [congruence|].
          destruct a as [|job|]; try (now contradiction Ha).
          eexists. apply Pool.T_emit with (k := k) (job := job);
            [discriminate|assumption|apply work_returns|assumption|].
          unfold Chan.len. rewrite Er. simpl. lia.
    Qed.

    (** No step of the program panics. *)
Lemma inv_no_panic s a m : inv s -> step_fn a s <> Panics m.
    Proof.
      intros [Hpc Hcj Hcr Hro Hjc Hw Hcol Hfifo Hflow Hstop].
      destruct s as [mn jq rq ws o].
      cbn [Pool.main Pool.jobs Pool.results Pool.workers Pool.out] in *.
      unfold Pool.step_fn, Pool.step_main.
      cbn [Pool.main Pool.jobs Pool.results Pool.workers Pool.out].
      assert (forall x, Chan.send x rq <> Panics m) as Sr
        by (intros x; unfold Chan.send; rewrite Hro;
            destruct (Chan.len rq <? Chan.cap rq); discriminate).
      assert (forall k, Pool.step_worker work k (Pool.mkState mn jq rq ws o)
                        <> Panics m) as Wk.
      { intros k. unfold Pool.step_worker.
        cbn [Pool.main Pool.jobs Pool.results Pool.workers Pool.out].
        destruct (nth_error ws k) as [[|job|]|]; try discriminate.
        - pose proof (@recv_never_panics _ jq) as R.
          destruct (Chan.recv jq) as [[[job|] c]| |m0]; try discriminate.
          exfalso. now apply (R m0).
        - rewrite work_returns. specialize (Sr (Pool.result_of job)).
          destruct (Chan.send (Pool.result_of job) rq); congruence. }
      destruct mn as [w|j|i|]; cbn [Pool.past_close] in *;
        try discriminate; destruct a as [|k]; try exact (Wk k).
      - destruct (w <=? nW); discriminate.
      - destruct (j <=? nJ).
        + unfold Chan.send. rewrite Hjc.
          destruct (Chan.len jq <? Chan.cap jq); discriminate.
        + unfold Chan.close. rewrite Hjc. discriminate.
      - destruct (i <=? nJ); [|discriminate].
        pose proof (@recv_never_panics _ rq) as R.
        destruct (Chan.recv rq) as [[[r|] c]| |m0]; try discriminate.
        exfalso. now apply (R m0).
    Qed.
End ReturningWork.
End PoolFacts.


(* ================================================================== *)
(** ** The single-worker pipeline *)
(* ================================================================== *)

Section PipelineFacts.
Variable xs : list Z.

Local Abbreviation step_fn := (Pipeline.step_fn xs).
Local Abbreviation inv := (Pipeline.inv xs).

Ltac pipe_cases H :=
    unfold Pipeline.step_fn in H;
    cbn [Pipeline.feeder Pipeline.input_closed Pipeline.worker Pipeline.main
         Pipeline.results] in H;
    repeat match type of H with
           | context [match ?x with _ => _ end] => destruct x eqn:?
           end;
    try discriminate H; injection H as <-.

Lemma pipe_inv_init : inv (Pipeline.init xs).
  Proof.
    unfold Pipeline.inv, Pipeline.init, Pipeline.held, Pipeline.unsent; simpl.
    repeat split; try discriminate; auto.
  Qed.

Lemma pipe_inv_step a s s' : step_fn a s = Completed s' -> inv s -> inv s'.
  Proof.
    intros H (Hflow & Hcl & Hret & Hmain).
    destruct s as [f cl w m rs].
    unfold Pipeline.inv, Pipeline.held, Pipeline.unsent in *.
    cbn [Pipeline.feeder Pipeline.input_closed Pipeline.worker Pipeline.main
         Pipeline.results] in *.
    destruct a; pipe_cases H;
      cbn [Pipeline.feeder Pipeline.input_closed Pipeline.worker Pipeline.main
           Pipeline.results]; subst.
    all: repeat split; try discriminate; try assumption;
      try (now apply Hcl); try (intros _; now apply Hcl); auto.
    - (* output hand-off: the value held joins the results *)
      rewrite Hflow, <- app_assoc. reflexivity.
    - rewrite length_app. simpl. lia.
    - (* the collecting loop ends: everything was read *)
      match goal with E : (_ <? _) = false |- _ => apply Nat.ltb_ge in E end.
      apply (f_equal (@length Z)) in Hflow.
      rewrite !length_app, !length_map in Hflow. lia.
  Qed.

Lemma pipe_inv_reachable s : Pipeline.reachable xs s -> inv s.
  Proof.
    induction 1 as [|s s' _ IH [a Hs]].
    - apply pipe_inv_init.
    - now apply pipe_inv_step with a s.
  Qed.

Lemma pipe_measure_step a s s' :
    step_fn a s = Completed s' -> Pipeline.measure s' < Pipeline.measure s.
  Proof.
    intros H. destruct s as [f cl w m rs].
    unfold Pipeline.measure, Pipeline.held, Pipeline.unsent.
    destruct a; pipe_cases H;
      cbn [Pipeline.feeder Pipeline.input_closed Pipeline.worker Pipeline.main
           Pipeline.results length]; lia.
  Qed.

  (** No deadlock: until the test has collected its values some move is
      enabled. *)
Lemma pipe_progress s :
    inv s -> Pipeline.main s <> Pipeline.Collected ->
    exists a s', step_fn a s = Completed s'.
  Proof.
    intros (Hflow & Hcl & Hret & Hmain) Hm.
    destruct s as [f cl w m rs].
    unfold Pipeline.inv, Pipeline.held, Pipeline.unsent, Pipeline.step_fn in *.
    cbn [Pipeline.feeder Pipeline.input_closed Pipeline.worker Pipeline.main
         Pipeline.results] in *.
    destruct m as [i|]; [|contradiction].
    destruct (i <? length xs) eqn:Ei.
    - destruct w as [|y|].
      + destruct f as [[|x rest]|].
        * exists Pipeline.FeederClose. destruct cl; [|eauto].
          destruct Hcl as [Hcl _]. discriminate (Hcl eq_refl).
        * exists Pipeline.FeedHandoff. destruct cl; [|eauto].
          destruct Hcl as [Hcl _]. discriminate (Hcl eq_refl).
        * exists Pipeline.WorkerExit. destruct Hcl as [_ Hcl].
          rewrite (Hcl eq_refl). eauto.
      + exists Pipeline.OutHandoff. eauto.
      + rewrite (Hret eq_refl) in Hflow. simpl in Hflow.
        rewrite app_nil_r in Hflow. apply (f_equal (@length Z)) in Hflow.
        rewrite length_map in Hflow. apply Nat.ltb_lt in Ei. lia.
    - exists Pipeline.MainDone. eauto.
  Qed.

Lemma pipe_no_panic a s m : inv s -> step_fn a s <> Panics m.
  Proof.
    intros (Hflow & Hcl & Hret & Hmain).
    destruct s as [f cl w mn rs].
    unfold Pipeline.inv, Pipeline.step_fn in *.
    cbn [Pipeline.feeder Pipeline.input_closed Pipeline.worker Pipeline.main
         Pipeline.results] in *.
    assert (forall rest, f = Pipeline.Feeding rest -> cl = false) as Hopen.
    { intros rest ->. destruct cl; [|reflexivity].
      destruct Hcl as [Hcl _]. discriminate (Hcl eq_refl). }
    destruct mn; [|discriminate].
    destruct a; try discriminate.
    - destruct f as [[|x rest]|]; try discriminate.
      destruct w; try discriminate.
      rewrite (Hopen _ eq_refl). discriminate.
    - destruct f as [[|x rest]|]; try discriminate.
      rewrite (Hopen _ eq_refl). discriminate.
    - destruct w; try discriminate. destruct cl; discriminate.
    - destruct w; try discriminate. destruct (i <? length xs); discriminate.
    - destruct (i <? length xs); discriminate.
  Qed.

  (** When the test has left its loop it holds every doubled value, in the
      order sent. *)
Lemma pipe_collected s :
    inv s -> Pipeline.main s = Pipeline.Collected ->
    Pipeline.results s = map (Pipeline.double) xs.
  Proof.
    intros (Hflow & Hcl & Hret & Hmain) Hm. rewrite Hm in Hmain.
    pose proof (f_equal (@length Z) Hflow) as L.
    rewrite !length_app, !length_map in L.
    assert (Pipeline.held s = []) as Eh by (apply length_zero_iff_nil; lia).
    assert (Pipeline.unsent s = []) as Eu by (apply length_zero_iff_nil; lia).
    rewrite Eh, Eu in Hflow. simpl in Hflow. now rewrite app_nil_r in Hflow.
  Qed.

Lemma pipe_run_reachable sched s :
    Pipeline.reachable xs s -> Pipeline.reachable xs (fst (Pipeline.run xs sched s)).
  Proof.
    revert s. induction sched as [|a rest IH]; intros s Hs; simpl; [assumption|].
    destruct (step_fn a s) as [s'| |m] eqn:E; auto.
    apply IH. apply Pipeline.reach_step with s; [assumption|]. now exists a.
  Qed.
End PipelineFacts.

(** Doubling does not overflow on values of at most 62 bits. *)
Lemma double_exact (v : Z) :
  (- 2 ^ 62 <= v < 2 ^ 62)%Z -> Pipeline.double v = (2 * v)%Z.
Proof.
  intros Hv. unfold Pipeline.double, Int64.mul, Int64.wrap.
  rewrite Z.mod_small by lia. lia.
Qed.

(* ================================================================== *)
(** ** Producer and consumer *)
(* ================================================================== *)

Section ProdConsFacts.
Variables capacity count : nat.

Local Abbreviation step_fn := (ProdCons.step_fn count).
Local Abbreviation inv := (ProdCons.inv capacity count).

Lemma pc_inv_init : inv (ProdCons.init capacity).
  Proof.
    unfold ProdCons.inv, ProdCons.init, ProdCons.sent; simpl.
    repeat split; try discriminate; lia.
  Qed.

Lemma pc_inv_step a s s' : step_fn a s = Completed s' -> inv s -> inv s'.
  Proof.
    intros H (Hcap & Hfifo & Hprod & Hcons).
    destruct s as [p c q done].
    unfold ProdCons.inv, ProdCons.sent, ProdCons.step_fn in *.
    cbn [ProdCons.producer ProdCons.consumer ProdCons.ch ProdCons.processed] in *.
    destruct c; [|discriminate]. destruct a.
    - destruct p as [i|]; [|discriminate]. destruct Hprod as [Hi Hopen].
      destruct (Nat.leb_spec i count).
      + destruct (Chan.send i q) as [q'| |] eqn:E; try discriminate.
        injection H as <-. apply send_completed in E as (_ & _ & ->).
        cbn [ProdCons.producer ProdCons.consumer ProdCons.ch ProdCons.processed
             Chan.buf Chan.cap Chan.closed].
        repeat split; try discriminate; try assumption; try lia.
        rewrite app_assoc, Hfifo.
        replace (S i - 1) with (S (i - 1)) by lia. rewrite seq_S.
        replace (1 + (i - 1)) with i by lia. reflexivity.
      + destruct (Chan.close q) as [q'| |] eqn:E; try discriminate.
        injection H as <-. apply close_completed in E as (_ & ->).
        cbn [ProdCons.producer ProdCons.consumer ProdCons.ch ProdCons.processed
             Chan.buf Chan.cap Chan.closed].
        repeat split; try discriminate; try assumption.
        rewrite Hfifo. f_equal. lia.
    - destruct (Chan.recv q) as [[[v|] q']| |] eqn:E; try discriminate;
        injection H as <-.
      + apply recv_some_eq in E as (rest & Hb & ->).
        cbn [ProdCons.producer ProdCons.consumer ProdCons.ch ProdCons.processed
             Chan.buf Chan.cap Chan.closed].
        rewrite Hb in Hfifo.
        repeat split; try discriminate; try assumption.
        now rewrite <- app_assoc.
      + apply recv_none in E as (Hb & Hc & ->).
        repeat split; try assumption.
        destruct p as [i|]; [|reflexivity]. destruct Hprod. congruence.
  Qed.

Lemma pc_inv_reachable s : ProdCons.reachable capacity count s -> inv s.
  Proof.
    induction 1 as [|s s' _ IH [a Hs]].
    - apply pc_inv_init.
    - now apply pc_inv_step with a s.
  Qed.

Lemma pc_measure_step a s s' :
    step_fn a s = Completed s' ->
    ProdCons.measure count s' < ProdCons.measure count s.
  Proof.
    intros H. destruct s as [p c q done].
    unfold ProdCons.measure, ProdCons.step_fn, Chan.len in *.
    cbn [ProdCons.producer ProdCons.consumer ProdCons.ch ProdCons.processed] in *.
    destruct c; [|discriminate]. destruct a.
    - destruct p as [i|]; [|discriminate].
      destruct (Nat.leb_spec i count).
      + destruct (Chan.send i q) as [q'| |] eqn:E; try discriminate.
        injection H as <-. apply send_completed in E as (_ & _ & ->).
        cbn [ProdCons.producer ProdCons.consumer ProdCons.ch Chan.buf].
        rewrite length_app. cbn [length app]. lia.
      + destruct (Chan.close q) as [q'| |] eqn:E; try discriminate.
        injection H as <-. apply close_completed in E as (_ & ->).
        cbn [ProdCons.producer ProdCons.consumer ProdCons.ch Chan.buf]. lia.
    - destruct (Chan.recv q) as [[[v|] q']| |] eqn:E; try discriminate;
        injection H as <-.
      + apply recv_some_eq in E as (rest & Hb & ->).
        cbn [ProdCons.producer ProdCons.consumer ProdCons.ch Chan.buf].
        rewrite Hb. cbn [length app]. destruct p; lia.
      + apply recv_none in E as (_ & _ & ->).
        cbn [ProdCons.producer ProdCons.consumer ProdCons.ch]. destruct p; lia.
  Qed.

  (** No deadlock, as soon as the channel has a slot. *)
Lemma pc_progress s :
    1 <= capacity -> inv s -> ProdCons.consumer s <> ProdCons.ConsumerDone ->
    exists a s', step_fn a s = Completed s'.
  Proof.
    intros Hc (Hcap & Hfifo & Hprod & Hcons) Hm.
    destruct s as [p c q done].
    unfold ProdCons.inv, ProdCons.step_fn in *.
    cbn [ProdCons.producer ProdCons.consumer ProdCons.ch ProdCons.processed] in *.
    destruct c; [|contradiction].
    destruct (Chan.buf q) as [|v rest] eqn:Eb.
    - destruct p as [i|].
      + exists ProdCons.Producer. destruct Hprod as [Hi Hopen].
        destruct (i <=? count).
        * rewrite send_open; [eauto|assumption|].
          unfold Chan.len. rewrite Eb. simpl. lia.
        * unfold Chan.close. rewrite Hopen. eauto.
      + exists ProdCons.Consumer. unfold Chan.recv. rewrite Eb, Hprod. eauto.
    - exists ProdCons.Consumer. unfold Chan.recv. rewrite Eb. eauto.
  Qed.

Lemma pc_no_panic a s m : inv s -> step_fn a s <> Panics m.
  Proof.
    intros (Hcap & Hfifo & Hprod & Hcons).
    destruct s as [p c q done].
    unfold ProdCons.inv, ProdCons.step_fn in *.
    cbn [ProdCons.producer ProdCons.consumer ProdCons.ch ProdCons.processed] in *.
    destruct c; [|discriminate]. destruct a.
    - destruct p as [i|]; [|discriminate]. destruct Hprod as [Hi Hopen].
      destruct (i <=? count).
      + unfold Chan.send. rewrite Hopen.
        destruct (Chan.len q <? Chan.cap q); discriminate.
      + unfold Chan.close. rewrite Hopen. discriminate.
    - pose proof (@recv_never_panics _ q) as R.
      destruct (Chan.recv q) as [[[v|] q']| |m0]; try discriminate.
      exfalso. now apply (R m0).
  Qed.

  (** When the consumer has left its loop it has processed [1 .. count], in
      order, and the channel is closed and empty. *)
Lemma pc_done s :
    inv s -> ProdCons.consumer s = ProdCons.ConsumerDone ->
    ProdCons.processed s = seq 1 count /\
    Chan.closed (ProdCons.ch s) = true /\ Chan.buf (ProdCons.ch s) = [].
  Proof.
    intros (Hcap & Hfifo & Hprod & Hcons) Hm.
    destruct (Hcons Hm) as [Hp Hb]. unfold ProdCons.sent in Hfifo.
    rewrite Hp in *. rewrite Hb, app_nil_r in Hfifo. auto.
  Qed.

Lemma pc_run_reachable sched s :
    ProdCons.reachable capacity count s ->
    ProdCons.reachable capacity count (fst (ProdCons.run count sched s)).
  Proof.
    revert s. induction sched as [|a rest IH]; intros s Hs; simpl; [assumption|].
    destruct (step_fn a s) as [s'| |m] eqn:E; auto.
    apply IH. apply ProdCons.reach_step with s; [assumption|]. now exists a.
  Qed.
End ProdConsFacts.

(* ################################################################## *)
(** * The properties of the specification *)
(* ################################################################## *)

(** C1 -- Exactly-once execution.  In the worker pool, under every schedule:
    at every moment no job identifier has been taken from the queue twice and
    no identifier is carried by two results, and every result comes from a
    job that was taken; while [main] has not returned some goroutine can
    step, no step panics, and every step uses up a measure, so every
    execution ends with [main] returned; and then the jobs taken are exactly
    the jobs [1 .. numJobs] in the order sent, each taken by exactly one
    worker, and the results received carry exactly the identifiers
    [1 .. numJobs], each once, all with status "Success". *)
Theorem pool_exactly_once :
  forall nW nJ (s : Pool.state),
    1 <= nW ->
    Pool.reachable nW nJ Pool.sleep s ->
    NoDup (map Pool.ID (Pool.started s)) /\
    NoDup (map Pool.JobID (Pool.printed s ++ Chan.buf (Pool.results s))) /\
    (forall r, In r (Pool.printed s ++ Chan.buf (Pool.results s)) ->
               exists job, In job (Pool.started s) /\ r = Pool.result_of job) /\
    (Pool.main s <> Pool.Finished ->
     exists a s', Pool.step_fn nW nJ Pool.sleep a s = Completed s') /\
    (forall a m, Pool.step_fn nW nJ Pool.sleep a s <> Panics m) /\
    (forall s', Pool.step nW nJ Pool.sleep s s' ->
                Pool.measure nW nJ s' < Pool.measure nW nJ s) /\
    (Pool.main s = Pool.Finished ->
     Pool.started s = map Pool.job_of (seq 1 nJ) /\
     Permutation (map Pool.JobID (Pool.printed s)) (seq 1 nJ) /\
     Forall (fun r => Pool.Status r = "Success") (Pool.printed s) /\
     forall j, 1 <= j <= nJ ->
               (exists w, Pool.starters j s = [w]) /\
               count_occ Nat.eq_dec (map Pool.JobID (Pool.printed s)) j = 1).
Proof.
  intros nW nJ s HnW Hreach.
  pose proof (inv_reachable Hreach) as Hinv.
  split; [exact (inv_started_nodup Hinv)|].
  split; [exact (inv_results_nodup Hinv)|].
  split; [intros r; exact (inv_results_from_jobs r Hinv)|].
  split.
  { intros Hm.
    destruct (@inv_progress nW nJ Pool.sleep (fun _ => eq_refl) s HnW Hinv Hm)
      as [s' Ht].
    destruct (trans_step Ht) as [a Ha]. eauto. }
  split; [intros a m; now apply inv_no_panic|].
  split; [intros s'; apply measure_step|].
  intros Hm. destruct (inv_finished Hinv Hm) as (_ & _ & _ & Hst & Hpr).
  assert (Permutation (map Pool.JobID (Pool.printed s)) (seq 1 nJ)) as Hids.
  { apply (Permutation_map Pool.JobID) in Hpr.
    now rewrite ids_of_results, ids_of_jobs in Hpr. }
  repeat split; try assumption.
  - apply Permutation_sym in Hpr. apply (Permutation_Forall Hpr).
    apply Forall_forall. intros r Hr.
    apply in_map_iff in Hr as (job & <- & _). reflexivity.
  - assert (length (Pool.starters j s) = 1) as L.
    { rewrite starters_count, Hst, ids_of_jobs.
      apply NoDup_count_occ'; [apply seq_NoDup|]. apply in_seq. lia. }
    destruct (Pool.starters j s) as [|w [|w' l]]; try discriminate. eauto.
  - rewrite (Permutation_count_occ Nat.eq_dec) in Hids. rewrite Hids.
    apply NoDup_count_occ'; [apply seq_NoDup|]. apply in_seq. lia.
Qed.

(** The source's configuration, run to the end under a round-robin
    schedule: ten results, one for each job. *)
Lemma pool_exactly_once_witness :
  1 <= 3 /\
  Pool.reachable 3 10 Pool.sleep (fst Pool.source_run) /\
  Pool.main (fst Pool.source_run) = Pool.Finished /\
  Permutation (map Pool.JobID (Pool.printed (fst Pool.source_run))) (seq 1 10).
Proof.
  assert (Pool.reachable 3 10 Pool.sleep (fst Pool.source_run)) as R
    by (apply run_reachable; constructor).
  split; [lia|]. split; [exact R|]. split; [reflexivity|].
  destruct (@pool_exactly_once 3 10 (fst Pool.source_run) (le_S _ _ (le_S _ _ (le_n 1))) R)
    as (_ & _ & _ & _ & _ & _ & F).
  destruct (F eq_refl) as (_ & P & _). exact P.
Defined.

(** C2 -- Capacity invariant.  After every sequence of sends, receives and
    closes attempted on a channel made with capacity [c], the capacity is
    still [c] and the buffer holds at most [c] values; a send onto a full
    channel does not complete (it blocks while the channel is open), and it
    completes once a receive has freed a slot. *)
Theorem chan_capacity_invariant :
  forall (A : Type) (c : nat) (ops : list (Chan.op A)),
    let ch := Chan.run_ops ops (Chan.make c) in
    Chan.cap ch = c /\
    Chan.len ch <= c /\
    (forall x ch', Chan.len ch = c -> Chan.send x ch <> Completed ch') /\
    (forall x, Chan.len ch = c -> Chan.closed ch = false ->
               Chan.send x ch = Blocked) /\
    (forall x y ch', Chan.closed ch = false ->
                     Chan.recv ch = Completed (Some y, ch') ->
                     Chan.send x ch'
                     = Completed (Chan.mk (Chan.buf ch' ++ [x]) c false)).
Proof.
  intros A c ops ch.
  destruct (@run_ops_bounded A ops (Chan.make c)) as [Hcap Hlen];
    [unfold Chan.len; simpl; lia|].
  fold ch in Hcap, Hlen. simpl in Hcap, Hlen.
  split; [assumption|]. split; [assumption|]. split; [|split].
  - intros x ch' Hfull E. apply send_completed in E as (_ & Hlt & _). lia.
  - intros x Hfull Hopen. apply send_full; [assumption|lia].
  - intros x y ch' Hopen E. apply recv_some in E as (Hb & Hc & Hcl).
    rewrite send_open.
    + now rewrite Hc, Hcap.
    + congruence.
    + unfold Chan.len in *. rewrite Hb in Hlen. simpl in Hlen. lia.
Qed.

(** The queue of the channels demonstration after its two sends: a third
    send blocks, and completes after one receive. *)
Lemma chan_capacity_invariant_witness :
  Chan.len Demo.full_queue = 2 /\
  Chan.send "Job 3" Demo.full_queue = Blocked /\
  Chan.send "Job 3" (Chan.mk ["Job 2"] 2 false)
  = Completed (Chan.mk ["Job 2"; "Job 3"] 2 false).
Proof.
  destruct (@chan_capacity_invariant string 2 [Chan.Enq "Job 1"; Chan.Enq "Job 2"])
    as (_ & _ & _ & B & S).
  split; [reflexivity|]. split.
  - apply B; reflexivity.
  - apply (S "Job 3" "Job 1"); reflexivity.
Defined.

(** C3 -- FIFO.  Over every sequence of operations on a channel, the values
    whose send completed are, in order, the values received followed by the
    values still buffered: nothing is reordered.  In particular values sent
    without a receive in between, as many as fit, are received in the order
    sent. *)
Theorem chan_fifo :
  forall (A : Type) (c : nat) (xs : list A),
    length xs <= c ->
    (forall ops : list (Chan.op A), let t := Chan.run_trace ops c in
                 Chan.sent t = (Chan.rcvd t ++ Chan.buf (Chan.tr_chan t))%list) /\
    Chan.drain (length xs) (Chan.sends xs (Chan.make c)) = xs /\
    (forall y ys, xs = y :: ys ->
                  exists ch', Chan.recv (Chan.sends xs (Chan.make c))
                              = Completed (Some y, ch') /\ Chan.buf ch' = ys).
Proof.
  intros A c xs Hfit. split; [|split].
  - intros ops. apply (@fold_trace_fifo A ops). reflexivity.
  - rewrite sends_fit by (reflexivity || (unfold Chan.len; simpl in *; lia)). simpl.
    apply drain_buf.
  - intros y ys ->. rewrite sends_fit by (reflexivity || (unfold Chan.len; simpl in *; lia)).
    simpl. unfold Chan.recv. simpl. eauto.
Qed.

(** The two jobs of the channels demonstration come out in the order they
    went in. *)
Lemma chan_fifo_witness :
  length ["Job 1"; "Job 2"] <= 2 /\
  Chan.drain 2 (Chan.sends ["Job 1"; "Job 2"] (Chan.make 2)) = ["Job 1"; "Job 2"].
Proof.
  split; [apply le_n|].
  exact (proj1 (proj2 (@chan_fifo string 2 ["Job 1"; "Job 2"] (le_n 2)))).
Defined.

(** C5, as the code has it -- Submit.  A blocking send on an open queue
    blocks while the queue is full and otherwise appends the job at the tail:
    it never drops a job.  It returns no error value: a send on a closed
    queue panics, and no cancellation scope is observed.  The non-blocking
    write (select with a default case) appends the job when a slot is free;
    when the queue is full it runs the default case and the job is dropped,
    which the caller is told; on a closed queue it panics too. *)
Theorem submit_outcomes :
  forall (A : Type) (x : A) (ch : Chan.chan A),
    (Chan.closed ch = false -> Chan.len ch < Chan.cap ch ->
     Chan.send x ch = Completed (Chan.mk (Chan.buf ch ++ [x]) (Chan.cap ch) false) /\
     Chan.try_send x ch
     = Completed (true, Chan.mk (Chan.buf ch ++ [x]) (Chan.cap ch) false)) /\
    (Chan.closed ch = false -> Chan.cap ch <= Chan.len ch ->
     Chan.send x ch = Blocked /\ Chan.try_send x ch = Completed (false, ch)) /\
    (Chan.closed ch = true ->
     Chan.send x ch = Panics "send on closed channel" /\
     Chan.try_send x ch = Panics "send on closed channel").
Proof.
  intros A x ch. unfold Chan.try_send. split; [|split].
  - intros Ho Hl. now rewrite send_open.
  - intros Ho Hl. now rewrite send_full.
  - intros Hc. now rewrite send_closed.
Qed.

(** The two non-blocking writes of the select demonstration: the first is
    enqueued, the second finds the queue full. *)
Lemma submit_outcomes_witness :
  Chan.try_send 1%Z (Chan.make 1) = Completed (true, Chan.mk [1%Z] 1 false) /\
  Chan.try_send 2%Z (Chan.mk [1%Z] 1 false)
  = Completed (false, Chan.mk [1%Z] 1 false).
Proof.
  split.
  - exact (proj2 (proj1 (@submit_outcomes Z 1%Z (Chan.make 1)) eq_refl (le_n 1))).
  - exact (proj2 (proj1 (proj2 (@submit_outcomes Z 2%Z (Chan.mk [1%Z] 1 false)))
                        eq_refl (le_n 1))).
Defined.

(** C5, counterexample.  The second non-blocking write of the select
    demonstration: the queue is open and full, the write completes at once,
    and job 2 is nowhere in the queue -- it neither waited for a slot nor
    returned a QueueClosed or Cancelled error. *)
Lemma submit_drops_job :
  Demo.nonblocking_writes
  = Completed (["Enqueued job"; "Queue full, dropping job"],
               Chan.mk [1%Z] 1 false) /\
  Chan.try_send 2%Z (Chan.mk [1%Z] 1 false)
  = Completed (false, Chan.mk [1%Z] 1 false) /\
  existsb (Z.eqb 2) (Chan.buf (Chan.mk [1%Z] 1 false)) = false.
Proof. repeat split. Qed.

(** C7, as the code has it -- Close.  Closing an open queue succeeds and
    keeps its buffer; from then on a send panics, the values queued are still
    received in order and the receive after them reports the channel closed;
    a second close panics ("Closing twice PANICS").  The programs close each
    channel once, from its sender: no step of the producer and consumer, and
    no step of the worker pool, ever panics, and the consumer ends having
    processed every value on a closed and empty channel. *)
Theorem close_once :
  (forall (A : Type) (ch : Chan.chan A),
      Chan.closed ch = false ->
      let ch' := Chan.mk (Chan.buf ch) (Chan.cap ch) true in
      Chan.close ch = Completed ch' /\
      (forall x, Chan.send x ch' = Panics "send on closed channel") /\
      Chan.drain (Chan.len ch) ch' = Chan.buf ch /\
      Chan.range_loop (S (Chan.len ch)) ch' = Some (Chan.buf ch) /\
      Chan.recv (Chan.mk (@nil A) (Chan.cap ch) true)
      = Completed (None, Chan.mk (@nil A) (Chan.cap ch) true) /\
      Chan.close ch' = Panics "close of closed channel") /\
  (forall capacity count s,
      ProdCons.reachable capacity count s ->
      (forall a m, ProdCons.step_fn count a s <> Panics m) /\
      (ProdCons.consumer s = ProdCons.ConsumerDone ->
       ProdCons.processed s = seq 1 count /\
       Chan.closed (ProdCons.ch s) = true /\ Chan.buf (ProdCons.ch s) = [])) /\
  (forall nW nJ s,
      Pool.reachable nW nJ Pool.sleep s ->
      forall a m, Pool.step_fn nW nJ Pool.sleep a s <> Panics m).
Proof.
  split; [|split].
  - intros A ch Hopen ch'. unfold ch'.
    split; [unfold Chan.close; now rewrite Hopen|].
    split; [intros x; now apply send_closed|].
    split; [apply drain_buf|].
    split; [apply range_loop_closed|].
    split; reflexivity.
  - intros capacity count s Hreach.
    pose proof (pc_inv_reachable Hreach) as Hinv. split.
    + intros a m. now apply pc_no_panic with capacity.
    + now apply pc_done with capacity.
  - intros nW nJ s Hreach a m.
    apply inv_no_panic; [reflexivity|]. exact (inv_reachable Hreach).
Qed.

(** The producer and consumer of the channels demonstration, run to the end:
    the channel was closed once, after [1; 2; 3] were sent, and the consumer
    processed them in order. *)
Lemma close_once_witness :
  ProdCons.reachable 5 3 (fst ProdCons.source_run) /\
  ProdCons.consumer (fst ProdCons.source_run) = ProdCons.ConsumerDone /\
  ProdCons.processed (fst ProdCons.source_run) = [1; 2; 3] /\
  Chan.closed (ProdCons.ch (fst ProdCons.source_run)) = true.
Proof.
  assert (ProdCons.reachable 5 3 (fst ProdCons.source_run)) as R
    by (apply pc_run_reachable; constructor).
  split; [exact R|]. split; [reflexivity|].
  destruct close_once as (_ & P & _).
  destruct (P 5 3 (fst ProdCons.source_run) R) as (_ & D).
  destruct (D eq_refl) as (Hp & Hc & _). split; assumption.
Defined.

(** C7, counterexample.  The second close of a channel panics. *)
Lemma close_twice_panics :
  Chan.close (Chan.make 5 : Chan.chan nat) = Completed (Chan.mk [] 5 true) /\
  Chan.close (Chan.mk ([] : list nat) 5 true) = Panics "close of closed channel".
Proof. split; reflexivity. Qed.

(** C6, as the code has it -- Graceful shutdown.  In the worker pool, under
    every schedule: the queue is closed only after all [numJobs] jobs were
    sent; a waiting worker still takes the job at the head of the queue,
    closed or not, and a worker leaves its loop only when the queue is closed
    and empty; the shutdown always completes (some goroutine can step until
    [main] returns, and every step uses up a measure); when [main] returns it
    has received all [numJobs] results, one for each job, and nothing is
    left in the queues or in the workers' hands.  A send after the close
    does not return an error: it panics. *)
Theorem pool_shutdown_drains :
  forall nW nJ (s : Pool.state),
    1 <= nW ->
    Pool.reachable nW nJ Pool.sleep s ->
    (Chan.closed (Pool.jobs s) = true ->
     Pool.submitted nJ s = map Pool.job_of (seq 1 nJ)) /\
    (forall k job rest,
        Pool.main s <> Pool.Finished ->
        nth_error (Pool.workers s) k = Some Pool.Waiting ->
        Chan.buf (Pool.jobs s) = job :: rest ->
        exists s', Pool.step_fn nW nJ Pool.sleep (Pool.Worker k) s = Completed s' /\
                   Pool.started s' = (Pool.started s ++ [job])%list /\
                   Chan.buf (Pool.jobs s') = rest) /\
    (forall k, nth_error (Pool.workers s) k = Some Pool.Stopped ->
               Chan.closed (Pool.jobs s) = true /\ Chan.buf (Pool.jobs s) = []) /\
    (Pool.main s <> Pool.Finished ->
     exists a s', Pool.step_fn nW nJ Pool.sleep a s = Completed s') /\
    (forall s', Pool.step nW nJ Pool.sleep s s' ->
                Pool.measure nW nJ s' < Pool.measure nW nJ s) /\
    (Pool.main s = Pool.Finished ->
     length (Pool.printed s) = nJ /\
     Permutation (map Pool.JobID (Pool.printed s)) (seq 1 nJ) /\
     Chan.buf (Pool.jobs s) = [] /\ Pool.in_flight s = [] /\
     Chan.buf (Pool.results s) = []) /\
    (Chan.closed (Pool.jobs s) = true ->
     forall x, Chan.send x (Pool.jobs s) = Panics "send on closed channel").
Proof.
  intros nW nJ s HnW Hreach.
  pose proof (inv_reachable Hreach) as Hinv.
  split.
  { intros Hc. rewrite (Pool.inv_jobs_closed Hinv) in Hc.
    unfold Pool.submitted. destruct (Pool.main s); try discriminate; reflexivity. }
  split.
  { intros k job rest Hm Hk Hb.
    assert (Pool.step_fn nW nJ Pool.sleep (Pool.Worker k) s
            = Pool.step_worker Pool.sleep k s) as ->
        by (unfold Pool.step_fn; destruct (Pool.main s); try contradiction; reflexivity).
    unfold Pool.step_worker, Chan.recv. rewrite Hk, Hb.
    eexists. split; [reflexivity|].
    unfold Pool.started. simpl. rewrite flat_map_app. simpl.
    split; reflexivity. }
  split; [exact (Pool.inv_stopped Hinv)|].
  split.
  { intros Hm.
    destruct (@inv_progress nW nJ Pool.sleep (fun _ => eq_refl) s HnW Hinv Hm)
      as [s' Ht].
    destruct (trans_step Ht) as [a Ha]. eauto. }
  split; [intros s'; apply measure_step|].
  split.
  { intros Hm. destruct (inv_finished Hinv Hm) as (Ej & Er & Ef & Hst & Hpr).
    pose proof (Pool.inv_collected Hinv) as Hc. rewrite Hm in Hc.
    repeat split; try assumption.
    apply (Permutation_map Pool.JobID) in Hpr.
    now rewrite ids_of_results, ids_of_jobs in Hpr. }
  intros Hc x. now apply send_closed.
Qed.

(** The source's configuration run to the end: all ten results were received
    before [main] returned. *)
Lemma pool_shutdown_drains_witness :
  1 <= 3 /\
  Pool.reachable 3 10 Pool.sleep (fst Pool.source_run) /\
  Pool.main (fst Pool.source_run) = Pool.Finished /\
  length (Pool.printed (fst Pool.source_run)) = 10.
Proof.
  assert (Pool.reachable 3 10 Pool.sleep (fst Pool.source_run)) as R
    by (apply run_reachable; constructor).
  split; [lia|]. split; [exact R|]. split; [reflexivity|].
  destruct (@pool_shutdown_drains 3 10 (fst Pool.source_run)
              (le_S _ _ (le_S _ _ (le_n 1))) R)
    as (_ & _ & _ & _ & _ & F & _).
  exact (proj1 (F eq_refl)).
Defined.

(** C6, counterexample.  After the pool has shut down, a further send on
    the jobs queue panics; no QueueClosed error is returned. *)
Lemma send_after_shutdown_panics :
  Pool.main (fst Pool.source_run) = Pool.Finished /\
  Chan.closed (Pool.jobs (fst Pool.source_run)) = true /\
  Chan.send (Pool.job_of 11) (Pool.jobs (fst Pool.source_run))
  = Panics "send on closed channel".
Proof. repeat split. Qed.

(** C10, as the code has it -- Single-worker pipeline.  For every list of
    integers fed to the pipeline and every interleaving: the results
    collected are always an initial part of the inputs doubled by the 64-bit
    multiplication, in input order; no step panics; the test can always go on
    until its loop ends, and every step uses up a measure; when the loop
    ends there is exactly one result per input, and the results are twice
    the inputs when every input lies in [-2^62, 2^62). *)
Theorem pipeline_doubles_in_order :
  forall (xs : list Z) (s : Pipeline.state),
    Pipeline.reachable xs s ->
    (exists rest, map Pipeline.double xs = (Pipeline.results s ++ rest)%list) /\
    (forall a m, Pipeline.step_fn xs a s <> Panics m) /\
    (Pipeline.main s <> Pipeline.Collected ->
     exists a s', Pipeline.step_fn xs a s = Completed s') /\
    (forall a s', Pipeline.step_fn xs a s = Completed s' ->
                  Pipeline.measure s' < Pipeline.measure s) /\
    (Pipeline.main s = Pipeline.Collected ->
     Pipeline.results s = map Pipeline.double xs /\
     length (Pipeline.results s) = length xs /\
     (Forall (fun v => - 2 ^ 62 <= v < 2 ^ 62)%Z xs ->
      Pipeline.results s = map (fun v => 2 * v)%Z xs)).
Proof.
  intros xs s Hreach.
  pose proof (pipe_inv_reachable Hreach) as Hinv.
  split.
  { destruct Hinv as (Hflow & _). eexists. exact Hflow. }
  split; [intros a m; now apply pipe_no_panic|].
  split; [now apply pipe_progress|].
  split; [intros a s'; apply pipe_measure_step|].
  intros Hm. pose proof (pipe_collected Hinv Hm) as Hres.
  split; [exact Hres|]. split.
  - rewrite Hres. apply length_map.
  - intros Hsmall. rewrite Hres. apply map_ext_in.
    intros v Hv. apply double_exact.
    rewrite Forall_forall in Hsmall. now apply Hsmall.
Qed.

(** The test of the source, run to the end: the results are
    [2; 4; 6; 8; 10]. *)
Lemma pipeline_doubles_in_order_witness :
  Pipeline.reachable Pipeline.test_input (fst Pipeline.test_run) /\
  Pipeline.main (fst Pipeline.test_run) = Pipeline.Collected /\
  Pipeline.results (fst Pipeline.test_run) = [2; 4; 6; 8; 10]%Z.
Proof.
  assert (Pipeline.reachable Pipeline.test_input (fst Pipeline.test_run)) as R
    by (apply pipe_run_reachable; constructor).
  split; [exact R|]. split; [reflexivity|].
  destruct (pipeline_doubles_in_order R) as (_ & _ & _ & _ & F).
  destruct (F eq_refl) as (_ & _ & G).
  apply G. repeat constructor; lia.
Defined.

(** C10, counterexample.  Fed with the 64-bit integer [2^62], the pipeline
    ends with the single result [-2^63], which is not twice its input. *)
Lemma pipeline_overflow :
  Int64.in_range 4611686018427387904 /\
  snd Pipeline.large_run = None /\
  Pipeline.main (fst Pipeline.large_run) = Pipeline.Collected /\
  Pipeline.results (fst Pipeline.large_run) = [-9223372036854775808]%Z /\
  map (fun v => 2 * v)%Z Pipeline.large_input = [9223372036854775808]%Z.
Proof.
  split; [unfold Int64.in_range, Int64.min_int, Int64.max_int; lia|].
  repeat split.
Qed.

(** C8 -- Cancellation monotonicity.  For every scope and every sequence of
    cancel calls and clock readings: at most one of them changes the scope;
    a scope that is done stays as it is, so [Err] keeps the cause it first
    reported and never reverts to nil; [Cancel] is idempotent, and any
    positive number of cancel calls on a scope that is not done makes
    exactly one effective transition.  [makeRequest] called with a done
    scope does not wait: it aborts with that cause, unless its duration is
    zero, when the timer is ready as well and the [select] takes either
    case; the scope is left as it was. *)
Theorem cancel_monotonic :
  forall (s : Ctx.scope) (evs : list Ctx.event),
    Ctx.transitions evs s <= 1 /\
    (Ctx.Done s = true -> Ctx.run evs s = s) /\
    (forall c, Ctx.Err s = Some c -> Ctx.Err (Ctx.run evs s) = Some c) /\
    (Ctx.Err (Ctx.run evs s) = None -> Ctx.Err s = None) /\
    Ctx.apply Ctx.Cancel (Ctx.apply Ctx.Cancel s) = Ctx.apply Ctx.Cancel s /\
    Ctx.Done (Ctx.apply Ctx.Cancel s) = true /\
    (forall n, Ctx.transitions (repeat Ctx.Cancel (S n)) s
               = if Ctx.Done s then 0 else 1) /\
    (forall start d,
        Ctx.Done s = true ->
        Ctx.makeRequest s start d evs
        = (if (d =? 0)%N then Ctx.EitherWay (Ctx.Err s) else Ctx.Aborted (Ctx.Err s),
           s)).
Proof.
  assert (Hstay : forall evs s, Ctx.Done s = true -> Ctx.run evs s = s).
  { induction evs as [|e evs IH]; intros s Hd; [reflexivity|].
    unfold Ctx.run in *. simpl.
    assert (Ctx.apply e s = s) as ->
        by (unfold Ctx.apply, Ctx.Done in *; destruct (Ctx.err s); [reflexivity|discriminate]).
    now apply IH. }
  assert (Hzero : forall evs s, Ctx.Done s = true -> Ctx.transitions evs s = 0).
  { induction evs as [|e evs IH]; intros s Hd; [reflexivity|].
    simpl. unfold Ctx.effective. rewrite Hd. simpl.
    assert (Ctx.apply e s = s) as ->
        by (unfold Ctx.apply, Ctx.Done in *; destruct (Ctx.err s); [reflexivity|discriminate]).
    now apply IH. }
  assert (Hone : forall evs s, Ctx.transitions evs s <= 1).
  { induction evs as [|e evs IH]; intros s; [simpl; lia|].
    simpl. unfold Ctx.effective.
    destruct (Ctx.Done s) eqn:Hd; simpl.
    - assert (Ctx.apply e s = s) as ->
          by (unfold Ctx.apply, Ctx.Done in *; destruct (Ctx.err s); [reflexivity|discriminate]).
      rewrite (Hzero evs s Hd). lia.
    - destruct (Ctx.Done (Ctx.apply e s)) eqn:Hd'.
      + rewrite (Hzero evs _ Hd'). lia.
      + specialize (IH (Ctx.apply e s)). lia. }
  assert (Hkeep : forall evs s c, Ctx.Err s = Some c -> Ctx.Err (Ctx.run evs s) = Some c).
  { intros evs s c Hc. rewrite Hstay; [exact Hc|].
    unfold Ctx.Done, Ctx.Err in *. now rewrite Hc. }
  intros s evs.
  split; [apply Hone|].
  split; [apply Hstay|].
  split; [apply Hkeep|].
  split.
  { intros Hn. destruct (Ctx.Err s) as [c|] eqn:Hc; [|reflexivity].
    rewrite (Hkeep evs s c Hc) in Hn. discriminate. }
  split.
  { unfold Ctx.apply. destruct (Ctx.err s) eqn:He; simpl; [now rewrite He|reflexivity]. }
  split.
  { unfold Ctx.apply, Ctx.Done. destruct (Ctx.err s) eqn:He; simpl; [now rewrite He|reflexivity]. }
  split.
  { intros n. destruct (Ctx.Done s) eqn:Hd; [now apply Hzero|].
    change (repeat Ctx.Cancel (S n)) with (Ctx.Cancel :: repeat Ctx.Cancel n).
    cbn [Ctx.transitions]. unfold Ctx.effective. rewrite Hd.
    assert (Ctx.Done (Ctx.apply Ctx.Cancel s) = true) as Hd'
        by (unfold Ctx.apply, Ctx.Done in *; destruct (Ctx.err s); [discriminate|reflexivity]).
    rewrite Hd'. simpl. now rewrite (Hzero _ _ Hd'). }
  intros start d Hd. unfold Ctx.makeRequest. cbn [Ctx.wait].
  assert (Ctx.apply (Ctx.Clock start) s = s) as ->
      by (unfold Ctx.apply, Ctx.Done in *; destruct (Ctx.err s); [reflexivity|discriminate]).
  rewrite Hd.
  destruct (N.eqb_spec d 0) as [->|Hne].
  - rewrite N.add_0_r, N.leb_refl. reflexivity.
  - assert ((start + d <=? start)%N = false) as -> by (apply N.leb_gt; lia).
    reflexivity.
Qed.

(** The two demonstrations of [main]: the request under the 2 s timeout is
    aborted by the deadline, and the deferred [cancel()] that follows does
    not change the cause; the request cancelled by [stop()] after 1 s is
    aborted with the cause "canceled". *)
Lemma cancel_monotonic_witness :
  Ctx.timeout_demo
  = (Ctx.Aborted (Some Ctx.DeadlineExceeded),
     Ctx.mkScope (Some 2000%N) (Some Ctx.DeadlineExceeded)) /\
  Ctx.manual_cancel_demo
  = (Ctx.Aborted (Some Ctx.Canceled), Ctx.mkScope None (Some Ctx.Canceled)) /\
  Ctx.transitions [Ctx.Clock 1000%N; Ctx.Cancel; Ctx.Cancel; Ctx.Clock 2000%N; Ctx.Cancel]
                  (Ctx.WithTimeout 0%N 2000%N) <= 1.
Proof.
  split; [reflexivity|]. split; [reflexivity|].
  exact (proj1 (cancel_monotonic (Ctx.WithTimeout 0%N 2000%N)
                  [Ctx.Clock 1000%N; Ctx.Cancel; Ctx.Cancel; Ctx.Clock 2000%N; Ctx.Cancel])).
Defined.

(** C9, as the code has it -- The no-failure result of [doWork].
    [doWork(false)] returns the interface that holds the nil pointer of type
    [*CustomError]; it does not compare equal to nil and [main] reports
    "Error occurred".  [doWorkFixed(false)] returns the nil interface and
    [main] reports "No error".  On failure both return a non-nil error. *)
Theorem doWork_returns_typed_nil :
  NilIface.doWork false = NilIface.dyn_CustomError NilIface.null /\
  NilIface.is_nil (NilIface.doWork false) = false /\
  NilIface.report (NilIface.doWork false) = "Error occurred" /\
  NilIface.is_nil (NilIface.doWorkFixed false) = true /\
  NilIface.report (NilIface.doWorkFixed false) = "No error" /\
  (forall fail, NilIface.is_nil (NilIface.doWork fail) = false) /\
  (forall fail, NilIface.is_nil (NilIface.doWorkFixed fail) = negb fail).
Proof.
  repeat split; try (intros []; reflexivity).
Qed.

(* ################################################################## *)
(** * Further properties of the programs *)
(* ################################################################## *)

(* ================================================================== *)
(** ** Stub and fake stores *)
(* ================================================================== *)

Lemma lookup_insert_same (key val : string) (m : Fakes.smap) :
  Fakes.lookup key (Fakes.insert key val m) = Some val.
Proof.
  induction m as [|[k v] rest IH]; simpl.
  - now rewrite String.eqb_refl.
  - destruct (String.eqb key k) eqn:E; simpl.
    + now rewrite String.eqb_refl.
    + now rewrite E.
Qed.

Lemma lookup_insert_other (key key' val : string) (m : Fakes.smap) :
  key' <> key ->
  Fakes.lookup key' (Fakes.insert key val m) = Fakes.lookup key' m.
Proof.
  intros Hne. apply String.eqb_neq in Hne.
  induction m as [|[k v] rest IH]; simpl.
  - now rewrite Hne.
  - destruct (String.eqb key k) eqn:E; simpl.
    + apply String.eqb_eq in E. subst k. now rewrite Hne.
    + now rewrite IH.
Qed.

Lemma last_saved_cons (id : string) (c : string * string)
      (calls : list (string * string)) :
  Fakes.last_saved id (c :: calls)
  = match Fakes.last_saved id calls with
    | Some name => Some name
    | None => if String.eqb id (fst c) then Some (snd c) else None
    end.
Proof.
  unfold Fakes.last_saved. simpl.
  generalize (rev calls). intros l.
  induction l as [|x l IH]; simpl.
  - now destruct (String.eqb id (fst c)).
  - destruct (String.eqb id (fst x)); [reflexivity|exact IH].
Qed.

(** What a sequence of saves leaves in a fake store whose map was made:
    no call panics, and each key holds the name of the last save of that
    key, or, when there was none, what it held before. *)
Lemma fake_saves (calls : list (string * string)) (m : Fakes.smap) :
  exists m',
    Fakes.save_all calls (Fakes.mkService (Fakes.mkFakeStore (Some m)))
    = Fakes.Returned (Fakes.mkService (Fakes.mkFakeStore (Some m'))) /\
    forall id,
      Fakes.lookup id m'
      = match (if String.eqb id "" then None else Fakes.last_saved id calls) with
        | Some name => Some name
        | None => Fakes.lookup id m
        end.
Proof.
  revert m. induction calls as [|c calls IH]; intros m.
  - exists m. split; [reflexivity|]. intros id. now destruct (String.eqb id "").
  - cbn [Fakes.save_all]. unfold Fakes.SaveUser.
    destruct (String.eqb (fst c) "") eqn:Ec.
    + destruct (IH m) as (m' & Hs & Hl). exists m'. split; [exact Hs|].
      intros id. rewrite Hl, last_saved_cons.
      destruct (String.eqb id "") eqn:Ei; [reflexivity|].
      destruct (Fakes.last_saved id calls); [reflexivity|].
      apply String.eqb_eq in Ec. rewrite Ec, Ei. reflexivity.
    + cbn [Fakes.Set_ Fakes.FakeStore_Store Fakes.store Fakes.data].
      destruct (IH (Fakes.insert (fst c) (snd c) m)) as (m' & Hs & Hl).
      exists m'. split; [exact Hs|].
      intros id. rewrite Hl, last_saved_cons.
      destruct (String.eqb id "") eqn:Ei.
      * apply String.eqb_eq in Ei. subst id.
        apply lookup_insert_other. intros E. rewrite <- E in Ec. discriminate.
      * destruct (Fakes.last_saved id calls); [reflexivity|].
        destruct (String.eqb id (fst c)) eqn:Eic.
        -- apply String.eqb_eq in Eic. subst id. apply lookup_insert_same.
        -- apply String.eqb_neq in Eic. now apply lookup_insert_other.
Qed.

(** X1 -- Saving a user in a service backed by a fake store and loading it
    again.  When the map of the store was made (as [NewFakeStore] does),
    whatever it holds: for every non-empty identifier [SaveUser] returns no
    error, [LoadUser] of that identifier then returns the name saved, and
    what [LoadUser] returns for any other identifier is unchanged.  On the
    store [&FakeStore{}], whose map is nil, [LoadUser] finds nothing and
    [SaveUser] of a non-empty identifier panics. *)
Theorem fake_save_then_load :
  forall (m : Fakes.smap) (id name : string),
    id <> "" ->
    (exists svc',
        Fakes.SaveUser (Fakes.NewService (Fakes.mkFakeStore (Some m))) id name
        = Fakes.Returned (svc', None) /\
        Fakes.LoadUser svc' id = (name, None) /\
        (forall id', id' <> id ->
                     Fakes.LoadUser svc' id'
                     = Fakes.LoadUser (Fakes.NewService (Fakes.mkFakeStore (Some m))) id')) /\
    Fakes.SaveUser (Fakes.NewService (Fakes.mkFakeStore None)) id name
    = Fakes.Panicked "assignment to entry in nil map" /\
    (forall id', Fakes.LoadUser (Fakes.NewService (Fakes.mkFakeStore None)) id'
                 = ("", Some "not found")).
Proof.
  intros m id name Hid. apply String.eqb_neq in Hid.
  unfold Fakes.SaveUser. rewrite Hid.
  cbn [Fakes.Set_ Fakes.FakeStore_Store Fakes.store Fakes.data Fakes.NewService].
  split; [|split; reflexivity].
  eexists. split; [reflexivity|]. unfold Fakes.LoadUser.
  cbn [Fakes.Get Fakes.FakeStore_Store Fakes.store Fakes.data]. split.
  - now rewrite lookup_insert_same.
  - intros id' Hne. now rewrite lookup_insert_other.
Qed.

(** The test of the source: "alice" saved under "1" in a new fake store. *)
Lemma fake_save_then_load_witness :
  "1" <> "" /\
  Fakes.TestService_WithFake = Fakes.Pass /\
  exists svc',
    Fakes.SaveUser (Fakes.NewService Fakes.NewFakeStore) "1" "alice"
    = Fakes.Returned (svc', None) /\
    Fakes.LoadUser svc' "1" = ("alice", None).
Proof.
  assert ("1" <> "") as H by discriminate.
  split; [exact H|]. split; [reflexivity|].
  destruct (@fake_save_then_load [] "1" "alice" H) as ((svc' & E1 & E2 & _) & _).
  exists svc'. split; assumption.
Defined.

(** X2 -- What a service backed by a new fake store returns after any
    sequence of [SaveUser] calls: none of the calls panics, and [LoadUser]
    returns the name given by the last call with that identifier, and the
    error "not found" when there was none or when the identifier is empty (a
    save with the empty identifier is refused and stores nothing). *)
Theorem fake_load_after_saves :
  forall (calls : list (string * string)) (id : string),
    exists svc,
      Fakes.save_all calls (Fakes.NewService Fakes.NewFakeStore) = Fakes.Returned svc /\
      Fakes.LoadUser svc id
      = match (if String.eqb id "" then None else Fakes.last_saved id calls) with
        | Some name => (name, None)
        | None => ("", Some "not found")
        end.
Proof.
  intros calls id. destruct (fake_saves calls []) as (m' & Hs & Hl).
  eexists. split; [exact Hs|].
  unfold Fakes.LoadUser.
  cbn [Fakes.Get Fakes.FakeStore_Store Fakes.store Fakes.data].
  rewrite Hl.
  destruct (if String.eqb id "" then None else Fakes.last_saved id calls);
    reflexivity.
Qed.

(** X3 -- A service backed by a stub.  The stub keeps no state: whatever
    is saved, no call panics, the service is as it was and [LoadUser]
    returns the stub's fixed value and error for every identifier.
    [SaveUser] returns "empty id" for the empty identifier and the stub's
    error otherwise, so with a stub that fails every save of a non-empty
    identifier fails. *)
Theorem stub_service_is_stateless :
  forall (stub : Fakes.StubStore) (calls : list (string * string))
         (id name : string),
    Fakes.save_all calls (Fakes.NewService stub)
    = Fakes.Returned (Fakes.NewService stub) /\
    Fakes.LoadUser (Fakes.NewService stub) id
    = (Fakes.value stub, Fakes.err stub) /\
    Fakes.SaveUser (Fakes.NewService stub) id name
    = Fakes.Returned (Fakes.NewService stub,
                      if String.eqb id "" then Some "empty id" else Fakes.err stub).
Proof.
  intros stub calls id name. split; [|split].
  - induction calls as [|c calls IH]; [reflexivity|].
    cbn [Fakes.save_all]. unfold Fakes.SaveUser.
    destruct (String.eqb (fst c) ""); exact IH.
  - reflexivity.
  - unfold Fakes.SaveUser. now destruct (String.eqb id "").
Qed.

(* ================================================================== *)
(** ** Non-blocking reads and the stop signal *)
(* ================================================================== *)

(** X4 -- Non-blocking reads.  Successive [select]s with a default case
    on a channel first find the values it holds, oldest first, and leave
    it empty; every later one finds nothing ready while the channel is
    open (the default case runs) and the zero value once it is closed.  A
    non-blocking write to a new channel with room followed by a
    non-blocking read gives back the value written. *)
Theorem nonblocking_reads_in_order :
  forall (A : Type) (ch : Chan.chan A) (k : nat),
    Select.polls (Chan.len ch + k) ch
    = ((map Select.Got (Chan.buf ch)
        ++ repeat (if Chan.closed ch then Select.GotZero else Select.NotReady) k)%list,
       Chan.mk [] (Chan.cap ch) (Chan.closed ch)) /\
    (forall (x : A) (c : nat),
        exists ch',
          Chan.try_send x (Chan.make (S c)) = Completed (true, ch') /\
          Select.try_recv ch' = (Select.Got x, Chan.make (S c))).
Proof.
  intros A ch k. split.
  - destruct ch as [b c cl]. unfold Chan.len. simpl.
    induction b as [|x b IH].
    + induction k as [|k IHk]; [reflexivity|].
      cbn [Select.polls length Nat.add] in *.
      unfold Select.try_recv, Chan.recv. cbn [Chan.buf Chan.closed Chan.cap] in *.
      destruct cl; rewrite IHk; reflexivity.
    + cbn [Select.polls length Nat.add] in *.
      unfold Select.try_recv, Chan.recv. cbn [Chan.buf Chan.closed Chan.cap] in *.
      rewrite IH. reflexivity.
  - intros x c. eexists. split; reflexivity.
Qed.

(** X5 -- The stop-signal loop.  In every execution: the lines printed
    are "Working... 1", "Working... 2", ... up to the rounds of work done,
    followed by the stop line exactly when [main] has returned; [main]
    returns only after [stopCh] was closed; no step panics; and once
    [stopCh] is closed the next round of the loop does no more work and
    returns. *)
Theorem stop_signal_loop :
  forall s : Select.state,
    Select.reachable s ->
    Select.lines s
    = (map Select.working (seq 1 (Select.work s))
       ++ (if Select.returned s then [Select.stop_line] else []))%list /\
    (Select.returned s = true -> Chan.closed (Select.stopCh s) = true) /\
    (forall a m, Select.step_fn a s <> Panics m) /\
    (Chan.closed (Select.stopCh s) = true -> Select.returned s = false ->
     exists s', Select.step_fn Select.Loop s = Completed s' /\
                Select.returned s' = true /\
                Select.work s' = Select.work s /\
                Select.lines s' = (Select.lines s ++ [Select.stop_line])%list).
Proof.
  intros s Hreach.
  assert (Hinv : Select.lines s
                 = (map Select.working (seq 1 (Select.work s))
                    ++ (if Select.returned s then [Select.stop_line] else []))%list /\
                 (Select.returned s = true -> Chan.closed (Select.stopCh s) = true) /\
                 Chan.closed (Select.stopCh s) = Select.closer_done s /\
                 Chan.buf (Select.stopCh s) = []).
  { induction Hreach as [|s s' _ IH [a Ha]].
    - simpl. split; [reflexivity|]. split; [discriminate|]. split; reflexivity.
    - destruct IH as (Hl & Hr & Hc & Hb).
      unfold Select.step_fn in Ha.
      destruct (Select.returned s) eqn:Er; [discriminate|].
      destruct a.
      + destruct (Select.closer_done s) eqn:Ed; [discriminate|].
        unfold Chan.close in Ha. rewrite Hc in Ha.
        inversion Ha; subst s'; clear Ha. simpl.
        split; [exact Hl|]. split; [discriminate|]. split; [reflexivity|exact Hb].
      + unfold Select.try_recv, Chan.recv in Ha. rewrite Hb in Ha.
        destruct (Chan.closed (Select.stopCh s)) eqn:Ecl;
          inversion Ha; subst s'; clear Ha;
          cbn [Select.lines Select.work Select.returned Select.stopCh
               Select.closer_done Chan.closed Chan.buf].
        * rewrite Hl, app_nil_r.
          split; [reflexivity|]. split; [intros _; exact Ecl|].
          split; [rewrite <- Hc; exact Ecl|exact Hb].
        * rewrite Hl, !app_nil_r, seq_S, map_app. cbn [map Nat.add].
          split; [reflexivity|]. split; [discriminate|].
          split; [rewrite <- Hc; exact Ecl|exact Hb]. }
  destruct Hinv as (Hl & Hr & Hc & Hb).
  split; [exact Hl|]. split; [exact Hr|]. split.
  - intros a m. unfold Select.step_fn.
    destruct (Select.returned s); [discriminate|].
    destruct a.
    + destruct (Select.closer_done s) eqn:Ed; [discriminate|].
      unfold Chan.close. rewrite Hc. discriminate.
    + unfold Select.try_recv, Chan.recv. rewrite Hb.
      destruct (Chan.closed (Select.stopCh s)); discriminate.
  - intros Hcl Hret. unfold Select.step_fn. rewrite Hret.
    unfold Select.try_recv, Chan.recv. rewrite Hb, Hcl.
    eexists. split; [reflexivity|]. simpl. repeat split.
Qed.

(** One round of work, the close of [stopCh], and the round that sees
    it. *)
Lemma stop_signal_loop_witness :
  Select.reachable
    (Select.mkState (Chan.mk [] 0 true) true 1
                    ["Working... 1"; "Stop signal received. Shutting down."] true) /\
  (true = true -> Chan.closed (Chan.mk (@nil unit) 0 true) = true).
Proof.
  assert (Select.reachable
            (Select.mkState (Chan.mk [] 0 true) true 1
               ["Working... 1"; "Stop signal received. Shutting down."] true)) as R.
  { apply Select.reach_step
      with (s := Select.mkState (Chan.mk [] 0 true) true 1 ["Working... 1"] false);
      [|exists Select.Loop; reflexivity].
    apply Select.reach_step
      with (s := Select.mkState (Chan.make 0) false 1 ["Working... 1"] false);
      [|exists Select.Closer; reflexivity].
    apply Select.reach_step with (s := Select.init);
      [|exists Select.Loop; reflexivity].
    constructor. }
  split; [exact R|].
  destruct (stop_signal_loop R) as (_ & C & _). exact C.
Defined.

(* ================================================================== *)
(** ** Method calls through a nil pointer *)
(* ================================================================== *)

(** X6 -- The nil check and the call of [Error].  Whenever the result of
    [doWorkFixed] is not nil, its [Error] method returns "work failed".
    The result of [doWork] is never nil, yet its [Error] method returns
    only when [fail] is true: on [doWork(false)] it panics on the nil
    pointer.  The check of [checkNilInterface] (nil, or holding a nil
    [*CustomError]) tells failure from success for both functions. *)
Theorem nil_check_and_error_call :
  (forall fail,
      NilIface.is_nil (NilIface.doWorkFixed fail) = false ->
      NilCalls.Error (NilIface.doWorkFixed fail) = Completed "work failed") /\
  (forall fail,
      NilCalls.Error (NilIface.doWork fail)
      = if fail then Completed "work failed"
        else Panics "invalid memory address or nil pointer dereference") /\
  (forall fail,
      NilIface.is_nil (NilIface.doWork fail)
      || NilCalls.holds_nil_CustomError (NilIface.doWork fail) = negb fail) /\
  (forall fail,
      NilIface.is_nil (NilIface.doWorkFixed fail)
      || NilCalls.holds_nil_CustomError (NilIface.doWorkFixed fail) = negb fail) /\
  NilCalls.checkNilInterface
  = ["err == nil: false"; "Interface holds nil *CustomError"].
Proof.
  repeat split; intros []; try reflexivity; discriminate.
Qed.

(* ================================================================== *)
(** ** Deferred calls *)
(* ================================================================== *)

Lemma unwind_prints (ls : list string) (ds : list Defer.deferred)
      (e : GoPanic.ending unit) (o : list string) :
  Defer.unwind (map Defer.DPrintln ls ++ ds) e o = Defer.unwind ds e (o ++ ls).
Proof.
  revert o. induction ls as [|l ls IH]; intros o; simpl.
  - now rewrite app_nil_r.
  - rewrite IH. now rewrite <- app_assoc.
Qed.

Lemma exec_defer_prints (ls : list string) (rest : list Defer.stmt)
      (ds : list Defer.deferred) (o : list string) :
  Defer.exec (map (fun l => Defer.Defer (Defer.DPrintln l)) ls ++ rest) ds o
  = Defer.exec rest (map Defer.DPrintln (rev ls) ++ ds) o.
Proof.
  revert ds. induction ls as [|l ls IH]; intros ds; simpl; [reflexivity|].
  rewrite IH, map_app, <- app_assoc. reflexivity.
Qed.

Lemma unwind_recover_last (h : GoPanic.pvalue -> GoPanic.Exec unit)
      (ds : list Defer.deferred) (e : GoPanic.ending unit) (o : list string) :
  (forall v o1, exists o2, h v o1 = (GoPanic.Returns tt, o2)) ->
  exists o', Defer.unwind (ds ++ [Defer.DRecover h]) e o = (GoPanic.Returns tt, o').
Proof.
  intros Hh. revert e o. induction ds as [|d ds IH]; intros e o; simpl.
  - destruct e as [[]|v]; [eauto|].
    destruct (Hh v o) as [o2 ->]. eauto.
  - destruct d as [l|f|h'].
    + apply IH.
    + destruct (f o) as [[u|v] o']; apply IH.
    + destruct e as [u|v]; [apply IH|].
      destruct (h' v o) as [[u|v'] o']; apply IH.
Qed.

Lemma exec_recover_last (h : GoPanic.pvalue -> GoPanic.Exec unit)
      (body : list Defer.stmt) (ds : list Defer.deferred) (o : list string) :
  (forall v o1, exists o2, h v o1 = (GoPanic.Returns tt, o2)) ->
  exists o', Defer.exec body (ds ++ [Defer.DRecover h]) o = (GoPanic.Returns tt, o').
Proof.
  intros Hh. revert ds o. induction body as [|st body IH]; intros ds o; simpl.
  - now apply unwind_recover_last.
  - destruct st as [l|d|f|v].
    + apply IH.
    + apply (IH (d :: ds)).
    + destruct (f o) as [[u|v] o']; [apply IH|now apply unwind_recover_last].
    + now apply unwind_recover_last.
Qed.

(** X7 -- The program of the defer and panic demonstration ends in
    section 10.  The panic "boom" of the anonymous function there is not
    recovered: after its two deferred prints, the deferred calls of [main]
    run, the most recent first (the loop values 2, 1, 0, the x captured as
    10, the three cleanup steps, [closeFile]), and the program ends with
    that panic; nothing of sections 11 to 14 is printed.  When
    [os.Create] fails, [main] panics with that error after its first line,
    with no deferred call to run. *)
Theorem main_ends_in_section_10 :
  (forall o,
      Defer.main None o
      = (GoPanic.Panicking (GoPanic.PString "boom"),
         (o ++ ["1. Opening a file...";
                "2. Writing data...";
                "--- Stacked Defers ---";
                "--- Panic Protection ---";
                "   -> About to panic...";
                "   [RECOVERED] Caught a panic: Something went terribly wrong!";
                "4. Main function continues... Program did not crash!";
                "--- Defer Argument Evaluation ---";
                "Current x = 20";
                "--- Defer Inside Loop ---";
                "--- recover() Scope ---";
                "Recovered panic: panic inside anonymous function";
                "--- recover() and Goroutines ---";
                "Panics must be recovered in the SAME goroutine";
                "--- Defers During Panic ---";
                "Deferred 2";
                "Deferred 1";
                "Deferred loop value: 2";
                "Deferred loop value: 1";
                "Deferred loop value: 0";
                "Deferred x = 10";
                "Cleanup Step 3 (Runs First)";
                "Cleanup Step 2 (Runs Second)";
                "Cleanup Step 1 (Runs Last)";
                "3. Defer Triggered: Closing file now."])%list)) /\
  (forall e o,
      Defer.main (Some e) o
      = (GoPanic.Panicking (GoPanic.PString e),
         (o ++ ["1. Opening a file..."])%list)).
Proof.
  split.
  - intros o. unfold Defer.main, Defer.func. simpl.
    unfold GoPanic.safeExecute, GoPanic.deferred_recover, GoPanic.bind,
      GoPanic.println, GoPanic.panic, Defer.closeFile. simpl.
    repeat rewrite <- app_assoc. reflexivity.
  - intros e o. reflexivity.
Qed.

(** X8 -- A function that first defers a recover whose handler returns
    never panics: whatever the rest of its body does (prints, further
    deferred calls, calls that panic, panics of its own), the function
    returns normally, as [safeExecute] does. *)
Theorem recover_first_never_panics :
  forall (h : GoPanic.pvalue -> GoPanic.Exec unit) (body : list Defer.stmt)
         (o : list string),
    (forall v o1, exists o2, h v o1 = (GoPanic.Returns tt, o2)) ->
    exists o',
      Defer.func (Defer.Defer (Defer.DRecover h) :: body) o
      = (GoPanic.Returns tt, o').
Proof.
  intros h body o Hh. unfold Defer.func. simpl.
  exact (@exec_recover_last h body [] o Hh).
Qed.

(** The body of [safeExecute], with its handler that prints the value
    recovered. *)
Lemma recover_first_never_panics_witness :
  exists o',
    Defer.func
      [Defer.Defer (Defer.DRecover
                      (fun r => GoPanic.println
                                  ("   [RECOVERED] Caught a panic: " ++ GoPanic.show r)));
       Defer.Println "   -> About to panic...";
       Defer.Panic (GoPanic.PString "Something went terribly wrong!")] []
    = (GoPanic.Returns tt, o').
Proof.
  apply recover_first_never_panics.
  intros v o1. eexists. reflexivity.
Defined.

(** X9 -- Deferred prints run last in, first out.  A function that only
    defers prints returns after printing their lines in reverse order;
    if it then panics, the same lines are printed and the panic goes on to
    the caller.  The loop that defers the print of its counter [n] times
    prints the counters from [n - 1] down to 0. *)
Theorem deferred_prints_lifo :
  forall (ls : list string) (v : GoPanic.pvalue) (n : nat) (o : list string),
    Defer.func (map (fun l => Defer.Defer (Defer.DPrintln l)) ls) o
    = (GoPanic.Returns tt, (o ++ rev ls)%list) /\
    Defer.func (map (fun l => Defer.Defer (Defer.DPrintln l)) ls ++ [Defer.Panic v]) o
    = (GoPanic.Panicking v, (o ++ rev ls)%list) /\
    Defer.func (Defer.defer_loop n) o
    = (GoPanic.Returns tt,
       (o ++ map (fun i => ("Deferred loop value: " ++ dec i)%string)
                 (rev (seq 0 n)))%list).
Proof.
  intros ls v n o. unfold Defer.func.
  assert (forall ls', Defer.exec (map (fun l => Defer.Defer (Defer.DPrintln l)) ls') [] o
                      = (GoPanic.Returns tt, (o ++ rev ls')%list)) as Hret.
  { intros ls'.
    rewrite <- (app_nil_r (map _ ls')), exec_defer_prints.
    cbn [Defer.exec]. rewrite unwind_prints. reflexivity. }
  split; [apply Hret|]. split.
  - rewrite exec_defer_prints.
    cbn [Defer.exec]. rewrite unwind_prints. reflexivity.
  - unfold Defer.defer_loop.
    rewrite <- (map_map (fun i => ("Deferred loop value: " ++ dec i)%string)
                        (fun l => Defer.Defer (Defer.DPrintln l))).
    rewrite Hret, map_rev. reflexivity.
Qed.

(* ================================================================== *)
(** ** Sums over a list of goroutines *)
(* ================================================================== *)

Section SumFacts.
Variable A : Type.
Variable f : A -> nat.

Lemma sum_update (k : nat) (v old : A) (l : list A) :
  nth_error l k = Some old ->
  list_sum (map f (update k v l)) + f old = list_sum (map f l) + f v.
Proof.
  revert k. induction l as [|h t IH]; intros [|k] Hk; simpl in *; try discriminate.
  - injection Hk as ->. lia.
  - specialize (IH k Hk). lia.
Qed.

Lemma sum_snoc (a : A) (l : list A) :
  list_sum (map f (l ++ [a])) = list_sum (map f l) + f a.
Proof. rewrite map_app, list_sum_app. simpl. lia. Qed.

Lemma sum_member (k : nat) (a : A) (l : list A) :
  nth_error l k = Some a -> f a <= list_sum (map f l).
Proof.
  revert k. induction l as [|h t IH]; intros [|k] Hk; simpl in *; try discriminate.
  - injection Hk as ->. lia.
  - specialize (IH k Hk). lia.
Qed.

Lemma sum_two_members (k k' : nat) (a b : A) (l : list A) :
  k <> k' -> nth_error l k = Some a -> nth_error l k' = Some b ->
  f a + f b <= list_sum (map f l).
Proof.
  revert k k'. induction l as [|h t IH]; intros [|k] [|k'] Hne Hk Hk';
    simpl in *; try discriminate; try congruence.
  - injection Hk as ->. pose proof (sum_member _ _ Hk'). lia.
  - injection Hk' as ->. pose proof (sum_member _ _ Hk). lia.
  - assert (k <> k') as Hne' by congruence.
    specialize (IH k k' Hne' Hk Hk'). lia.
Qed.

Lemma sum_positive (l : list A) :
  0 < list_sum (map f l) -> exists k a, nth_error l k = Some a /\ 0 < f a.
Proof.
  induction l as [|h t IH]; simpl; intros Hpos; [lia|].
  destruct (f h) as [|p] eqn:E.
  - destruct (IH Hpos) as (k & a & Hk & Ha). exists (S k), a. auto.
  - exists 0, h. split; [reflexivity|lia].
Qed.

Lemma sum_zero (l : list A) :
  list_sum (map f l) = 0 -> forall a, In a l -> f a = 0.
Proof.
  induction l as [|h t IH]; simpl; intros Hz a Ha; [contradiction|].
  destruct Ha as [->|Ha]; [lia|]. apply IH; [lia|exact Ha].
Qed.

End SumFacts.

Lemma nth_error_update_inv (A : Type) (k k' : nat) (v g : A) (l : list A) :
  nth_error (update k v l) k' = Some g ->
  (k' = k /\ g = v) \/ (k' <> k /\ nth_error l k' = Some g).
Proof.
  intros H. destruct (Nat.eq_dec k' k) as [->|Hne].
  - left. split; [reflexivity|].
    assert (k < length l) as Hlt.
    { rewrite <- (update_length k v l). apply nth_error_Some. congruence. }
    rewrite (@nth_error_update_same _ k v l Hlt) in H. congruence.
  - right. split; [exact Hne|].
    rewrite nth_error_update_other in H by congruence. exact H.
Qed.

Lemma nth_error_snoc_inv (A : Type) (k : nat) (a g : A) (l : list A) :
  nth_error (l ++ [a]) k = Some g ->
  nth_error l k = Some g \/ g = a.
Proof.
  intros H. destruct (Nat.lt_ge_cases k (length l)) as [Hlt|Hge].
  - left. now rewrite nth_error_app1 in H.
  - right. rewrite nth_error_app2 in H by exact Hge.
    destruct (k - length l) as [|[|p]]; simpl in H; congruence.
Qed.

Lemma wrap_succ (a : Z) : Int64.wrap (Int64.wrap a + 1) = Int64.wrap (a + 1).
Proof.
  unfold Int64.wrap.
  replace ((a + 2 ^ 63) mod 2 ^ 64 - 2 ^ 63 + 1 + 2 ^ 63)%Z
    with ((a + 2 ^ 63) mod 2 ^ 64 + 1)%Z by lia.
  replace (a + 1 + 2 ^ 63)%Z with ((a + 2 ^ 63) + 1)%Z by lia.
  now rewrite Zplus_mod_idemp_l.
Qed.

Lemma steps_bound (state : Type) (step : state -> state -> Prop)
      (measure : state -> nat) :
  (forall s s', step s s' -> measure s' < measure s) ->
  forall n s s', steps step n s s' -> n + measure s' <= measure s.
Proof.
  intros Hdec n s s' Hs. induction Hs as [s|n s s1 s2 H1 _ IH]; [lia|].
  specialize (Hdec _ _ H1). lia.
Qed.

(* ================================================================== *)
(** ** The counter under concurrent increments *)
(* ================================================================== *)

Section CounterFacts.
Variables n m : nat.

Local Abbreviation cstep_fn := (Counter.step_fn n m).
Local Abbreviation cinv := (Counter.inv n m).
Local Abbreviation crit := (fun g => if Counter.in_critical g then 1 else 0).
Local Abbreviation alive := (fun g => if Counter.live g then 1 else 0).

Lemma counter_inv_init : cinv (Counter.init).
Proof.
  constructor; simpl; try reflexivity; try lia;
    intros [|k]; intros; discriminate.
Qed.

Lemma all_exited (l : list Counter.g_pc) :
  list_sum (map alive l) = 0 ->
  list_sum (map (Counter.done_of m) l) = length l * m /\
  list_sum (map crit l) = 0.
Proof.
  induction l as [|g t IH]; simpl; intros Hz; [split; reflexivity|].
  destruct g; simpl in *; try discriminate.
  destruct (IH Hz) as [-> ->]. split; lia.
Qed.

Lemma counter_inv_main s s' :
  Counter.step_main n m s = Completed s' -> cinv s -> cinv s'.
Proof.
  intros Hstep [Hmu Hld Hval Hwg Hbd Hmain].
  unfold Counter.step_main in Hstep.
  destruct (Counter.main s) as [i| | | |got] eqn:Em; try discriminate.
  - destruct Hmain as [Hlen Hi].
    destruct (i <? n) eqn:Ei; inversion Hstep; subst s'; clear Hstep.
    + apply Nat.ltb_lt in Ei.
      constructor; cbn [Counter.main Counter.mu Counter.value Counter.wg Counter.gs].
      * rewrite sum_snoc. simpl. lia.
      * intros k j r H. apply nth_error_snoc_inv in H as [H|H]; [exact (Hld _ _ _ H)|discriminate].
      * rewrite sum_snoc. simpl. now rewrite Nat.add_0_r.
      * rewrite sum_snoc. simpl. lia.
      * intros k g H. apply nth_error_snoc_inv in H as [H| ->]; [exact (Hbd _ _ H)|simpl; lia].
      * rewrite length_app. simpl. lia.
    + apply Nat.ltb_ge in Ei.
      constructor; cbn [Counter.main Counter.mu Counter.value Counter.wg Counter.gs];
        try assumption. lia.
  - destruct (Counter.wg s =? 0) eqn:Ew; inversion Hstep; subst s'; clear Hstep.
    apply Nat.eqb_eq in Ew.
    constructor; cbn [Counter.main Counter.mu Counter.value Counter.wg Counter.gs];
      try assumption. split; assumption.
  - destruct Hmain as [Hlen Hw].
    destruct (Counter.mu s) eqn:Emu; [discriminate|].
    rewrite Hw in Hwg. symmetry in Hwg.
    destruct (all_exited _ Hwg) as [Hdone _].
    assert (Counter.value s = Counter.expected n m) as Hexp.
    { rewrite Hval, Hdone, Hlen. unfold Counter.expected, Int64.mul.
      now rewrite Nat2Z.inj_mul. }
    rewrite Hexp, Z.eqb_refl in Hstep.
    inversion Hstep; subst s'; clear Hstep.
    constructor; cbn [Counter.main Counter.mu Counter.value Counter.wg Counter.gs];
      try assumption.
    + intros k j r H. rewrite <- Hexp. exact (Hld _ _ _ H).
    + now rewrite <- Hexp.
    + now rewrite Hw, Hwg.
    + split; assumption.
Qed.

Lemma counter_inv_g k s s' :
  Counter.step_g m k s = Completed s' -> cinv s -> cinv s'.
Proof.
  intros Hstep [Hmu Hld Hval Hwg Hbd Hmain].
  unfold Counter.step_g in Hstep.
  destruct (nth_error (Counter.gs s) k) as [g|] eqn:Ek; [|discriminate].
  pose proof (Hbd k g Ek) as Hj.
  pose proof (sum_update crit k) as Ucrit.
  pose proof (sum_update alive k) as Ualive.
  pose proof (sum_update (Counter.done_of m) k) as Udone.
  destruct g as [j|j|j r|j|].
  - (* at the head of the loop *)
    destruct (j <? m) eqn:Ejm.
    + destruct (Counter.mu s) eqn:Emu; [discriminate|].
      inversion Hstep; subst s'; clear Hstep.
      specialize (Ucrit (Counter.Locked j) _ _ Ek).
      specialize (Ualive (Counter.Locked j) _ _ Ek).
      specialize (Udone (Counter.Locked j) _ _ Ek).
      apply Nat.ltb_lt in Ejm.
      constructor; cbn [Counter.main Counter.mu Counter.value Counter.wg Counter.gs].
      * simpl in Ucrit. lia.
      * intros k' j' r' H. apply nth_error_update_inv in H as [[_ H]|[_ H]];
          [discriminate|exact (Hld _ _ _ H)].
      * rewrite Hval. f_equal. simpl in Udone. lia.
      * simpl in Ualive. lia.
      * intros k' g H. apply nth_error_update_inv in H as [[_ ->]|[_ H]];
          [exact Ejm|exact (Hbd _ _ H)].
      * rewrite update_length. exact Hmain.
    + destruct (Counter.wg s) as [|w] eqn:Ew; [discriminate|].
      inversion Hstep; subst s'; clear Hstep.
      specialize (Ucrit Counter.Exited _ _ Ek).
      specialize (Ualive Counter.Exited _ _ Ek).
      specialize (Udone Counter.Exited _ _ Ek).
      apply Nat.ltb_ge in Ejm.
      constructor; cbn [Counter.main Counter.mu Counter.value Counter.wg Counter.gs].
      * simpl in Ucrit. lia.
      * intros k' j' r' H. apply nth_error_update_inv in H as [[_ H]|[_ H]];
          [discriminate|exact (Hld _ _ _ H)].
      * rewrite Hval. f_equal. simpl in Udone. lia.
      * simpl in Ualive. lia.
      * intros k' g H. apply nth_error_update_inv in H as [[_ ->]|[_ H]];
          [exact I|exact (Hbd _ _ H)].
      * rewrite update_length.
        destruct (Counter.main s); try exact Hmain.
        -- destruct Hmain; split; [assumption|discriminate].
        -- destruct Hmain; split; [assumption|discriminate].
  - (* the mutex is held: read the value *)
    inversion Hstep; subst s'; clear Hstep.
    specialize (Ucrit (Counter.Loaded j (Counter.value s)) _ _ Ek).
    specialize (Ualive (Counter.Loaded j (Counter.value s)) _ _ Ek).
    specialize (Udone (Counter.Loaded j (Counter.value s)) _ _ Ek).
    constructor; cbn [Counter.main Counter.mu Counter.value Counter.wg Counter.gs].
    * simpl in Ucrit. lia.
    * intros k' j' r' H. apply nth_error_update_inv in H as [[_ H]|[_ H]];
        [congruence|exact (Hld _ _ _ H)].
    * rewrite Hval at 1. f_equal. simpl in Udone. lia.
    * simpl in Ualive. lia.
    * intros k' g H. apply nth_error_update_inv in H as [[_ ->]|[_ H]];
        [exact Hj|exact (Hbd _ _ H)].
    * rewrite update_length. exact Hmain.
  - (* store the value read plus one *)
    inversion Hstep; subst s'; clear Hstep.
    specialize (Ucrit (Counter.Stored j) _ _ Ek).
    specialize (Ualive (Counter.Stored j) _ _ Ek).
    specialize (Udone (Counter.Stored j) _ _ Ek).
    constructor; cbn [Counter.main Counter.mu Counter.value Counter.wg Counter.gs].
    * simpl in Ucrit. lia.
    * intros k' j' r' H. apply nth_error_update_inv in H as [[_ H]|[Hne H]];
        [discriminate|].
      exfalso.
      pose proof (@sum_two_members _ crit k k' _ _ (Counter.gs s)
                    (fun E => Hne (eq_sym E)) Ek H) as Htwo.
      simpl in Htwo. destruct (Counter.mu s); lia.
    * rewrite (Hld _ _ _ Ek), Hval, wrap_succ. f_equal. simpl in Udone. lia.
    * simpl in Ualive. lia.
    * intros k' g H. apply nth_error_update_inv in H as [[_ ->]|[_ H]];
        [exact Hj|exact (Hbd _ _ H)].
    * rewrite update_length. exact Hmain.
  - (* unlock *)
    destruct (Counter.mu s) eqn:Emu; [|discriminate].
    inversion Hstep; subst s'; clear Hstep.
    specialize (Ucrit (Counter.AtLoop (S j)) _ _ Ek).
    specialize (Ualive (Counter.AtLoop (S j)) _ _ Ek).
    specialize (Udone (Counter.AtLoop (S j)) _ _ Ek).
    constructor; cbn [Counter.main Counter.mu Counter.value Counter.wg Counter.gs].
    * simpl in Ucrit. lia.
    * intros k' j' r' H. apply nth_error_update_inv in H as [[_ H]|[_ H]];
        [discriminate|exact (Hld _ _ _ H)].
    * rewrite Hval. f_equal. simpl in Udone. lia.
    * simpl in Ualive. lia.
    * intros k' g H. apply nth_error_update_inv in H as [[_ ->]|[_ H]];
        [exact Hj|exact (Hbd _ _ H)].
    * rewrite update_length. exact Hmain.
  - discriminate.
Qed.

Lemma counter_inv_step a s s' :
  cstep_fn a s = Completed s' -> cinv s -> cinv s'.
Proof.
  unfold Counter.step_fn. intros Hstep Hinv.
  destruct (Counter.main s) eqn:Em; try discriminate; destruct a;
    solve [eapply counter_inv_main; eauto | eapply counter_inv_g; eauto].
Qed.

Lemma counter_inv_reachable s : Counter.reachable n m s -> cinv s.
Proof.
  induction 1 as [|s s' _ IH [a Ha]]; [apply counter_inv_init|].
  eapply counter_inv_step; eauto.
Qed.

Lemma counter_no_panic a s msg : cinv s -> cstep_fn a s <> Panics msg.
Proof.
  intros [Hmu Hld Hval Hwg Hbd Hmain]. unfold Counter.step_fn.
  destruct (Counter.main s) eqn:Em; try discriminate; destruct a as [|k].
  all: try (unfold Counter.step_main; rewrite Em;
            repeat match goal with
                   | |- context [if ?b then _ else _] => destruct b
                   end; discriminate).
  all: unfold Counter.step_g;
    destruct (nth_error (Counter.gs s) k) as [g|] eqn:Ek; [|discriminate];
    pose proof (@sum_member _ crit k g _ Ek) as Hc;
    pose proof (@sum_member _ alive k g _ Ek) as Ha;
    destruct g as [j|j|j r|j|]; simpl in Hc, Ha; try discriminate.
  all: try (destruct (j <? m); [destruct (Counter.mu s); discriminate|];
            destruct (Counter.wg s); [lia|discriminate]).
  all: destruct (Counter.mu s); [discriminate|lia].
Qed.

Lemma counter_exclusive s k1 k2 g1 g2 :
  cinv s ->
  nth_error (Counter.gs s) k1 = Some g1 ->
  nth_error (Counter.gs s) k2 = Some g2 ->
  Counter.in_critical g1 = true -> Counter.in_critical g2 = true ->
  k1 = k2 /\ Counter.mu s = true.
Proof.
  intros [Hmu _ _ _ _ _] H1 H2 C1 C2.
  pose proof (@sum_member _ crit k1 g1 _ H1) as Hm. simpl in Hm. rewrite C1 in Hm.
  split.
  - destruct (Nat.eq_dec k1 k2) as [E|Hne]; [exact E|exfalso].
    pose proof (@sum_two_members _ crit k1 k2 g1 g2 _ Hne H1 H2) as Htwo.
    simpl in Htwo. rewrite C1, C2 in Htwo. destruct (Counter.mu s); lia.
  - destruct (Counter.mu s); [reflexivity|lia].
Qed.

Lemma counter_g_enabled s k g :
  cinv s -> nth_error (Counter.gs s) k = Some g ->
  (Counter.in_critical g = true \/ (Counter.live g = true /\ Counter.mu s = false)) ->
  exists s', Counter.step_g m k s = Completed s'.
Proof.
  intros [Hmu Hld Hval Hwg Hbd Hmain] Ek Hg. unfold Counter.step_g. rewrite Ek.
  pose proof (@sum_member _ crit k g _ Ek) as Hc.
  pose proof (@sum_member _ alive k g _ Ek) as Ha.
  destruct g as [j|j|j r|j|]; simpl in *.
  - destruct Hg as [Hg|[_ Hg]]; [discriminate|]. rewrite Hg.
    destruct (j <? m); [eauto|].
    destruct (Counter.wg s); [lia|eauto].
  - eauto.
  - eauto.
  - destruct (Counter.mu s); [eauto|]. destruct Hg as [_|[_ Hg]]; lia.
  - destruct Hg as [Hg|[Hg _]]; discriminate.
Qed.

Lemma counter_progress s :
  cinv s -> Counter.main s <> Counter.Passed ->
  exists a s', cstep_fn a s = Completed s'.
Proof.
  intros Hinv Hnp. pose proof Hinv as [Hmu Hld Hval Hwg Hbd Hmain].
  unfold Counter.step_fn.
  destruct (Counter.main s) as [i| | | |got] eqn:Em; try contradiction.
  - exists Counter.Main. unfold Counter.step_main. rewrite Em.
    destruct (i <? n); eauto.
  - destruct (Counter.wg s) as [|w] eqn:Ew.
    + exists Counter.Main. unfold Counter.step_main. rewrite Em, Ew. simpl. eauto.
    + destruct (Counter.mu s) eqn:Emu.
      * destruct (@sum_positive _ crit (Counter.gs s)) as (k & g & Ek & Hg); [lia|].
        destruct (@counter_g_enabled s k g Hinv Ek) as [s' Hs'].
        { left. simpl in Hg. destruct (Counter.in_critical g); [reflexivity|lia]. }
        exists (Counter.G k), s'. exact Hs'.
      * destruct (@sum_positive _ alive (Counter.gs s)) as (k & g & Ek & Hg); [lia|].
        destruct (@counter_g_enabled s k g Hinv Ek) as [s' Hs'].
        { right. simpl in Hg. split; [|exact Emu].
          destruct (Counter.live g); [reflexivity|lia]. }
        exists (Counter.G k), s'. exact Hs'.
  - destruct Hmain as [Hlen Hw].
    rewrite Hw in Hwg. symmetry in Hwg.
    destruct (all_exited _ Hwg) as [_ Hc]. rewrite Hc in Hmu.
    exists Counter.Main. unfold Counter.step_main. rewrite Em.
    destruct (Counter.mu s); [discriminate|].
    destruct (Counter.value s =? Counter.expected n m)%Z; eauto.
Qed.

Lemma counter_measure_g k s s' :
  Counter.step_g m k s = Completed s' ->
  Counter.main s' = Counter.main s /\
  list_sum (map (Counter.steps_left m) (Counter.gs s'))
  < list_sum (map (Counter.steps_left m) (Counter.gs s)).
Proof.
  unfold Counter.step_g. intros Hstep.
  destruct (nth_error (Counter.gs s) k) as [g|] eqn:Ek; [|discriminate].
  pose proof (sum_update (Counter.steps_left m) k) as U.
  destruct g as [j|j|j r|j|]; try discriminate.
  - destruct (j <? m) eqn:Ej.
    + apply Nat.ltb_lt in Ej.
      destruct (Counter.mu s); [discriminate|].
      inversion Hstep; subst s'; clear Hstep. split; [reflexivity|].
      specialize (U (Counter.Locked j) _ _ Ek).
      cbn [Counter.gs]. simpl in U. lia.
    + destruct (Counter.wg s); [discriminate|].
      inversion Hstep; subst s'; clear Hstep. split; [reflexivity|].
      specialize (U Counter.Exited _ _ Ek).
      cbn [Counter.gs]. simpl in U. lia.
  - inversion Hstep; subst s'; clear Hstep. split; [reflexivity|].
    specialize (U (Counter.Loaded j (Counter.value s)) _ _ Ek).
    cbn [Counter.gs]. simpl in U. lia.
  - inversion Hstep; subst s'; clear Hstep. split; [reflexivity|].
    specialize (U (Counter.Stored j) _ _ Ek).
    cbn [Counter.gs]. simpl in U. lia.
  - destruct (Counter.mu s); [|discriminate].
    inversion Hstep; subst s'; clear Hstep. split; [reflexivity|].
    specialize (U (Counter.AtLoop (S j)) _ _ Ek).
    cbn [Counter.gs]. simpl in U. lia.
Qed.

Lemma counter_measure_step a s s' :
  cstep_fn a s = Completed s' -> Counter.measure n m s' < Counter.measure n m s.
Proof.
  unfold Counter.step_fn, Counter.measure. intros Hstep.
  destruct (Counter.main s) as [i| | | |got] eqn:Em; try discriminate;
    destruct a as [|k].
  all: try (unfold Counter.step_main in Hstep; rewrite Em in Hstep).
  all: try (destruct (counter_measure_g _ _ Hstep) as [-> Hlt]; rewrite Em; lia).
  - destruct (i <? n) eqn:Ei; inversion Hstep; subst s'; clear Hstep;
      cbn [Counter.main Counter.gs].
    + apply Nat.ltb_lt in Ei. rewrite sum_snoc. simpl Counter.steps_left.
      replace (n - i) with (S (n - S i)) by lia. nia.
    + nia.
  - destruct (Counter.wg s =? 0); inversion Hstep; subst s'; clear Hstep.
    cbn [Counter.main Counter.gs]. lia.
  - destruct (Counter.mu s); [discriminate|].
    destruct (Counter.value s =? Counter.expected n m)%Z;
      inversion Hstep; subst s'; clear Hstep; cbn [Counter.main Counter.gs]; lia.
Qed.

Lemma counter_run_reachable sched s :
  Counter.reachable n m s -> Counter.reachable n m (fst (Counter.run n m sched s)).
Proof.
  revert s. induction sched as [|a sched IH]; intros s Hs; simpl; [exact Hs|].
  destruct (cstep_fn a s) as [s'| |msg] eqn:E; simpl; auto.
  apply IH. econstructor; [exact Hs|]. now exists a.
Qed.

End CounterFacts.

(** X10 -- Mutual exclusion in the counter.  In every state of every
    execution of the test, at most one goroutine is between the [Lock] and
    the [Unlock] of [Inc], the mutex is locked whenever one is, and a
    goroutine that has read [c.value] and not yet stored it still holds the
    current value: no increment is lost. *)
Theorem counter_mutual_exclusion :
  forall (n m : nat) (s : Counter.state),
    Counter.reachable n m s ->
    (forall k1 k2 g1 g2,
        nth_error (Counter.gs s) k1 = Some g1 ->
        nth_error (Counter.gs s) k2 = Some g2 ->
        Counter.in_critical g1 = true -> Counter.in_critical g2 = true ->
        k1 = k2 /\ Counter.mu s = true) /\
    (forall k j r,
        nth_error (Counter.gs s) k = Some (Counter.Loaded j r) ->
        r = Counter.value s) /\
    Counter.value s
    = Int64.wrap (Z.of_nat (list_sum (map (Counter.done_of m) (Counter.gs s)))).
Proof.
  intros n m s Hreach. pose proof (counter_inv_reachable Hreach) as Hinv.
  split; [intros k1 k2 g1 g2; exact (@counter_exclusive n m s k1 k2 g1 g2 Hinv)|].
  split; [exact (Counter.inv_loaded Hinv)|exact (Counter.inv_value Hinv)].
Qed.

(** A run of three goroutines of two increments each, stopped while the
    first goroutine has read the counter in its second increment. *)
Lemma counter_mutual_exclusion_witness :
  Counter.reachable 3 2 (fst (Counter.run 3 2 (Counter.round_robin 3 12) Counter.init)) /\
  nth_error (Counter.gs (fst (Counter.run 3 2 (Counter.round_robin 3 12) Counter.init))) 0
  = Some (Counter.Loaded 1 3) /\
  Counter.value (fst (Counter.run 3 2 (Counter.round_robin 3 12) Counter.init)) = 3%Z.
Proof.
  assert (Counter.reachable 3 2
            (fst (Counter.run 3 2 (Counter.round_robin 3 12) Counter.init))) as R
    by (apply counter_run_reachable; constructor).
  split; [exact R|]. split; [reflexivity|].
  destruct (counter_mutual_exclusion R) as (_ & L & _).
  symmetry. exact (L 0 1 3%Z eq_refl).
Defined.

(** X11 -- The concurrent increment test passes under every schedule, for
    every number of goroutines and of increments: no execution reaches
    [t.Fatalf], no step panics (the WaitGroup counter never goes negative
    and no unlocked mutex is unlocked), and when the test has compared the
    counter, it holds [numGoroutines * incrementsPerG], computed on 64
    bits. *)
Theorem counter_test_passes :
  forall (n m : nat) (s : Counter.state),
    Counter.reachable n m s ->
    (forall got, Counter.main s <> Counter.Failed got) /\
    (forall a msg, Counter.step_fn n m a s <> Panics msg) /\
    (Counter.main s = Counter.Passed ->
     Counter.value s = Counter.expected n m /\
     Forall (fun g => g = Counter.Exited) (Counter.gs s) /\
     length (Counter.gs s) = n /\
     ((Z.of_nat n * Z.of_nat m <= Int64.max_int)%Z ->
      Counter.value s = (Z.of_nat n * Z.of_nat m)%Z)).
Proof.
  intros n m s Hreach. pose proof (counter_inv_reachable Hreach) as Hinv.
  split.
  { intros got E. pose proof (Counter.inv_main Hinv) as H. now rewrite E in H. }
  split; [intros a msg; exact (@counter_no_panic n m a s msg Hinv)|].
  intros E. pose proof (Counter.inv_main Hinv) as H. rewrite E in H.
  destruct H as [Hlen Hw].
  pose proof (Counter.inv_wg Hinv) as Hwg. rewrite Hw in Hwg. symmetry in Hwg.
  destruct (@all_exited m _ Hwg) as [Hdone _].
  assert (Counter.value s = Counter.expected n m) as Hexp.
  { rewrite (Counter.inv_value Hinv), Hdone, Hlen.
    unfold Counter.expected, Int64.mul. now rewrite Nat2Z.inj_mul. }
  split; [exact Hexp|]. split.
  { apply Forall_forall. intros g Hg.
    pose proof (@sum_zero _ (fun g => if Counter.live g then 1 else 0) _ Hwg g Hg) as Hl.
    simpl in Hl. destruct g; simpl in Hl; try discriminate. reflexivity. }
  split; [exact Hlen|].
  intros Hsmall. rewrite Hexp. unfold Counter.expected, Int64.mul, Int64.wrap.
  unfold Int64.max_int in Hsmall.
  rewrite Z.mod_small by lia. lia.
Qed.

(** The test with three goroutines of two increments each, run to the
    end: the counter holds 6. *)
Lemma counter_test_passes_witness :
  Counter.reachable 3 2 (fst Counter.small_run) /\
  Counter.main (fst Counter.small_run) = Counter.Passed /\
  Counter.value (fst Counter.small_run) = 6%Z.
Proof.
  assert (Counter.reachable 3 2 (fst Counter.small_run)) as R
    by (apply counter_run_reachable; constructor).
  split; [exact R|]. split; [reflexivity|].
  destruct (counter_test_passes R) as (_ & _ & P).
  destruct (P eq_refl) as (_ & _ & _ & V).
  apply V. unfold Int64.max_int. simpl. lia.
Defined.

(** X12 -- The concurrent increment test cannot hang and always ends.  As
    long as the test function has not returned, some goroutine can take a
    step (there is no deadlock on the mutex or on the WaitGroup), and
    every execution from a state of the test has at most as many steps as
    the measure of that state; from the start that is
    [numGoroutines * (4 * incrementsPerG + 2) + 3]. *)
Theorem counter_test_terminates :
  forall (n m : nat) (s : Counter.state),
    Counter.reachable n m s ->
    (Counter.main s <> Counter.Passed ->
     exists a s', Counter.step_fn n m a s = Completed s') /\
    (forall k s', steps (Counter.step n m) k s s' ->
                  k + Counter.measure n m s' <= Counter.measure n m s) /\
    Counter.measure n m Counter.init = n * (4 * m + 2) + 3.
Proof.
  intros n m s Hreach. pose proof (counter_inv_reachable Hreach) as Hinv.
  split; [exact (@counter_progress n m s Hinv)|]. split.
  - intros k s' Hs.
    refine (@steps_bound _ (Counter.step n m) (Counter.measure n m) _ k s s' Hs).
    intros s1 s2 [a Ha]. exact (@counter_measure_step n m a s1 s2 Ha).
  - unfold Counter.measure. simpl. lia.
Qed.

(** The same test: no execution of it has more than 33 steps. *)
Lemma counter_test_terminates_witness :
  Counter.reachable 3 2 (fst Counter.small_run) /\
  Counter.measure 3 2 Counter.init = 33.
Proof.
  assert (Counter.reachable 3 2 (fst Counter.small_run)) as R
    by (apply counter_run_reachable; constructor).
  split; [exact R|].
  destruct (counter_test_terminates R) as (_ & _ & M). exact M.
Defined.

(* ================================================================== *)
(** ** Producer and consumer: termination *)
(* ================================================================== *)

Lemma pc_len_bounded capacity count s :
  ProdCons.reachable capacity count s ->
  Chan.len (ProdCons.ch s) <= Chan.cap (ProdCons.ch s).
Proof.
  induction 1 as [|s s' _ IH [a Ha]]; [simpl; unfold Chan.len; simpl; lia|].
  unfold ProdCons.step_fn in Ha.
  destruct (ProdCons.consumer s); [|discriminate].
  destruct a.
  - destruct (ProdCons.producer s) as [i|]; [|discriminate].
    destruct (i <=? count).
    + destruct (Chan.send i (ProdCons.ch s)) as [c| |] eqn:E; try discriminate.
      apply send_completed in E as (_ & Hlt & ->).
      inversion Ha; subst s'; simpl. unfold Chan.len in *. simpl.
      rewrite length_app. simpl. lia.
    + destruct (Chan.close (ProdCons.ch s)) as [c| |] eqn:E; try discriminate.
      apply close_completed in E as (_ & ->).
      inversion Ha; subst s'; simpl. exact IH.
  - destruct (Chan.recv (ProdCons.ch s)) as [[[v|] c]| |] eqn:E; try discriminate.
    + apply recv_some in E as (Hb & Hc & _).
      inversion Ha; subst s'; simpl. unfold Chan.len in *.
      rewrite Hb in IH. simpl in IH. lia.
    + apply recv_none in E as (_ & _ & ->).
      inversion Ha; subst s'; simpl. exact IH.
Qed.

(** X13 -- The producer and the consumer over a buffered channel always
    finish.  For every capacity of at least one and every number of values:
    while the consumer is in its loop some goroutine can take a step (the
    producer blocked on a full channel is freed by the consumer, the
    consumer on an empty one by the producer or by the close); every
    execution from a state has at most as many steps as its measure,
    [2 * count + 2] from the start; the channel never holds more than its
    capacity; and the values processed so far are always an initial part of
    [1 .. count]. *)
Theorem producer_consumer_terminates :
  forall (capacity count : nat) (s : ProdCons.state),
    1 <= capacity ->
    ProdCons.reachable capacity count s ->
    (ProdCons.consumer s <> ProdCons.ConsumerDone ->
     exists a s', ProdCons.step_fn count a s = Completed s') /\
    (forall k s', steps (ProdCons.step count) k s s' ->
                  k + ProdCons.measure count s' <= ProdCons.measure count s) /\
    ProdCons.measure count (ProdCons.init capacity) = 2 * count + 2 /\
    Chan.len (ProdCons.ch s) <= capacity /\
    (exists rest, seq 1 count = (ProdCons.processed s ++ rest)%list).
Proof.
  intros capacity count s Hcap Hreach.
  pose proof (pc_inv_reachable Hreach) as Hinv.
  split; [exact (@pc_progress capacity count s Hcap Hinv)|].
  split.
  { intros k s' Hs.
    refine (@steps_bound _ (ProdCons.step count) (ProdCons.measure count) _ k s s' Hs).
    intros s1 s2 [a Ha]. exact (@pc_measure_step count a s1 s2 Ha). }
  split; [unfold ProdCons.measure, Chan.len; simpl; lia|].
  pose proof (pc_len_bounded Hreach) as Hlen.
  destruct Hinv as (Hc & Hflow & Hp & _).
  split; [now rewrite <- Hc|].
  assert (ProdCons.sent count s <= count) as Hsent.
  { unfold ProdCons.sent. destruct (ProdCons.producer s); lia. }
  exists (Chan.buf (ProdCons.ch s)
          ++ seq (1 + ProdCons.sent count s) (count - ProdCons.sent count s))%list.
  rewrite app_assoc, Hflow, <- seq_app. f_equal. lia.
Qed.

(** The program of the source, with its channel of capacity 5 and its
    three values, run to the end. *)
Lemma producer_consumer_terminates_witness :
  1 <= 5 /\
  ProdCons.reachable 5 3 (fst ProdCons.source_run) /\
  ProdCons.measure 3 (ProdCons.init 5) = 8.
Proof.
  assert (ProdCons.reachable 5 3 (fst ProdCons.source_run)) as R
    by (apply pc_run_reachable; constructor).
  assert (1 <= 5) as H by lia.
  split; [exact H|]. split; [exact R|].
  destruct (producer_consumer_terminates H R) as (_ & _ & M & _). exact M.
Defined.

(* ================================================================== *)
(** ** The worker pool: blocking, order of the output, exit *)
(* ================================================================== *)

Lemma held_in_flight (ws : list Pool.worker_pc) (k : nat) (job : Pool.Job) :
  nth_error ws k = Some (Pool.Working job) ->
  1 <= length (flat_map Pool.held_of ws).
Proof.
  revert k. induction ws as [|w ws IH]; intros [|k] H; simpl in *; try discriminate.
  - injection H as ->. simpl. lia.
  - rewrite length_app. specialize (IH k H). lia.
Qed.

(** X14 -- In the worker pool no send ever blocks.  Both channels have
    room for [numJobs] values: in every state the jobs queue and the
    results queue hold at most [numJobs] values, so [main] sending a job
    (or closing the queue) always completes, and so does a worker sending
    the result of the job it holds.  The producer is never held back. *)
Theorem pool_sends_never_block :
  forall (nW nJ : nat) (s : Pool.state),
    Pool.reachable nW nJ Pool.sleep s ->
    Chan.len (Pool.jobs s) <= nJ /\
    Chan.len (Pool.results s) <= nJ /\
    (forall j, Pool.main s = Pool.Producing j ->
               exists s', Pool.step_fn nW nJ Pool.sleep Pool.Main s = Completed s') /\
    (forall k job,
        Pool.main s <> Pool.Finished ->
        nth_error (Pool.workers s) k = Some (Pool.Working job) ->
        exists s', Pool.step_fn nW nJ Pool.sleep (Pool.Worker k) s = Completed s').
Proof.
  intros nW nJ s Hreach. pose proof (inv_reachable Hreach) as Hinv.
  destruct (inv_counts Hinv) as [Hc1 Hc2].
  pose proof (submitted_length nJ s) as Hsl.
  pose proof (Pool.inv_pc Hinv) as Hpc.
  assert (length (Pool.submitted nJ s) <= nJ) as Hsub.
  { rewrite Hsl. destruct (Pool.main s); simpl in Hpc; lia. }
  split; [lia|]. split; [lia|]. split.
  - intros j Ej. unfold Pool.step_fn, Pool.step_main. rewrite Ej.
    rewrite Ej in Hsl, Hpc. simpl in Hpc.
    pose proof (Pool.inv_jobs_closed Hinv) as Hcl. rewrite Ej in Hcl. simpl in Hcl.
    destruct (j <=? nJ) eqn:Ejn.
    + apply Nat.leb_le in Ejn.
      rewrite send_open; [eauto|exact Hcl|].
      rewrite (Pool.inv_cap_jobs Hinv). lia.
    + unfold Chan.close. rewrite Hcl. eauto.
  - intros k job Hm Hk.
    assert (Pool.step_fn nW nJ Pool.sleep (Pool.Worker k) s
            = Pool.step_worker Pool.sleep k s) as ->
        by (unfold Pool.step_fn; destruct (Pool.main s); try contradiction; reflexivity).
    unfold Pool.step_worker. rewrite Hk. simpl.
    pose proof (@held_in_flight _ k job Hk) as Hheld.
    unfold Pool.in_flight in Hc2.
    rewrite send_open; [eauto|exact (Pool.inv_results_open Hinv)|].
    rewrite (Pool.inv_cap_results Hinv). lia.
Qed.

(** The source's configuration run to the end. *)
Lemma pool_sends_never_block_witness :
  Pool.reachable 3 10 Pool.sleep (fst Pool.source_run) /\
  Chan.len (Pool.jobs (fst Pool.source_run)) <= 10 /\
  Chan.len (Pool.results (fst Pool.source_run)) <= 10.
Proof.
  assert (Pool.reachable 3 10 Pool.sleep (fst Pool.source_run)) as R
    by (apply run_reachable; constructor).
  split; [exact R|].
  destruct (pool_sends_never_block R) as (J & K & _). split; assumption.
Defined.

Lemma snoc_split (A : Type) (l pre post : list A) (e x : A) :
  (l ++ [e])%list = (pre ++ x :: post)%list ->
  (post = [] /\ l = pre /\ e = x) \/
  (exists post', post = (post' ++ [e])%list /\ l = (pre ++ x :: post')%list).
Proof.
  intros H. destruct post as [|p post] using rev_ind.
  - left. change (pre ++ [x])%list with (pre ++ [x])%list in H.
    apply app_inj_tail in H as [-> ->]. auto.
  - right. clear IHpost. exists post.
    change (pre ++ x :: post ++ [p])%list with (pre ++ (x :: post) ++ [p])%list in H.
    rewrite app_assoc in H. apply app_inj_tail in H as [-> ->]. auto.
Qed.

Lemma started_event (o : list Pool.event) (job : Pool.Job) :
  In job (flat_map Pool.started_of o) -> exists w, In (Pool.EvStarted w job) o.
Proof.
  induction o as [|e o IH]; simpl; [contradiction|].
  intros H. apply in_app_or in H as [H|H].
  - destruct e; simpl in H; try contradiction.
    destruct H as [->|[]]. eauto.
  - destruct (IH H) as [w Hw]. eauto.
Qed.

(** X15 -- In the output of the worker pool a result is never printed
    before its job was announced: wherever the line of a result stands,
    some worker's "Started Job" line for the job with that identifier
    stands before it, and the result is the one made from that job. *)
Theorem pool_result_after_start :
  forall (nW nJ : nat) (s : Pool.state),
    Pool.reachable nW nJ Pool.sleep s ->
    forall pre r post,
      Pool.out s = (pre ++ Pool.EvResult r :: post)%list ->
      exists w job, In (Pool.EvStarted w job) pre /\ r = Pool.result_of job.
Proof.
  intros nW nJ s Hreach.
  induction Hreach as [|s s' Hreach IH [a Ha]].
  - intros pre r post H. simpl in H. destruct pre; discriminate.
  - pose proof (inv_reachable Hreach) as Hinv.
    apply step_trans in Ha.
    intros pre r post Hout.
    assert (Hsame : Pool.out s' = Pool.out s ->
                    exists w job, In (Pool.EvStarted w job) pre /\ r = Pool.result_of job).
    { intros E. rewrite E in Hout. eauto. }
    assert (Hother : forall e, (forall r', e <> Pool.EvResult r') ->
                               Pool.out s' = (Pool.out s ++ [e])%list ->
                    exists w job, In (Pool.EvStarted w job) pre /\ r = Pool.result_of job).
    { intros e He E. rewrite E in Hout.
      apply snoc_split in Hout as [(_ & _ & Hx)|(post' & _ & Hl)].
      - exfalso. exact (He r Hx).
      - eauto. }
    inversion Ha; subst; simpl in *;
      try (apply Hsame; reflexivity);
      try (eapply Hother; [|reflexivity]; intros; discriminate).
    + (* main prints a result *)
      apply snoc_split in Hout as [(_ & <- & Hx)|(post' & _ & Hl)]; [|eauto].
      injection Hx as <-.
      destruct (@inv_results_from_jobs nW nJ _ r0 Hinv) as (job & Hjob & ->).
      { simpl. apply in_or_app. right. rewrite H0. now left. }
      unfold Pool.started in Hjob. simpl in Hjob.
      destruct (@started_event _ _ Hjob) as [w Hw]. eauto.
    + (* the results channel is never closed *)
      pose proof (Pool.inv_results_open Hinv) as Ho. simpl in Ho. congruence.
Qed.

(** The source's configuration run to the end: the first result printed
    comes after the line that announced its job. *)
Lemma pool_result_after_start_witness :
  Pool.reachable 3 10 Pool.sleep (fst Pool.source_run) /\
  exists pre r post w job,
    Pool.out (fst Pool.source_run) = (pre ++ Pool.EvResult r :: post)%list /\
    In (Pool.EvStarted w job) pre /\ r = Pool.result_of job.
Proof.
  assert (Pool.reachable 3 10 Pool.sleep (fst Pool.source_run)) as R
    by (apply run_reachable; constructor).
  split; [exact R|].
  destruct (in_split (Pool.EvResult (Pool.mkResult 1 "Success"))
                     (Pool.out (fst Pool.source_run)))
    as (pre & post & E).
  { vm_compute. tauto. }
  destruct (pool_result_after_start R _ _ _ E) as (w & job & Hin & Hr).
  exists pre, (Pool.mkResult 1 "Success"), post, w, job. auto.
Defined.

Lemma reach_trans nW nJ work s s' :
  Pool.reachable nW nJ work s -> Pool.trans nW nJ work s s' ->
  Pool.reachable nW nJ work s'.
Proof.
  intros Hr Ht. econstructor; [exact Hr|]. exact (trans_step Ht).
Qed.

Lemma repeat_snoc (A : Type) (a : A) (k : nat) :
  (repeat a k ++ [a])%list = repeat a (S k).
Proof. induction k as [|k IH]; simpl; [reflexivity|]. now rewrite IH. Qed.

Section EarlyExit.
Variables nW nJ : nat.
Hypothesis one_worker : 1 <= nW.

Local Abbreviation all_waiting := (repeat Pool.Waiting nW).
Local Abbreviation job_list := (fun a k => map Pool.job_of (seq a k)).
Local Abbreviation reach := (Pool.reachable nW nJ Pool.sleep).

Lemma exit_spawned :
  reach (Pool.mkState (Pool.Producing 1) (Chan.make nJ) (Chan.make nJ)
                      all_waiting []).
Proof.
  assert (forall w, w <= nW ->
            reach (Pool.mkState (Pool.Spawning (S w)) (Chan.make nJ) (Chan.make nJ)
                                (repeat Pool.Waiting w) [])) as H.
  { induction w as [|w IH]; intros Hw; [constructor|].
    eapply reach_trans; [apply IH; lia|].
    rewrite <- repeat_snoc. apply Pool.T_spawn. lia. }
  eapply reach_trans; [apply (H nW); lia|].
  apply Pool.T_spawned. lia.
Qed.

Lemma exit_produced :
  reach (Pool.mkState (Pool.Collecting 1)
                      (Chan.mk (job_list 1 nJ) nJ true) (Chan.make nJ)
                      all_waiting []).
Proof.
  assert (forall j, j <= nJ ->
            reach (Pool.mkState (Pool.Producing (S j))
                                (Chan.mk (job_list 1 j) nJ false) (Chan.make nJ)
                                all_waiting [])) as H.
  { induction j as [|j IH]; intros Hj; [exact exit_spawned|].
    eapply reach_trans; [apply IH; lia|].
    rewrite seq_S, map_app. simpl.
    apply (@Pool.T_send nW nJ Pool.sleep (S j) (Chan.mk (job_list 1 j) nJ false));
      [lia|reflexivity|].
    unfold Chan.len. simpl. rewrite length_map, length_seq. lia. }
  eapply reach_trans; [apply (H nJ); lia|].
  apply (@Pool.T_close nW nJ Pool.sleep (S nJ) (Chan.mk (job_list 1 nJ) nJ false));
    [lia|reflexivity].
Qed.

Lemma update_waiting (w : Pool.worker_pc) :
  update 0 Pool.Waiting (update 0 w all_waiting) = all_waiting.
Proof. destruct nW; [lia|reflexivity]. Qed.

Lemma exit_worked :
  reach (Pool.mkState (Pool.Collecting 1)
                      (Chan.mk [] nJ true)
                      (Chan.mk (map Pool.result_of (job_list 1 nJ)) nJ false)
                      all_waiting
                      (map (Pool.EvStarted 1) (job_list 1 nJ))).
Proof.
  assert (forall j, j <= nJ ->
            reach (Pool.mkState (Pool.Collecting 1)
                                (Chan.mk (job_list (1 + j) (nJ - j)) nJ true)
                                (Chan.mk (map Pool.result_of (job_list 1 j)) nJ false)
                                all_waiting
                                (map (Pool.EvStarted 1) (job_list 1 j)))) as H.
  { induction j as [|j IH]; intros Hj.
    - simpl. rewrite Nat.sub_0_r. exact exit_produced.
    - specialize (IH ltac:(lia)).
      replace (nJ - j) with (S (nJ - S j)) in IH by lia.
      cbn [seq map] in IH.
      assert (nth_error all_waiting 0 = Some Pool.Waiting) as Hw
          by (destruct nW; [lia|reflexivity]).
      eapply reach_trans.
      + eapply reach_trans; [exact IH|].
        apply (@Pool.T_take nW nJ Pool.sleep (Pool.Collecting 1) _ _ _ _ 0
                            (Pool.job_of (1 + j))
                            (job_list (S (1 + j)) (nJ - S j)));
          [discriminate|exact Hw|reflexivity].
      + cbn [Chan.cap Chan.closed].
        rewrite !seq_S, !map_app. cbn [map Nat.add].
        rewrite <- (update_waiting (Pool.Working (Pool.job_of (S j)))) at 2.
        apply (@Pool.T_emit nW nJ Pool.sleep (Pool.Collecting 1) _
                 (Chan.mk (map Pool.result_of (job_list 1 j)) nJ false) _ _ 0
                 (Pool.job_of (S j))).
        * discriminate.
        * destruct nW; [lia|reflexivity].
        * reflexivity.
        * reflexivity.
        * unfold Chan.len. simpl. rewrite !length_map, length_seq. lia. }
  specialize (H nJ ltac:(lia)). rewrite Nat.sub_diag in H. exact H.
Qed.

Lemma exit_collected :
  reach (Pool.mkState Pool.Finished
                      (Chan.mk [] nJ true) (Chan.mk [] nJ false)
                      all_waiting
                      (map (Pool.EvStarted 1) (job_list 1 nJ)
                       ++ map Pool.EvResult (map Pool.result_of (job_list 1 nJ))
                       ++ [Pool.EvAllDone])).
Proof.
  assert (forall i, i <= nJ ->
            reach (Pool.mkState (Pool.Collecting (S i))
                                (Chan.mk [] nJ true)
                                (Chan.mk (map Pool.result_of (job_list (1 + i) (nJ - i)))
                                         nJ false)
                                all_waiting
                                (map (Pool.EvStarted 1) (job_list 1 nJ)
                                 ++ map Pool.EvResult
                                        (map Pool.result_of (job_list 1 i))))) as H.
  { induction i as [|i IH]; intros Hi.
    - simpl. rewrite Nat.sub_0_r, app_nil_r. exact exit_worked.
    - specialize (IH ltac:(lia)).
      replace (nJ - i) with (S (nJ - S i)) in IH by lia.
      cbn [seq map] in IH.
      eapply reach_trans; [exact IH|].
      rewrite !seq_S, !map_app. cbn [map Nat.add]. rewrite app_assoc.
      apply (@Pool.T_collect nW nJ Pool.sleep (S i) _
               (Chan.mk (Pool.result_of (Pool.job_of (1 + i))
                         :: map Pool.result_of (job_list (S (1 + i)) (nJ - S i)))
                        nJ false) _ _
               (Pool.result_of (Pool.job_of (1 + i)))
               (map Pool.result_of (job_list (S (1 + i)) (nJ - S i))));
        [lia|reflexivity]. }
  specialize (H nJ ltac:(lia)). rewrite Nat.sub_diag in H. simpl in H.
  eapply reach_trans; [exact H|].
  rewrite app_assoc. apply Pool.T_finish. lia.
Qed.

End EarlyExit.

(** X16 -- [main] does not wait for the workers to leave their loops.  For
    every number of workers (at least one) and of jobs there is an
    execution in which [main] returns, all results received, while every
    worker is still waiting at its receive: no worker has printed its
    "Stopping" line when the program ends. *)
Theorem pool_main_may_return_first :
  forall nW nJ : nat,
    1 <= nW ->
    exists s,
      Pool.reachable nW nJ Pool.sleep s /\
      Pool.main s = Pool.Finished /\
      length (Pool.printed s) = nJ /\
      Pool.workers s = repeat Pool.Waiting nW /\
      (forall w, ~ In (Pool.EvStopping w) (Pool.out s)).
Proof.
  intros nW nJ HnW.
  eexists. split; [exact (exit_collected nJ HnW)|].
  split; [reflexivity|]. split.
  - pose proof (inv_reachable (exit_collected nJ HnW)) as Hinv.
    exact (Pool.inv_collected Hinv).
  - split; [reflexivity|].
    intros w Hin. cbn [Pool.out] in Hin.
    apply in_app_or in Hin as [Hin|Hin].
    + apply in_map_iff in Hin as (x & Hx & _). discriminate.
    + apply in_app_or in Hin as [Hin|Hin].
      * apply in_map_iff in Hin as (x & Hx & _). discriminate.
      * destruct Hin as [Hin|[]]. discriminate.
Qed.

(** The pool of the source: three workers and ten jobs. *)
Lemma pool_main_may_return_first_witness :
  1 <= 3 /\
  exists s,
    Pool.reachable 3 10 Pool.sleep s /\
    Pool.main s = Pool.Finished /\
    Pool.workers s = [Pool.Waiting; Pool.Waiting; Pool.Waiting].
Proof.
  assert (1 <= 3) as H by lia.
  split; [exact H|].
  destruct (pool_main_may_return_first 10 H) as (s & R & M & _ & W & _).
  exists s. auto.
Defined.
